(** * Ingestion and retrieval pipeline of the personal RAG assistant

    A shallow embedding of the Go back end: the text chunker
    ([utils.ChunkText]), the embedding client ([service.EmbeddingService]),
    the repositories ([repository.DocumentRepository],
    [repository.VectorRepository]), the storage driver and the two services
    built on them ([service.DocumentService], [service.RAGService]).

    Go values are modelled as follows.
    - [int] is a 64-bit two's-complement integer: a [Z] with the wrap-around
      of every addition and subtraction written out ([Int64.add], ...).
    - A Go [string] used as text is its byte sequence, [list ascii]; names,
      keys, ids and error messages are [string].
    - A slice is a [list]; the [nil] slice is [[]]. Slicing [s[lo:hi]] and
      indexing out of range panic, so both return an [option].
    - [map[string]T] is a [gmap string T].
    - An [error] is its message.  A call ends in a value, an error, a panic,
      or does not end ([Res]). *)

From Stdlib Require Import ZArith Lia Bool Ascii String DecimalString.
From stdpp Require Import base option list gmap strings.

Local Open Scope Z_scope.

(** ** Go's [int] *)

Module Int64.

Definition min_int : Z := - 2 ^ 63.
Definition max_int : Z := 2 ^ 63 - 1.

Definition wrap (z : Z) : Z := (z + 2 ^ 63) mod 2 ^ 64 - 2 ^ 63.

Definition add (a b : Z) : Z := wrap (a + b).
Definition sub (a b : Z) : Z := wrap (a - b).
(** Go's [/] truncates towards zero. *)
Definition div (a b : Z) : Z := wrap (Z.quot a b).

Definition in_range (z : Z) : Prop := min_int <= z <= max_int.

End Int64.

(** ** Slices and the string functions of the Go library that the code calls *)

Definition text := list ascii.

Definition Zlen {A} (s : list A) : Z := Z.of_nat (length s).

(** [s[lo:hi]]; [None] is the run-time panic "slice bounds out of range". *)
Definition slice {A} (s : list A) (lo hi : Z) : option (list A) :=
if (0 <=? lo) && (lo <=? hi) && (hi <=? Zlen s)
then Some (take (Z.to_nat (hi - lo)) (drop (Z.to_nat lo) s))
else None.

(** [s[lo:]] *)
Definition slice_from {A} (s : list A) (lo : Z) : option (list A) :=
slice s lo (Zlen s).

Fixpoint has_prefix (sep s : text) : bool :=
match sep, s with
| [], _ => true
| _ :: _, [] => false
| a :: sep', b :: s' => if Ascii.eqb a b then has_prefix sep' s' else false
end.

Fixpoint last_index_from (s sep : text) (pos best : Z) : Z :=
let best' := if has_prefix sep s then pos else best in
match s with
| [] => best'
| _ :: s' => last_index_from s' sep (pos + 1) best'
end.

(** [strings.LastIndex]: the index of the last occurrence of [sep] in [s],
  [-1] when there is none. *)
Definition LastIndex (s sep : text) : Z := last_index_from s sep 0 (-1).

Definition txt (s : string) : text := list_ascii_of_string s.

Definition LF : ascii := ascii_of_nat 10.

(** ** The chunker: [utils.ChunkText] *)

Module Chunker.

(** How a call ends. *)
Inductive outcome (A : Type) : Type :=
| Returned (a : A)
| Panicked
| OutOfFuel.
Arguments Returned {A} a.
Arguments Panicked {A}.
Arguments OutOfFuel {A}.

(** [[]string{"\n\n", "\n", ". ", " "}] *)
Definition separators : list text :=
  [ [LF; LF]; [LF]; txt ". "; txt " " ].

(** The inner [for _, sep := range ...] loop.  [None]: the slice
    expression panicked; [Some None]: no separator found;
    [Some (Some bp)]: [found] with [breakPoint = bp]. *)
Fixpoint find_break (t : text) (start chunkSize searchRange end_ : Z)
    (seps : list text) : option (option Z) :=
  match seps with
  | [] => Some None
  | sep :: rest =>
      match slice t (Int64.sub (Int64.add start chunkSize) searchRange) end_ with
      | None => None
      | Some window =>
          let idx := LastIndex window sep in
          if idx =? -1
          then find_break t start chunkSize searchRange end_ rest
          else Some (Some (Int64.add
                             (Int64.add
                                (Int64.sub (Int64.add start chunkSize) searchRange)
                                idx)
                             (Zlen sep)))
      end
  end.

(** One iteration of the outer loop, entered with [start < len(text)]. *)
Inductive step_result : Type :=
| Break (chunk : text)
| Continue (chunk : text) (start' : Z)
| StepPanic.

(** [searchRange := chunkSize / 5; if searchRange < 20 { searchRange = 20 }] *)
Definition search_range (chunkSize : Z) : Z :=
  if Int64.div chunkSize 5 <? 20 then 20 else Int64.div chunkSize 5.

Definition chunk_step (t : text) (chunkSize overlap start : Z) : step_result :=
  let end_ := Int64.add start chunkSize in
  if end_ >=? Zlen t then
    match slice_from t start with
    | Some c => Break c
    | None => StepPanic
    end
  else
    let searchRange := search_range chunkSize in
    match find_break t start chunkSize searchRange end_ separators with
    | None => StepPanic
    | Some found =>
        let breakPoint := match found with Some bp => bp | None => end_ end in
        match slice t start breakPoint with
        | None => StepPanic
        | Some c =>
            let start1 := Int64.sub breakPoint overlap in
            let start2 := if start1 <? 0 then 0 else start1 in
            let start3 := if start2 >=? breakPoint then breakPoint else start2 in
            Continue c start3
        end
    end.

(** The outer [for start < len(text)] loop; [fuel] bounds the number of
    iterations that are run. *)
Fixpoint chunk_loop (fuel : nat) (t : text) (chunkSize overlap start : Z)
    (chunks : list text) : outcome (list text) :=
  match fuel with
  | O => OutOfFuel
  | S fuel' =>
      if start <? Zlen t then
        match chunk_step t chunkSize overlap start with
        | Break c => Returned (chunks ++ [c])
        | Continue c start' =>
            chunk_loop fuel' t chunkSize overlap start' (chunks ++ [c])
        | StepPanic => Panicked
        end
      else Returned chunks
  end.

Definition ChunkText_fuel (fuel : nat) (t : text) (chunkSize overlap : Z)
    : outcome (list text) :=
  if Zlen t =? 0 then Returned []
  else if Zlen t <=? chunkSize then Returned [t]
  else chunk_loop fuel t chunkSize overlap 0 [].

(** A loop that moves [start] forward at every iteration runs at most
    [len(text)] times. *)
Definition ChunkText (t : text) (chunkSize overlap : Z) : outcome (list text) :=
  ChunkText_fuel (S (length t)) t chunkSize overlap.

(** Removing the overlaps: every chunk after the first repeats the last
    [overlap] bytes already emitted (all of them when fewer were). *)
Definition reconstruct (overlap : Z) (chunks : list text) : text :=
  foldl (fun acc c => acc ++ drop (Z.to_nat (Z.min overlap (Zlen acc))) c)
        [] chunks.

End Chunker.

(** ** Outcomes, the outside world and the I/O state *)

(** How a call of the back end ends: with a value, with a non-nil [error]
    (its message), with a run-time panic, or not at all. *)
Inductive Res (A : Type) : Type :=
| Ok (a : A)
| Err (e : string)
| Panic
| Diverge.
Arguments Ok {A} a.
Arguments Err {A} e.
Arguments Panic {A}.
Arguments Diverge {A}.

(** A [float32] is its IEEE-754 bit pattern; no arithmetic is done on it. *)
Definition float32 := Z.
Definition vector := list float32.

(** [interface{}] values that the code stores in payloads. *)
Inductive Value : Type :=
| VString (s : string)
| VInt (n : Z)
| VInt64 (n : Z)
| VFloat64 (bits : Z)
| VBool (b : bool)
| VOther.

(** [model.Document] *)
Record Document : Type := mkDocument {
  ID : string;
  UserID : string;
  Filename : string;
  FileType : string;
  FileSize : Z;
  FileHash : string;
  StoragePath : string;
  TotalChunks : Z;
  UploadDate : Z
}.

(** [model.VectorPoint] *)
Record VectorPoint : Type := mkVectorPoint {
  PointID : string;
  Vector : vector;
  Payload : gmap string Value
}.

(** A row of [query_history]. *)
Record QueryHistory : Type := mkQueryHistory {
  qh_UserID : string;
  qh_Question : string;
  qh_Answer : string;
  qh_Sources : list (option Value * option Value)
}.

(** A Qdrant collection: its vector size and its points. *)
Record Collection : Type := mkCollection {
  VectorSize : Z;
  Points : list VectorPoint
}.

(** An entry of [EmbeddingResponse.Data]. *)
Record EmbeddingData : Type := mkEmbeddingData {
  Embedding : vector;
  Index : Z
}.

(** What [httpClient.Do] gives back: a transport error, or a response with
    its status code, its raw body and what [json.Decode] makes of the body
    ([None]: the body does not decode). *)
Inductive HttpResult (B : Type) : Type :=
| TransportError (e : string)
| Response (StatusCode : Z) (raw : string) (decoded : option B).
Arguments TransportError {B} e.
Arguments Response {B} StatusCode raw decoded.

(** [multipart.FileHeader], with the bytes that [Open] and [io.ReadAll]
    deliver. *)
Record FileHeader : Type := mkFileHeader {
  fh_Filename : string;
  fh_Size : Z;
  fh_content : text
}.

(** Everything the back end does to the outside, in the order it does it. *)
Inductive Event : Type :=
| EvHttpEmbeddings (input : list text)
| EvSleep (seconds : Z)
| EvHttpChat (systemPrompt userPrompt : string)
| EvFileOpen (filename : string)
| EvFileRead (filename : string)
| EvStorageUpload (key : string)
| EvStorageDelete (key : string)
| EvDbInsertDocument (user hash : string)
| EvDbSelectDocument (id : string)
| EvDbDeleteDocument (id : string)
| EvDbInsertQueryHistory (user : string)
| EvQdrantList
| EvQdrantCreate (name : string)
| EvLogError (msg : string).

(** The state the back end works on: the two tables, the object store, the
    vector index and the log of the I/O done so far. *)
Record World : Type := mkWorld {
  documents : list Document;
  query_history : list QueryHistory;
  objects : gmap string text;
  collections : gmap string Collection;
  trace : list Event
}.

(** What the outside answers.  Each oracle is asked with the number of I/O
    events that came before, so two calls may be answered differently. *)
Record Env : Type := mkEnv {
  sha256_hex : text -> string;
  embeddings_api : nat -> list text -> HttpResult (list EmbeddingData);
  chat_api : nat -> string -> string -> HttpResult (list string);
  io_error : nat -> option string;
  new_uuid : nat -> string;
  db_now : nat -> Z
}.

Definition M (A : Type) : Type := World -> Res A * World.

Definition ret {A} (a : A) : M A := fun w => (Ok a, w).
Definition fail {A} (e : string) : M A := fun w => (Err e, w).
Definition panic {A} : M A := fun w => (Panic, w).
Definition diverge {A} : M A := fun w => (Diverge, w).

Definition bind {A B} (m : M A) (k : A -> M B) : M B :=
  fun w =>
    match m w with
    | (Ok a, w') => k a w'
    | (Err e, w') => (Err e, w')
    | (Panic, w') => (Panic, w')
    | (Diverge, w') => (Diverge, w')
    end.

Notation "'let*' x := m 'in' k" := (bind m (fun x => k))
  (at level 10, x name, m at level 100, k at level 200, only parsing).
Notation "m ;;; k" := (bind m (fun _ => k))
  (at level 100, k at level 200, right associativity, only parsing).

(** [if err != nil { return nil, fmt.Errorf("<prefix>: %w", err) }] *)
Definition wrap_err {A} (prefix : string) (m : M A) : M A :=
  fun w =>
    match m w with
    | (Err e, w') => (Err (prefix +:+ ": " +:+ e), w')
    | r => r
    end.

Definition lift {A} (r : Res A) : M A := fun w => (r, w).

Definition set_documents (ds : list Document) (w : World) : World :=
  mkWorld ds (query_history w) (objects w) (collections w) (trace w).
Definition set_query_history (qs : list QueryHistory) (w : World) : World :=
  mkWorld (documents w) qs (objects w) (collections w) (trace w).
Definition set_objects (os : gmap string text) (w : World) : World :=
  mkWorld (documents w) (query_history w) os (collections w) (trace w).
Definition set_collections (cs : gmap string Collection) (w : World) : World :=
  mkWorld (documents w) (query_history w) (objects w) cs (trace w).
Definition log_event (ev : Event) (w : World) : World :=
  mkWorld (documents w) (query_history w) (objects w) (collections w)
          (trace w ++ [ev]).

Definition log_events (evs : list Event) (w : World) : World :=
  mkWorld (documents w) (query_history w) (objects w) (collections w)
          (trace w ++ evs).

(** An I/O call that changes nothing by itself: it is logged, and the
    outside may make it fail. *)
Definition io (env : Env) (ev : Event) : M nat :=
  fun w =>
    let k := length (trace w) in
    match io_error env k with
    | Some e => (Err e, log_event ev w)
    | None => (Ok k, log_event ev w)
    end.

Definition modify (f : World -> World) : M unit := fun w => (Ok tt, f w).
Definition get {A} (f : World -> A) : M A := fun w => (Ok (f w), w).

Definition is_embeddings_request (ev : Event) : Prop :=
  match ev with EvHttpEmbeddings _ => True | _ => False end.

(** A computation keeps an invariant of the world, and a computation never
    ends in a value, when started in a world that satisfies the invariant. *)
Definition keeps {A} (I : World -> Prop) (m : M A) : Prop :=
  forall w, I w -> I (m w).2.

Definition never_ok {A} (I : World -> Prop) (m : M A) : Prop :=
  forall w, I w -> forall a, (m w).1 <> Ok a.

(** The two tables are the given ones. *)
Definition tables_are (D : list Document) (C : gmap string Collection)
    (w : World) : Prop :=
  documents w = D /\ collections w = C.

Definition stops {A} (I : World -> Prop) (m : M A) : Prop :=
  keeps I m /\ never_ok I m.

(** [%d] *)
Definition show_int (z : Z) : string :=
  DecimalString.NilZero.string_of_int (Z.to_int z).

(** ** The embedding client: [service.EmbeddingService] *)

Module EmbeddingService.

Definition batchSize : Z := 100.
Definition maxRetries : Z := 3.

(** [s.httpClient.Do(req)] on the embeddings endpoint.  The request is
    built once, before the retry loop, and handed to the client at every
    attempt; what the client makes of it is the oracle's answer.  (A
    response that comes together with an error is not modelled: the client
    returns one or the other.) *)
Definition do_request (env : Env) (texts : list text)
  : M (HttpResult (list EmbeddingData)) :=
  fun w =>
    (Ok (embeddings_api env (length (trace w)) texts),
     log_event (EvHttpEmbeddings texts) w).

(** [time.Sleep(time.Duration(1<<uint(attempt)) * time.Second)] *)
Definition sleep (attempt : Z) : M unit :=
  modify (log_event (EvSleep (Z.shiftl 1 attempt))).

(** What [resp] holds when the retry loop is left. *)
Definition held_response : Type := Z * string * option (list EmbeddingData).

(** The loop [for attempt := 0; attempt < maxRetries; attempt++], run over
    the attempt numbers still to come; [resp] is the variable declared
    before the loop. *)
Fixpoint retry_loop (env : Env) (texts : list text) (attempts : list Z)
    (resp : option held_response) : M (option held_response) :=
  match attempts with
  | [] => ret resp
  | attempt :: rest =>
      let* r := do_request env texts in
      match r with
      | Response status raw decoded =>
          if status =? 200 then ret (Some (status, raw, decoded))
          else if status =? 429 then
            sleep attempt ;;; retry_loop env texts rest (Some (status, raw, decoded))
          else
            fail ("API error (status " +:+ show_int status +:+ "): " +:+ raw)
      | TransportError e => fail ("request failed: " +:+ e)
      end
  end.

(** [embeddings[data.Index] = data.Embedding], for an index in range. *)
Definition put (embeddings : list vector) (d : EmbeddingData) : list vector :=
  <[Z.to_nat (Index d) := Embedding d]> embeddings.

(** The loop that fills [embeddings] from [embeddingResp.Data]. *)
Fixpoint extract (data : list EmbeddingData) (embeddings : list vector)
  : Res (list vector) :=
  match data with
  | [] => Ok embeddings
  | d :: rest =>
      if Index d >=? Zlen embeddings then
        Err ("invalid embedding index: " +:+ show_int (Index d))
      else if Index d <? 0 then Panic
      else extract rest (put embeddings d)
  end.

Definition attempt_numbers : list Z := seqZ 0 maxRetries.

Definition generateBatch (env : Env) (texts : list text) : M (list vector) :=
  let* resp := retry_loop env texts attempt_numbers None in
  match resp with
  | None => fail ("no response after " +:+ show_int maxRetries +:+ " retries")
  | Some (_, _, None) => fail "failed to decode response: invalid body"
  | Some (_, _, Some data) =>
      lift (extract data (replicate (length data) []))
  end.

(** The loop [for i := 0; i < len(texts); i += batchSize]. *)
Fixpoint batch_loop (env : Env) (fuel : nat) (texts : list text) (i : Z)
    (allEmbeddings : list vector) : M (list vector) :=
  match fuel with
  | O => diverge
  | S fuel' =>
      if i <? Zlen texts then
        let end0 := Int64.add i batchSize in
        let end_ := if end0 >? Zlen texts then Zlen texts else end0 in
        match slice texts i end_ with
        | None => panic
        | Some batch =>
            let* embeddings :=
              wrap_err ("failed to generate batch "
                          +:+ show_int (Int64.div i batchSize))
                       (generateBatch env batch) in
            batch_loop env fuel' texts (Int64.add i batchSize)
                       (allEmbeddings ++ embeddings)
        end
      else ret allEmbeddings
  end.

Definition GenerateEmbeddings (env : Env) (texts : list text) : M (list vector) :=
  if Zlen texts =? 0 then fail "no texts provided"
  else batch_loop env (S (length texts)) texts 0 [].

Definition GenerateEmbedding (env : Env) (t : text) : M vector :=
  let* embeddings := GenerateEmbeddings env [t] in
  match embeddings with
  | [] => fail "no embeddings returned"
  | e :: _ => ret e
  end.

(** [GetDimensions] *)
Definition GetDimensions : Z := 1536.

(** The entries an API that honours its contract sends for a batch: one per
    input, each with the position of its input as index. *)
Definition indexed (vs : list vector) : list EmbeddingData :=
  imap (fun i v => mkEmbeddingData v (Z.of_nat i)) vs.

(** A successful reply to a batch: status 200 and a body that decodes to
    the entries of the batch, in any order. *)
Definition successful_reply (embed : text -> vector) (batch : list text)
    (r : HttpResult (list EmbeddingData)) : Prop :=
  exists raw data,
    r = Response 200 raw (Some data) /\ data ≡ₚ indexed (map embed batch).

End EmbeddingService.

(** ** The storage driver: [storage.StorageDriver]

    Both implementations ([S3Client], [LocalStorage]) keep one object per
    key; deleting a key that holds nothing succeeds ([LocalStorage.DeleteFile]
    returns [nil] on [os.IsNotExist]). *)

Module StorageDriver.

Definition UploadFile (env : Env) (key : string) (content : text) : M unit :=
  wrap_err "failed to upload file" (io env (EvStorageUpload key)) ;;;
  modify (fun w => set_objects (<[key := content]> (objects w)) w).

Definition DeleteFile (env : Env) (key : string) : M unit :=
  wrap_err "failed to delete file" (io env (EvStorageDelete key)) ;;;
  modify (fun w => set_objects (delete key (objects w)) w).

End StorageDriver.

(** ** The metadata store: [repository.DocumentRepository]

    The table is the one [database.RunMigrations] creates: [id] is the
    primary key and [(user_id, file_hash)] is unique. *)

Module DocumentRepository.

Definition same_user_hash (user hash : string) (d : Document) : bool :=
  String.eqb (UserID d) user && String.eqb (FileHash d) hash.

Definition has_id (id : string) (d : Document) : bool := String.eqb (ID d) id.

(** [INSERT INTO documents ... RETURNING id, upload_date] *)
Definition Create (env : Env) (doc : Document) : M Document :=
  wrap_err "failed to create document"
    (let* k := io env (EvDbInsertDocument (UserID doc) (FileHash doc)) in
     let* rows := get documents in
     if existsb (same_user_hash (UserID doc) (FileHash doc)) rows then
       fail "pq: duplicate key value violates unique constraint unique_user_file_hash"
     else if existsb (has_id (new_uuid env k)) rows then
       fail "pq: duplicate key value violates unique constraint documents_pkey"
     else
       let doc' :=
         mkDocument (new_uuid env k) (UserID doc) (Filename doc) (FileType doc)
                    (FileSize doc) (FileHash doc) (StoragePath doc)
                    (TotalChunks doc) (db_now env k) in
       modify (fun w => set_documents (documents w ++ [doc']) w) ;;;
       ret doc').

(** [SELECT ... FROM documents WHERE id = $1] *)
Definition GetByID (env : Env) (id : string) : M Document :=
  fun w =>
    match io env (EvDbSelectDocument id) w with
    | (Ok _, w') =>
        match find (has_id id) (documents w') with
        | Some d => (Ok d, w')
        | None => (Err "document not found", w')
        end
    | (Err e, w') => (Err ("failed to get document: " +:+ e), w')
    | (Panic, w') => (Panic, w')
    | (Diverge, w') => (Diverge, w')
    end.

(** [DELETE FROM documents WHERE id = $1] *)
Definition Delete (env : Env) (id : string) : M unit :=
  wrap_err "failed to delete document" (io env (EvDbDeleteDocument id)) ;;;
  let* rows := get documents in
  if existsb (has_id id) rows then
    modify (set_documents (filter (fun d => has_id id d = false) rows))
  else fail "document not found".

(** [INSERT INTO query_history ...] *)
Definition SaveQueryHistory (env : Env) (userID question answer : string)
    (sources : list (option Value * option Value)) : M unit :=
  wrap_err "failed to save query history"
           (io env (EvDbInsertQueryHistory userID)) ;;;
  modify (fun w =>
            set_query_history
              (query_history w ++ [mkQueryHistory userID question answer sources]) w).

End DocumentRepository.

(** ** The vector index: [storage.QdrantClient] and
       [repository.VectorRepository] *)

Module QdrantClient.

Definition CollectionExists (env : Env) (collectionName : string) : M bool :=
  wrap_err "failed to list collections" (io env EvQdrantList) ;;;
  let* cs := get collections in
  ret (bool_decide (is_Some (cs !! collectionName))).

Definition CreateCollection (env : Env) (collectionName : string)
    (vectorSize : Z) : M unit :=
  wrap_err "failed to create collection"
    (io env (EvQdrantCreate collectionName) ;;;
     let* cs := get collections in
     match cs !! collectionName with
     | Some _ => fail "collection already exists"
     | None =>
         modify (set_collections
                   (<[collectionName := mkCollection vectorSize []]> cs))
     end).

End QdrantClient.

Module VectorRepository.

(** [fmt.Sprintf("user_%s_docs", userID)] *)
Definition GetCollectionName (userID : string) : string :=
  "user_" +:+ userID +:+ "_docs".

Definition EnsureCollection (env : Env) (userID : string) (vectorSize : Z)
  : M unit :=
  let collectionName := GetCollectionName userID in
  let* exists_ := QdrantClient.CollectionExists env collectionName in
  if negb exists_ then QdrantClient.CreateCollection env collectionName vectorSize
  else ret tt.

(** The [switch v := value.(type)] of [convertToQdrantPayload]: values of
    the five listed types are kept, any other is dropped. *)
Definition convertToQdrantPayload (payload : gmap string Value)
  : gmap string Value :=
  omap (fun v => match v with VOther => None | _ => Some v end) payload.

(** The points are converted and then dropped: the upsert is not written. *)
Definition InsertVectors (env : Env) (userID : string)
    (points : list VectorPoint) : M unit :=
  let _collectionName := GetCollectionName userID in
  let _qdrantPoints :=
    map (fun p => mkVectorPoint (PointID p) (Vector p)
                                (convertToQdrantPayload (Payload p))) points in
  fail "insert vectors not fully implemented yet".

Definition Search (env : Env) (userID : string) (v : vector) (limit : Z)
  : M (list VectorPoint) :=
  let _collectionName := GetCollectionName userID in
  fail "search not fully implemented yet".

Definition DeleteByDocumentID (env : Env) (userID documentID : string) : M unit :=
  let _collectionName := GetCollectionName userID in
  fail "delete by document ID not fully implemented yet".

End VectorRepository.

(** ** Path and case functions of the Go library *)

(** The scan of [filepath.Ext], from the last byte backwards: it stops at a
    path separator and returns the suffix that starts at the last dot. *)
Fixpoint ext_scan (reversed suffix : list ascii) : list ascii :=
  match reversed with
  | [] => []
  | c :: rest =>
      if Ascii.eqb c "/" then []
      else if Ascii.eqb c "." then c :: suffix
      else ext_scan rest (c :: suffix)
  end.

Definition Ext (path : string) : string :=
  string_of_list_ascii (ext_scan (rev (list_ascii_of_string path)) []).

Definition lower_byte (c : ascii) : ascii :=
  let n := nat_of_ascii c in
  if (65 <=? n)%nat && (n <=? 90)%nat then ascii_of_nat (n + 32) else c.

(** [strings.ToLower] on the ASCII letters.  (Outside ASCII only U+0130 and
    U+212A lower to an ASCII letter, [i] and [k]; neither occurs in an
    allowed extension.) *)
Definition ToLower (s : string) : string :=
  string_of_list_ascii (map lower_byte (list_ascii_of_string s)).

Definition nl : string := String LF EmptyString.

(** ** Ingestion: [service.DocumentService] *)

Module DocumentService.

Definition allowedTypes : gmap string bool :=
  {[ ".pdf" := true; ".txt" := true; ".md" := true;
     ".json" := true; ".csv" := true ]}.

(** [allowedTypes[ext]]: a missing key reads as [false]. *)
Definition allowed (ext : string) : bool := default false (allowedTypes !! ext).

Definition maxSize : Z := 10 * 1024 * 1024.

(** The [switch ext] that extracts the text. *)
Definition extract_text (ext : string) (content : text) : M text :=
  if String.eqb ext ".txt" || String.eqb ext ".md" then ret content
  else if String.eqb ext ".json" || String.eqb ext ".csv" then ret content
  else if String.eqb ext ".pdf" then ret content
  else fail "unsupported file type".

Definition point_payload (docID userID filename ext : string) (i : Z)
    (chunk : text) : gmap string Value :=
  {[ "document_id" := VString docID;
     "user_id" := VString userID;
     "filename" := VString filename;
     "file_type" := VString ext;
     "chunk_index" := VInt i;
     "content" := VString (string_of_list_ascii chunk) ]}.

(** The loop [for i, embedding := range embeddings]; [chunks[i]] panics when
    there are more embeddings than chunks. *)
Fixpoint build_points (docID userID filename ext : string) (chunks : list text)
    (i : nat) (embeddings : list vector) : Res (list VectorPoint) :=
  match embeddings with
  | [] => Ok []
  | embedding :: rest =>
      match chunks !! i with
      | None => Panic
      | Some chunk =>
          let point :=
            mkVectorPoint (docID +:+ "_chunk_" +:+ show_int (Z.of_nat i))
                          embedding
                          (point_payload docID userID filename ext
                                         (Z.of_nat i) chunk) in
          match build_points docID userID filename ext chunks (S i) rest with
          | Ok points => Ok (point :: points)
          | r => r
          end
      end
  end.

Definition UploadDocument (env : Env) (userID : string) (file : FileHeader)
  : M Document :=
  let ext := ToLower (Ext (fh_Filename file)) in
  if negb (allowed ext) then fail ("unsupported file type: " +:+ ext)
  else if fh_Size file >? maxSize then fail "file too large (max 10MB)"
  else
    wrap_err "failed to open file" (io env (EvFileOpen (fh_Filename file))) ;;;
    wrap_err "failed to read file" (io env (EvFileRead (fh_Filename file))) ;;;
    let content := fh_content file in
    let fileHash := sha256_hex env content in
    let* text_ := extract_text ext content in
    match Chunker.ChunkText text_ 500 50 with
    | Chunker.Panicked => panic
    | Chunker.OutOfFuel => diverge
    | Chunker.Returned chunks =>
        if Zlen chunks =? 0 then fail "no text content found in document"
        else
          let* embeddings :=
            wrap_err "failed to generate embeddings"
                     (EmbeddingService.GenerateEmbeddings env chunks) in
          let storagePath :=
            userID +:+ "/" +:+ fileHash +:+ "/" +:+ fh_Filename file in
          wrap_err "failed to upload file"
                   (StorageDriver.UploadFile env storagePath content) ;;;
          let doc0 :=
            mkDocument "" userID (fh_Filename file) ext (fh_Size file) fileHash
                       storagePath (Zlen chunks) 0 in
          let* doc :=
            wrap_err "failed to create document record"
                     (DocumentRepository.Create env doc0) in
          let vectorSize := EmbeddingService.GetDimensions in
          wrap_err "failed to ensure collection"
                   (VectorRepository.EnsureCollection env userID vectorSize) ;;;
          let* points :=
            lift (build_points (ID doc) userID (fh_Filename file) ext chunks
                               0 embeddings) in
          wrap_err "failed to insert vectors"
                   (VectorRepository.InsertVectors env userID points) ;;;
          ret doc
    end.

Definition GetDocument (env : Env) (userID documentID : string) : M Document :=
  let* doc := DocumentRepository.GetByID env documentID in
  if negb (String.eqb (UserID doc) userID) then fail "unauthorized"
  else ret doc.

(** The body of [DeleteDocument], with what the call
    [s.vectorRepo.DeleteByDocumentID(ctx, userID, documentID)] does taken
    as a parameter. *)
Definition DeleteDocument_with (deleteVectors : M unit) (env : Env)
    (userID documentID : string) : M unit :=
  let* doc := GetDocument env userID documentID in
  wrap_err "failed to delete file"
           (StorageDriver.DeleteFile env (StoragePath doc)) ;;;
  wrap_err "failed to delete vectors" deleteVectors ;;;
  wrap_err "failed to delete document record"
           (DocumentRepository.Delete env documentID) ;;;
  ret tt.

Definition DeleteDocument (env : Env) (userID documentID : string) : M unit :=
  DeleteDocument_with (VectorRepository.DeleteByDocumentID env userID documentID)
                      env userID documentID.

End DocumentService.

(** ** Retrieval-augmented answering: [service.RAGService] *)

Module RAGService.

Record QueryResponse : Type := mkQueryResponse {
  Answer : string;
  Sources : list (option Value * option Value)
}.

Definition systemPrompt : string :=
  "You are a helpful AI assistant with access to the user's uploaded documents.

Your role is to:
1. Answer questions accurately using information from the provided context
2. Cite specific sources when providing information
3. Be concise and actionable in your responses
4. If the information isn't in the context, clearly state that

CRITICAL: Base your answer ONLY on the provided context. Do not use external knowledge.".

Definition callLLM (env : Env) (system user : string) : M string :=
  fun w =>
    let w' := log_event (EvHttpChat system user) w in
    match chat_api env (length (trace w)) system user with
    | TransportError e => (Err ("request failed: " +:+ e), w')
    | Response status raw decoded =>
        if negb (status =? 200) then
          (Err ("API error (status " +:+ show_int status +:+ "): " +:+ raw), w')
        else
          match decoded with
          | None => (Err "failed to decode response: invalid body", w')
          | Some [] => (Err "no completion choices returned", w')
          | Some (content :: _) => (Ok content, w')
          end
    end.

(** [result.Payload["content"].(string)] *)
Definition content_of (result : VectorPoint) : option string :=
  match Payload result !! "content" with
  | Some (VString c) => Some c
  | _ => None
  end.

Definition source_of (result : VectorPoint) : option Value * option Value :=
  (Payload result !! "filename", Payload result !! "page").

(** [contextText += fmt.Sprintf("\n[Document %d]: %s\n", i+1, chunk)] *)
Fixpoint context_text (i : Z) (contextChunks : list string) (acc : string)
  : string :=
  match contextChunks with
  | [] => acc
  | chunk :: rest =>
      context_text (i + 1) rest
        (acc +:+ nl +:+ "[Document " +:+ show_int (i + 1) +:+ "]: "
             +:+ chunk +:+ nl)
  end.

Definition user_prompt (contextText question : string) : string :=
  "Context from user's documents:" +:+ nl +:+ contextText +:+ nl +:+ nl
    +:+ "Question: " +:+ question +:+ nl +:+ nl
    +:+ "Answer based on the above context:".

Definition Query (env : Env) (userID question : string) : M QueryResponse :=
  let* questionEmbedding :=
    wrap_err "failed to generate question embedding"
             (EmbeddingService.GenerateEmbedding env (txt question)) in
  let* results :=
    wrap_err "failed to search vectors"
             (VectorRepository.Search env userID questionEmbedding 5) in
  let contextChunks := omap content_of results in
  let sources := map source_of results in
  let contextText := context_text 0 contextChunks "" in
  let userPrompt := user_prompt contextText question in
  let* answer :=
    wrap_err "failed to call LLM" (callLLM env systemPrompt userPrompt) in
  (fun w =>
     match DocumentRepository.SaveQueryHistory env userID question answer
                                               sources w with
     | (Err e, w') =>
         (Ok tt, log_event (EvLogError "Failed to save query history") w')
     | r => r
     end) ;;;
  ret (mkQueryResponse answer sources).

End RAGService.

(** ** Inputs used in the examples *)

Module Inputs.

(** A space followed by twenty letters. *)
Definition stuck_text : text := txt " aaaaaaaaaaaaaaaaaaaa".

(** Eighty letters, a line feed, thirty letters. *)
Definition wide_overlap_text : text :=
  replicate 80 "a"%char ++ [LF] ++ replicate 30 "b"%char.

Definition empty_world : World := mkWorld [] [] ∅ ∅ [].

(** An embedding model for the examples: one number, the length of the
    text. *)
Definition toy_embed (t : text) : vector := [Zlen t].

(** An API that answers every batch with status 200 and the entries of the
    batch in reverse order. *)
Definition reversing_api (k : nat) (batch : list text)
  : HttpResult (list EmbeddingData) :=
  Response 200 "ok"
           (Some (rev (EmbeddingService.indexed (map toy_embed batch)))).

(** An API that is rate limited for good; the body of its 429 replies is
    a JSON error object, which decodes to a response without entries. *)
Definition rate_limited_api (k : nat) (batch : list text)
  : HttpResult (list EmbeddingData) :=
  Response 429 "{error: rate limit reached}" (Some []).

(** An API that answers 200 with two entries that both claim index 0. *)
Definition duplicating_api (k : nat) (batch : list text)
  : HttpResult (list EmbeddingData) :=
  Response 200 "ok" (Some [mkEmbeddingData [1] 0; mkEmbeddingData [2] 0]).

Definition chat_down (k : nat) (system user : string) : HttpResult (list string) :=
  TransportError "connection refused".

(** A stand-in for the hash in the examples: the content itself. *)
Definition toy_hash (content : text) : string := string_of_list_ascii content.

Definition toy_uuid (k : nat) : string := "doc-" +:+ show_int (Z.of_nat k).

(** A document of owner [u1], its stored object, and no vector collection. *)
Definition notes_content : text := txt "Returns accepted within 30 days".

Definition notes_path : string :=
  "u1/" +:+ toy_hash notes_content +:+ "/notes.txt".

Definition notes_doc : Document :=
  mkDocument "doc-1" "u1" "notes.txt" ".txt" 31 (toy_hash notes_content)
             notes_path 1 0.

Definition notes_world : World :=
  mkWorld [notes_doc] [] {[ notes_path := notes_content ]} ∅ [].

Definition notes_file : FileHeader := mkFileHeader "notes.txt" 31 notes_content.

Definition program_file : FileHeader :=
  mkFileHeader "setup.exe" 11 (txt "hello world").

(** A PDF one byte over the limit (only its declared size matters). *)
Definition oversized_file : FileHeader :=
  mkFileHeader "Report.PDF" (10 * 1024 * 1024 + 1) (txt "%PDF").

Definition env_with (api : nat -> list text -> HttpResult (list EmbeddingData))
  : Env :=
  mkEnv toy_hash api chat_down (fun _ => None) toy_uuid (fun _ => 0).

End Inputs.

(** ** Statements about chunk lists *)

Module ChunkerSpec.

(** Every two consecutive chunks share [O] bytes: the last [O] bytes of the
    first are the first [O] bytes of the second. *)
Definition overlapping (O : Z) (chunks : list text) : Prop :=
  forall (i : nat) c1 c2,
    chunks !! i = Some c1 -> chunks !! S i = Some c2 ->
    O <= Zlen c1 /\ O <= Zlen c2 /\
    drop (Z.to_nat (Zlen c1 - O)) c1 = take (Z.to_nat O) c2.

(** What the loop keeps about the chunk it cut last: its last [O] bytes are
    the [O] bytes of the text at the new start. *)
Definition tail_at (t : text) (O start : Z) (chunks : list text) : Prop :=
  chunks = [] \/
  exists c, last chunks = Some c /\ O <= Zlen c /\ start + O <= Zlen t /\
            drop (Z.to_nat (Zlen c - O)) c
            = take (Z.to_nat O) (drop (Z.to_nat start) t).

End ChunkerSpec.

(** ** Statements about the embedding client *)

Module EmbeddingSpec.

(** The [j]-th batch of a list of texts: the hundred texts from position
    [100 * j] on, or as many as are left. *)
Definition batch_at (texts : list text) (j : nat) : list text :=
  take 100 (drop (100 * j) texts).

(** The number of batches: the length divided by a hundred, rounded up. *)
Definition batch_count (texts : list text) : nat := (length texts + 99) / 100.

Definition batch_requests (texts : list text) (j m : nat) : list Event :=
  map (fun k => EvHttpEmbeddings (batch_at texts k)) (seq j m).

(** The vector a reply gives for position [i]: that of its last entry with
    index [i], and the empty vector when no entry has index [i]. *)
Definition entry_for (i : nat) (data : list EmbeddingData) : vector :=
  default [] (Embedding <$>
                last (filter (fun d => Index d = Z.of_nat i) data)).

Definition is_request_or_wait (ev : Event) : Prop :=
  match ev with
  | EvHttpEmbeddings _ | EvSleep _ => True
  | _ => False
  end.

(** The world is [w0] with requests and waits added to its log. *)
Definition gains_requests_and_waits (w0 w : World) : Prop :=
  exists evs, w = log_events evs w0 /\ Forall is_request_or_wait evs.



End EmbeddingSpec.

(** ** More inputs for the examples *)

Module MoreInputs.

(** An API whose connection breaks at the request made when one I/O event
    is logged. *)
Definition breaking_api (k : nat) (batch : list text)
  : HttpResult (list EmbeddingData) :=
  if (k =? 1)%nat then TransportError "connection reset"
  else Inputs.reversing_api k batch.

(** An API that answers a batch with fewer entries than it was sent texts:
    entry 1 twice and entry 0 never, out of three positions. *)
Definition careless_api (k : nat) (batch : list text)
  : HttpResult (list EmbeddingData) :=
  Response 200 "ok"
    (Some [mkEmbeddingData [7] 1; mkEmbeddingData [8] 2; mkEmbeddingData [9] 1]).

(** An API whose second entry names a position that does not exist. *)
Definition overshooting_api (k : nat) (batch : list text)
  : HttpResult (list EmbeddingData) :=
  Response 200 "ok" (Some [mkEmbeddingData [7] 0; mkEmbeddingData [8] 2]).

(** An API that answers 200 with no entries at all. *)
Definition silent_api (k : nat) (batch : list text)
  : HttpResult (list EmbeddingData) :=
  Response 200 "ok" (Some []).

Definition two_hundred_and_one_texts : list text :=
  replicate 200 (txt "a") ++ [txt "bc"].

End MoreInputs.

(** ** Statements about the tables *)

Module RepositorySpec.


(** The row [Create] writes for [doc] when the database gives it the
    identifier [id] and the date [date]. *)
Definition stored_as (doc : Document) (id : string) (date : Z) : Document :=
  mkDocument id (UserID doc) (Filename doc) (FileType doc) (FileSize doc)
             (FileHash doc) (StoragePath doc) (TotalChunks doc) date.

End RepositorySpec.

(** ** The HTTP layer: [middleware.AuthRequired] and the handlers *)

Module Middleware.

(** [service.Claims], without the registered claims. *)
Record Claims : Type := mkClaims {
  claims_UserID : string;
  claims_Email : string
}.

(** What a handler reads from [*fiber.Ctx]: the [Authorization] header
    (empty when absent), the two locals the middleware sets, the route
    parameter [id], the uploaded file ([None]: [FormFile] returns an error)
    and what [BodyParser] makes of the body ([None]: it returns an error;
    [Some q]: the request parsed, with [Question] equal to [q]). *)
Record Ctx : Type := mkCtx {
  header_Authorization : string;
  locals_userID : option Value;
  locals_email : option Value;
  params_id : string;
  form_file : option FileHeader;
  body_question : option string
}.

(** The JSON bodies the handlers send. *)
Inductive ReplyBody : Type :=
| ErrorJSON (error : string)
| UploadedJSON (message : string) (document : Document)
| DocumentJSON (document : Document)
| MessageJSON (message : string)
| AnswerJSON (response : RAGService.QueryResponse).

Record Reply : Type := mkReply {
  reply_status : Z;
  reply_body : ReplyBody
}.

(** [strings.Split(s, " ")] *)
Fixpoint Split_space (s : list ascii) : list (list ascii) :=
  match s with
  | [] => [[]]
  | c :: rest =>
      if Ascii.eqb c " " then [] :: Split_space rest
      else
        match Split_space rest with
        | p :: ps => (c :: p) :: ps
        | [] => [[c]]
        end
  end.

Definition set_locals (userID email : string) (c : Ctx) : Ctx :=
  mkCtx (header_Authorization c) (Some (VString userID)) (Some (VString email))
        (params_id c) (form_file c) (body_question c).

(** [AuthRequired(jwtSecret)]: a reply, or [c.Next()] on the context with
    the locals set.  [jwt_parse secret token] is what
    [jwt.ParseWithClaims] gives for the token under the key [secret]:
    the claims when it returns no error and the token is valid.  (The
    claims it returns are the [*service.Claims] it was handed, so the type
    assertion that follows succeeds.) *)
Definition AuthRequired (jwt_parse : string -> string -> option Claims)
    (jwtSecret : string) (c : Ctx) : Reply + Ctx :=
  let authHeader := header_Authorization c in
  if String.eqb authHeader "" then
    inl (mkReply 401 (ErrorJSON "missing authorization header"))
  else
    match Split_space (list_ascii_of_string authHeader) with
    | [scheme; tokenString] =>
        if negb (String.eqb (string_of_list_ascii scheme) "Bearer") then
          inl (mkReply 401 (ErrorJSON "invalid authorization header format"))
        else
          match jwt_parse jwtSecret (string_of_list_ascii tokenString) with
          | None => inl (mkReply 401 (ErrorJSON "invalid or expired token"))
          | Some claims =>
              inr (set_locals (claims_UserID claims) (claims_Email claims) c)
          end
    | _ => inl (mkReply 401 (ErrorJSON "invalid authorization header format"))
    end.

(** [GetUserID]: the local [userID] when it is a string. *)
Definition GetUserID (c : Ctx) : string :=
  match locals_userID c with
  | Some (VString userID) => userID
  | _ => ""
  end.

End Middleware.

(** [x, err := ...; if err != nil { ... }]: the error of a call, taken as
    a value. *)
Definition attempt {A} (m : M A) : M (A + string) :=
  fun w =>
    match m w with
    | (Ok a, w') => (Ok (inl a), w')
    | (Err e, w') => (Ok (inr e), w')
    | (Panic, w') => (Panic, w')
    | (Diverge, w') => (Diverge, w')
    end.

Module DocumentHandler.
Import Middleware.

Definition Upload (env : Env) (c : Ctx) : M Reply :=
  let userID := GetUserID c in
  if String.eqb userID "" then ret (mkReply 401 (ErrorJSON "unauthorized"))
  else
    match form_file c with
    | None => ret (mkReply 400 (ErrorJSON "no file uploaded"))
    | Some file =>
        let* r := attempt (DocumentService.UploadDocument env userID file) in
        match r with
        | inr e => ret (mkReply 400 (ErrorJSON e))
        | inl doc =>
            ret (mkReply 201 (UploadedJSON "document uploaded successfully" doc))
        end
    end.

Definition Get (env : Env) (c : Ctx) : M Reply :=
  let userID := GetUserID c in
  if String.eqb userID "" then ret (mkReply 401 (ErrorJSON "unauthorized"))
  else
    let documentID := params_id c in
    if String.eqb documentID "" then
      ret (mkReply 400 (ErrorJSON "document ID is required"))
    else
      let* r := attempt (DocumentService.GetDocument env userID documentID) in
      match r with
      | inr e => ret (mkReply 404 (ErrorJSON e))
      | inl doc => ret (mkReply 200 (DocumentJSON doc))
      end.

Definition Delete (env : Env) (c : Ctx) : M Reply :=
  let userID := GetUserID c in
  if String.eqb userID "" then ret (mkReply 401 (ErrorJSON "unauthorized"))
  else
    let documentID := params_id c in
    if String.eqb documentID "" then
      ret (mkReply 400 (ErrorJSON "document ID is required"))
    else
      let* r := attempt (DocumentService.DeleteDocument env userID documentID) in
      match r with
      | inr e => ret (mkReply 500 (ErrorJSON e))
      | inl _ => ret (mkReply 200 (MessageJSON "document deleted successfully"))
      end.

End DocumentHandler.

Module QueryHandler.
Import Middleware.

Definition Query (env : Env) (c : Ctx) : M Reply :=
  let userID := GetUserID c in
  if String.eqb userID "" then ret (mkReply 401 (ErrorJSON "unauthorized"))
  else
    match body_question c with
    | None => ret (mkReply 400 (ErrorJSON "invalid request body"))
    | Some question =>
        if String.eqb question "" then
          ret (mkReply 400 (ErrorJSON "question is required"))
        else
          let* r := attempt (RAGService.Query env userID question) in
          match r with
          | inr e => ret (mkReply 500 (ErrorJSON e))
          | inl response => ret (mkReply 200 (AnswerJSON response))
          end
    end.

Definition StreamQuery (env : Env) (c : Ctx) : M Reply :=
  let userID := GetUserID c in
  if String.eqb userID "" then ret (mkReply 401 (ErrorJSON "unauthorized"))
  else ret (mkReply 501 (ErrorJSON "streaming query not implemented yet")).

End QueryHandler.

Module HandlerInputs.
Import Middleware.

(** A parser of tokens for the examples: the token is the user id, and
    only [u1] is known. *)
Definition toy_parse (secret token : string) : option Claims :=
  if String.eqb token "u1" then Some (mkClaims "u1" "u1@example.org")
  else None.

Definition request (authorization : string) : Ctx :=
  mkCtx authorization None None "" None None.

(** A request of the authenticated owner [u1]. *)
Definition request_of_u1 (id : string) (file : option FileHeader)
    (question : option string) : Ctx :=
  mkCtx "Bearer u1" (Some (VString "u1")) (Some (VString "u1@example.org"))
        id file question.

End HandlerInputs.

(** ** The chunker by words: the other [utils.ChunkText] of the repository *)

Module WordChunker.
Import Chunker.

Definition byte (c : ascii) : Z := Z.of_N (N_of_ascii c).

Definition RuneError : Z := 0xFFFD.

Definition in_range (lo hi b : Z) : bool := (lo <=? b) && (b <=? hi).

(** [utf8.DecodeRuneInString]: the rune that starts the string and its
    width in bytes; an invalid or truncated encoding decodes as
    [RuneError] of width 1. *)
Definition DecodeRune (s : list ascii) : Z * nat :=
  match s with
  | [] => (RuneError, 0%nat)
  | c0 :: rest =>
      let b0 := byte c0 in
      if b0 <? 0x80 then (b0, 1%nat)
      else
        let '(sz, lo, hi) :=
          if in_range 0xC2 0xDF b0 then (2, 0x80, 0xBF)
          else if b0 =? 0xE0 then (3, 0xA0, 0xBF)
          else if b0 =? 0xED then (3, 0x80, 0x9F)
          else if in_range 0xE1 0xEF b0 then (3, 0x80, 0xBF)
          else if b0 =? 0xF0 then (4, 0x90, 0xBF)
          else if in_range 0xF1 0xF3 b0 then (4, 0x80, 0xBF)
          else if b0 =? 0xF4 then (4, 0x80, 0x8F)
          else (0, 0, 0) in
        if sz =? 0 then (RuneError, 1%nat)
        else
          match rest with
          | [] => (RuneError, 1%nat)
          | c1 :: rest1 =>
              let b1 := byte c1 in
              if negb (in_range lo hi b1) then (RuneError, 1%nat)
              else if sz =? 2 then
                (Z.lor (Z.shiftl (Z.land b0 0x1F) 6) (Z.land b1 0x3F), 2%nat)
              else
                match rest1 with
                | [] => (RuneError, 1%nat)
                | c2 :: rest2 =>
                    let b2 := byte c2 in
                    if negb (in_range 0x80 0xBF b2) then (RuneError, 1%nat)
                    else if sz =? 3 then
                      (Z.lor (Z.shiftl (Z.land b0 0x0F) 12)
                             (Z.lor (Z.shiftl (Z.land b1 0x3F) 6)
                                    (Z.land b2 0x3F)),
                       3%nat)
                    else
                      match rest2 with
                      | [] => (RuneError, 1%nat)
                      | c3 :: _ =>
                          let b3 := byte c3 in
                          if negb (in_range 0x80 0xBF b3) then
                            (RuneError, 1%nat)
                          else
                            (Z.lor (Z.shiftl (Z.land b0 0x07) 18)
                                   (Z.lor (Z.shiftl (Z.land b1 0x3F) 12)
                                          (Z.lor (Z.shiftl (Z.land b2 0x3F) 6)
                                                 (Z.land b3 0x3F))),
                             4%nat)
                      end
                end
          end
  end.

(** [unicode.IsSpace]: the characters with the property White_Space. *)
Definition IsSpace (r : Z) : bool :=
  in_range 0x09 0x0D r || (r =? 0x20) || (r =? 0x85) || (r =? 0xA0)
  || (r =? 0x1680) || in_range 0x2000 0x200A r || in_range 0x2028 0x2029 r
  || (r =? 0x202F) || (r =? 0x205F) || (r =? 0x3000).

Definition close_field (cur : option text) (spans : list text) : list text :=
  match cur with
  | Some field => spans ++ [field]
  | None => spans
  end.

(** The loop [for end, rune := range s] of [strings.FieldsFunc], byte by
    byte: [skip] counts the bytes still to pass of the rune that was read
    last, [cur] is the field that is open, if one is, and [spans] are the
    fields that are closed. *)
Fixpoint FieldsFunc_loop (f : Z -> bool) (s : list ascii) (skip : nat)
    (cur : option text) (spans : list text) : list text :=
  match s with
  | [] => close_field cur spans
  | c :: rest =>
      match skip with
      | S skip' =>
          FieldsFunc_loop f rest skip'
            (match cur with Some field => Some (field ++ [c]) | None => None end)
            spans
      | O =>
          let (r, width) := DecodeRune s in
          if f r then
            FieldsFunc_loop f rest (width - 1) None (close_field cur spans)
          else
            FieldsFunc_loop f rest (width - 1)
              (Some (default [] cur ++ [c])) spans
      end
  end.

Definition FieldsFunc (s : text) (f : Z -> bool) : list text :=
  FieldsFunc_loop f s 0 None [].

(** [strings.Join(elems, sep)] *)
Fixpoint Join (elems : list text) (sep : text) : text :=
  match elems with
  | [] => []
  | [e] => e
  | e :: rest => e ++ sep ++ Join rest sep
  end.

(** The loop [for i := 0; i < len(words); i += chunkSize - overlap]. *)
Fixpoint window_loop (fuel : nat) (words : list text)
    (chunkSize overlap i : Z) (chunks : list text) : outcome (list text) :=
  match fuel with
  | O => OutOfFuel
  | S fuel' =>
      if i <? Zlen words then
        let end0 := Int64.add i chunkSize in
        let end_ := if end0 >? Zlen words then Zlen words else end0 in
        match slice words i end_ with
        | None => Panicked
        | Some window =>
            let chunks' := chunks ++ [Join window (txt " ")] in
            if end_ =? Zlen words then Returned chunks'
            else
              window_loop fuel' words chunkSize overlap
                          (Int64.add i (Int64.sub chunkSize overlap)) chunks'
        end
      else Returned chunks
  end.

Definition ChunkText_fuel (fuel : nat) (t : text) (chunkSize overlap : Z)
    : outcome (list text) :=
  let words := FieldsFunc t IsSpace in
  if Zlen words =? 0 then Returned []
  else window_loop fuel words chunkSize overlap 0 [].

(** With a positive step the loop runs at most [len(words)] times. *)
Definition ChunkText (t : text) (chunkSize overlap : Z) : outcome (list text) :=
  ChunkText_fuel (S (length (FieldsFunc t IsSpace))) t chunkSize overlap.

(** The windows of [chunkSize] words, each starting [chunkSize - overlap]
    words after the one before, up to the first that reaches the last
    word. *)
Fixpoint windows (fuel : nat) (words : list text) (size step : nat)
    : list (list text) :=
  match fuel with
  | O => []
  | S fuel' =>
      take size words ::
      (if (length words <=? size)%nat then []
       else windows fuel' (drop step words) size step)
  end.

(** The six white-space characters of ASCII. *)
Definition ascii_space (c : ascii) : bool :=
  in_range 0x09 0x0D (byte c) || (byte c =? 0x20).

End WordChunker.

(** * Theorems *)

(** ** Arithmetic without wrap-around *)

Module Int64Facts.
Import Int64.

Lemma wrap_small z : in_range z -> wrap z = z.
Proof.
  unfold in_range, min_int, max_int, wrap. intros H.
  rewrite Z.mod_small; lia.
Qed.

Lemma add_small a b : in_range (a + b) -> add a b = a + b.
Proof. apply wrap_small. Qed.

Lemma sub_small a b : in_range (a - b) -> sub a b = a - b.
Proof. apply wrap_small. Qed.

Lemma div_small a b : in_range (Z.quot a b) -> div a b = Z.quot a b.
Proof. apply wrap_small. Qed.

End Int64Facts.

(** ** Properties of the chunker *)

Module ChunkerFacts.
Import Chunker.

Lemma Zlen_nil {A} : Zlen (@nil A) = 0.
Proof. reflexivity. Qed.

Lemma Zlen_cons {A} (a : A) l : Zlen (a :: l) = Zlen l + 1.
Proof. unfold Zlen. cbn [length]. lia. Qed.

Lemma Zlen_nonneg {A} (l : list A) : 0 <= Zlen l.
Proof. unfold Zlen. lia. Qed.

Lemma Zlen_app {A} (l k : list A) : Zlen (l ++ k) = Zlen l + Zlen k.
Proof. unfold Zlen. rewrite length_app. lia. Qed.

Lemma has_prefix_Zlen sep s : has_prefix sep s = true -> Zlen sep <= Zlen s.
Proof.
  revert s. induction sep as [|a sep IH]; intros [|b s]; simpl; intros H;
    rewrite ?Zlen_nil, ?Zlen_cons; try lia; try discriminate.
  - pose proof (Zlen_nonneg s). lia.
  - destruct (Ascii.eqb a b); [|discriminate]. apply IH in H. lia.
Qed.

Lemma last_index_from_bounds s sep pos best :
  let r := last_index_from s sep pos best in
  r = best \/ (pos <= r /\ r + Zlen sep <= pos + Zlen s).
Proof.
  revert pos best. induction s as [|c s IH]; intros pos best; simpl.
  - destruct sep; simpl; [right; rewrite Zlen_nil; lia | left; reflexivity].
  - destruct (has_prefix sep (c :: s)) eqn:Hp.
    + apply has_prefix_Zlen in Hp.
      destruct (IH (pos + 1) pos) as [-> | [H1 H2]].
      * right. lia.
      * right. rewrite Zlen_cons. lia.
    + destruct (IH (pos + 1) best) as [-> | [H1 H2]].
      * left. reflexivity.
      * right. rewrite Zlen_cons. lia.
Qed.

Lemma LastIndex_bounds s sep :
  LastIndex s sep = -1 \/
  (0 <= LastIndex s sep /\ LastIndex s sep + Zlen sep <= Zlen s).
Proof.
  pose proof (last_index_from_bounds s sep 0 (-1)) as H. simpl in H.
  unfold LastIndex. destruct H as [H | H]; [left | right]; lia.
Qed.

Lemma slice_Some {A} (s : list A) lo hi :
  0 <= lo -> lo <= hi -> hi <= Zlen s ->
  slice s lo hi = Some (take (Z.to_nat (hi - lo)) (drop (Z.to_nat lo) s)).
Proof.
  intros H1 H2 H3. unfold slice.
  destruct (0 <=? lo) eqn:E1; [|lia].
  destruct (lo <=? hi) eqn:E2; [|lia].
  destruct (hi <=? Zlen s) eqn:E3; [|lia].
  reflexivity.
Qed.

Lemma slice_None_neg {A} (s : list A) lo hi : lo < 0 -> slice s lo hi = None.
Proof. intros H. unfold slice. destruct (0 <=? lo) eqn:E; [lia | reflexivity]. Qed.

Lemma slice_Zlen {A} (s w : list A) lo hi :
  slice s lo hi = Some w -> Zlen w = hi - lo.
Proof.
  unfold slice.
  destruct (0 <=? lo) eqn:E1; [|discriminate].
  destruct (lo <=? hi) eqn:E2; [|discriminate].
  destruct (hi <=? Zlen s) eqn:E3; [|discriminate].
  simpl. intros [= <-]. unfold Zlen in *.
  rewrite length_take, length_drop. lia.
Qed.

Lemma slice_from_Some {A} (s : list A) lo :
  0 <= lo -> lo <= Zlen s -> slice_from s lo = Some (drop (Z.to_nat lo) s).
Proof.
  intros H1 H2. unfold slice_from. rewrite slice_Some by lia.
  f_equal. apply take_ge. unfold Zlen. rewrite length_drop. lia.
Qed.

Ltac int64 := unfold Int64.in_range, Int64.min_int, Int64.max_int; lia.

Lemma search_range_bounds L :
  20 <= L -> L < 2 ^ 62 ->
  search_range L = Z.max 20 (L / 5) /\ 20 <= search_range L <= L.
Proof.
  intros H1 H2. unfold search_range.
  assert (Hq : Z.quot L 5 = L / 5) by (apply Z.quot_div_nonneg; lia).
  assert (Hd : 0 <= L / 5 <= L).
  { split; [apply Z.div_pos; lia|]. apply Z.div_le_upper_bound; lia. }
  rewrite Int64Facts.div_small by (rewrite Hq; int64).
  rewrite Hq. destruct (L / 5 <? 20) eqn:E; lia.
Qed.

Section Regime.

(** The parameters for which the window search stays inside the text and
    the start moves forward: the chunk size is at least the floor of the
    search range, and the overlap is no more than what is left of a chunk
    before its search range. *)
Variables (t : text) (L O : Z).
Hypothesis HL : 20 <= L.
Hypothesis HO : 0 <= O <= L - search_range L.
Hypothesis Hlen : Zlen t < 2 ^ 62.

Lemma find_break_regime start seps :
  Forall (fun sep => 1 <= Zlen sep) seps ->
  0 <= start -> start + L < Zlen t ->
  find_break t start L (search_range L) (start + L) seps = Some None \/
  exists bp,
    find_break t start L (search_range L) (start + L) seps = Some (Some bp) /\
    start + L - search_range L + 1 <= bp <= start + L.
Proof.
  intros Hseps Hs He.
  destruct (search_range_bounds L HL) as [_ Hsr]; [lia|].
  induction Hseps as [|sep rest Hsep _ IH]; simpl; [left; reflexivity|].
  rewrite (Int64Facts.add_small start L) by int64.
  rewrite (Int64Facts.sub_small (start + L)) by int64.
  rewrite slice_Some by lia.
  set (window := take _ _).
  assert (Hw : Zlen window = search_range L).
  { unfold window, Zlen in *. rewrite length_take, length_drop. lia. }
  destruct (LastIndex_bounds window sep) as [Hi | [Hi1 Hi2]].
  - rewrite Hi. simpl. exact IH.
  - destruct (LastIndex window sep =? -1) eqn:E; [lia|].
    right. eexists. split; [reflexivity|].
    rewrite !Int64Facts.add_small by (rewrite ?Int64Facts.add_small by int64; int64).
    lia.
Qed.

Lemma separators_nonempty : Forall (fun sep => 1 <= Zlen sep) separators.
Proof. repeat constructor; vm_compute; discriminate. Qed.

Lemma chunk_step_last start :
  L < Zlen t -> 0 <= start < Zlen t -> Zlen t <= start + L ->
  chunk_step t L O start = Break (drop (Z.to_nat start) t).
Proof.
  intros HLt Hs He. unfold chunk_step.
  rewrite Int64Facts.add_small by int64.
  destruct (start + L >=? Zlen t) eqn:E; [|lia].
  rewrite slice_from_Some by lia. reflexivity.
Qed.

Lemma chunk_step_next start :
  0 <= start -> start + L < Zlen t ->
  exists bp,
    start + O + 1 <= bp <= start + L /\
    chunk_step t L O start =
      Continue (take (Z.to_nat (bp - start)) (drop (Z.to_nat start) t)) (bp - O).
Proof.
  intros Hs He.
  destruct (search_range_bounds L HL) as [_ Hsr]; [lia|].
  unfold chunk_step.
  rewrite Int64Facts.add_small by int64.
  destruct (start + L >=? Zlen t) eqn:E; [lia|].
  assert (Hstep : forall bp,
             start + O + 1 <= bp <= start + L ->
             match slice t start bp with
             | Some c =>
                 let start1 := Int64.sub bp O in
                 let start2 := if start1 <? 0 then 0 else start1 in
                 let start3 := if start2 >=? bp then bp else start2 in
                 Continue c start3
             | None => StepPanic
             end =
             Continue (take (Z.to_nat (bp - start)) (drop (Z.to_nat start) t))
                      (bp - O)).
  { intros bp Hbp. rewrite slice_Some by lia. cbv zeta.
    rewrite Int64Facts.sub_small by int64.
    destruct (bp - O <? 0) eqn:E1; [lia|].
    destruct (bp - O >=? bp) eqn:E2; [|reflexivity].
    f_equal. lia. }
  destruct (find_break_regime start separators separators_nonempty Hs He)
    as [-> | (bp & -> & Hbp)].
  - exists (start + L). split; [lia|]. apply Hstep. lia.
  - exists bp. split; [lia|]. apply Hstep. lia.
Qed.

(** Away from the end of the text the start moves forward, by at least one
    byte and at most a chunk. *)
Lemma chunk_step_advances start c start' :
  0 <= start -> start + L < Zlen t ->
  chunk_step t L O start = Continue c start' ->
  start < start' <= start + L.
Proof.
  intros Hs He Hstep.
  destruct (chunk_step_next start Hs He) as (bp & Hbp & Heq).
  rewrite Heq in Hstep. injection Hstep as _ <-. lia.
Qed.

Lemma reconstruct_snoc chunks c :
  reconstruct O (chunks ++ [c]) =
  reconstruct O chunks
    ++ drop (Z.to_nat (Z.min O (Zlen (reconstruct O chunks)))) c.
Proof. unfold reconstruct. rewrite foldl_app. reflexivity. Qed.

Lemma Zlen_take_le (b : Z) :
  0 <= b <= Zlen t -> Zlen (take (Z.to_nat b) t) = b.
Proof. intros H. unfold Zlen in *. rewrite length_take. lia. Qed.

Lemma chunk_loop_regime fuel :
  forall start chunks b,
    L < Zlen t ->
    0 <= start < Zlen t ->
    (Z.to_nat (Zlen t - start) <= fuel)%nat ->
    0 <= b <= Zlen t ->
    start = b - Z.min O b ->
    reconstruct O chunks = take (Z.to_nat b) t ->
    exists chunks',
      chunk_loop fuel t L O start chunks = Returned chunks' /\
      chunks' <> [] /\
      reconstruct O chunks' = t.
Proof.
  induction fuel as [|fuel IH]; intros start chunks b HLt Hs Hf Hb Hsb Hrec.
  { lia. }
  simpl. destruct (start <? Zlen t) eqn:E; [|lia].
  destruct (Z_lt_ge_dec (start + L) (Zlen t)) as [Hlt | Hge].
  - destruct (chunk_step_next start) as (bp & Hbp & ->); [lia | lia |].
    apply (IH (bp - O) _ bp); try lia.
    rewrite reconstruct_snoc, Hrec, Zlen_take_le by lia.
    replace (Z.to_nat (Z.min O b)) with (Z.to_nat b - Z.to_nat start)%nat by lia.
    replace (Z.to_nat (bp - start)) with (Z.to_nat bp - Z.to_nat start)%nat by lia.
    transitivity (take (Z.to_nat b) t
                    ++ take (Z.to_nat bp - Z.to_nat b) (drop (Z.to_nat b) t)).
    + f_equal.
      replace (drop (Z.to_nat b) t)
        with (drop (Z.to_nat b - Z.to_nat start) (drop (Z.to_nat start) t))
        by (rewrite drop_drop; f_equal; lia).
      rewrite (take_drop_commute (drop (Z.to_nat start) t)
                 (Z.to_nat bp - Z.to_nat b) (Z.to_nat b - Z.to_nat start)).
      do 2 f_equal. lia.
    + rewrite take_take_drop. f_equal. lia.
  - rewrite chunk_step_last by lia.
    eexists. split; [reflexivity|]. split.
    { intros Habs. apply app_eq_nil in Habs. destruct Habs; discriminate. }
    rewrite reconstruct_snoc, Hrec, Zlen_take_le by lia.
    rewrite drop_drop.
    replace (Z.to_nat start + Z.to_nat (Z.min O b))%nat with (Z.to_nat b) by lia.
    apply take_drop.
Qed.

(** In this range of parameters the chunker returns, and its chunks give
    the text back once the overlaps are removed. *)
Lemma ChunkText_reconstructs :
  exists chunks,
    ChunkText t L O = Returned chunks /\ reconstruct O chunks = t.
Proof.
  unfold ChunkText, ChunkText_fuel.
  destruct (Zlen t =? 0) eqn:E0.
  { exists []. split; [reflexivity|].
    destruct t as [|c t']; [reflexivity|]. rewrite Zlen_cons in E0.
    pose proof (Zlen_nonneg t'). lia. }
  destruct (Zlen t <=? L) eqn:E1.
  { exists [t]. split; [reflexivity|]. unfold reconstruct. simpl.
    replace (Z.min O (Zlen (@nil ascii))) with 0
      by (change (Zlen (@nil ascii)) with 0; lia).
    reflexivity. }
  destruct (chunk_loop_regime (S (length t)) 0 [] 0) as (chunks & H1 & _ & H2);
    try (unfold Zlen in *; lia); [reflexivity|].
  exists chunks. split; assumption.
Qed.

End Regime.

(** The parameters of the one call site, [ChunkText(text, 500, 50)]. *)
Lemma ChunkText_500_50 (t : text) :
  Zlen t < 2 ^ 62 ->
  exists chunks,
    ChunkText t 500 50 = Returned chunks /\ reconstruct 50 chunks = t.
Proof.
  intros H. apply ChunkText_reconstructs; [lia | | exact H].
  vm_compute. split; discriminate.
Qed.

(** *** The model on known values *)

(** The values the Go documentation gives for [strings.LastIndex]. *)
Example LastIndex_go_gopher :
  LastIndex (txt "go gopher") (txt "go") = 3 /\
  LastIndex (txt "go gopher") (txt "rodent") = -1.
Proof. split; reflexivity. Qed.

(** A text of 1200 bytes without separator, cut with chunk size 500 and
    overlap 50: three chunks, that start at 0, 450 and 900. *)
Example ChunkText_1200 :
  ChunkText (replicate 1200 "a"%char) 500 50
  = Returned [replicate 500 "a"%char; replicate 500 "a"%char;
              replicate 300 "a"%char].
Proof. vm_compute. reflexivity. Qed.

(** A break at the end of a sentence: the separator stays in the chunk it
    ends, and the next chunk starts [overlap] bytes before the break. *)
Example ChunkText_sentences :
  ChunkText (txt "hello world. this is a test of the chunker") 30 5
  = Returned [txt "hello world. ";
              txt "rld. this is a test of the ";
              txt " the chunker"].
Proof. vm_compute. reflexivity. Qed.

(** *** Short texts *)

(** C6, as amended: for every non-empty text whose length is at most the
    chunk size, the chunker returns exactly the one-element list that holds
    the text itself, whatever the overlap.  For the empty text it returns
    the empty list, whatever the chunk size and the overlap. *)
Theorem ChunkText_short (t : text) (chunkSize overlap : Z) :
  (t <> [] -> Zlen t <= chunkSize ->
   ChunkText t chunkSize overlap = Returned [t]) /\
  ChunkText [] chunkSize overlap = Returned [].
Proof.
  split; [|reflexivity].
  intros Hne Hle. unfold ChunkText, ChunkText_fuel.
  assert (Hpos : 0 < Zlen t).
  { destruct t as [|c t]; [congruence|]. rewrite Zlen_cons.
    pose proof (Zlen_nonneg t). lia. }
  destruct (Zlen t =? 0) eqn:E0; [lia|].
  destruct (Zlen t <=? chunkSize) eqn:E1; [reflexivity | lia].
Qed.

Lemma ChunkText_short_witness :
  ChunkText (txt "hello") 500 50 = Returned [txt "hello"] /\
  ChunkText [] 3 7 = Returned [].
Proof.
  split.
  - destruct (ChunkText_short (txt "hello") 500 50) as [H _].
    apply H; [discriminate | unfold Zlen; simpl; lia].
  - destruct (ChunkText_short [] 3 7) as [_ H]. exact H.
Defined.

(** C6, as stated, fails on the empty text: its length is at most the
    chunk size, and the chunker returns no chunk at all rather than the
    list that holds the empty text. *)
Lemma ChunkText_empty_is_no_chunk :
  Zlen (@nil ascii) <= 500 /\
  ChunkText [] 500 50 = Returned [] /\
  ChunkText [] 500 50 <> Returned [[]].
Proof.
  split; [unfold Zlen; simpl; lia|].
  split; [reflexivity | discriminate].
Qed.

(** *** Overlaps that stop the loop from advancing *)

Lemma chunk_loop_fixed_start (t : text) (L O : Z) (c : text) :
  0 < Zlen t ->
  chunk_step t L O 0 = Continue c 0 ->
  forall fuel chunks, chunk_loop fuel t L O 0 chunks = OutOfFuel.
Proof.
  intros Hpos Hstep. induction fuel as [|fuel IH]; intros chunks; simpl.
  - reflexivity.
  - destruct (0 <? Zlen t) eqn:E; [|lia]. rewrite Hstep. apply IH.
Qed.

(** C3, on an input where the code fails it: a 21-byte text, chunk size 20
    and overlap 1.  The window holds a space at its first byte, the break
    point is 1, and the next start is [1 - 1 = 0], the start of the
    iteration just done: the start makes no progress, and the loop is still
    running after any number of iterations. *)
Theorem chunk_start_does_not_advance :
  Zlen Inputs.stuck_text = 21 /\
  chunk_step Inputs.stuck_text 20 1 0 = Continue (txt " ") 0 /\
  forall fuel, ChunkText_fuel fuel Inputs.stuck_text 20 1 = OutOfFuel.
Proof.
  split; [reflexivity|]. split; [reflexivity|].
  intros fuel. unfold ChunkText_fuel.
  change (Zlen Inputs.stuck_text =? 0) with false.
  change (Zlen Inputs.stuck_text <=? 20) with false. cbv iota.
  apply (chunk_loop_fixed_start _ _ _ (txt " ")); reflexivity.
Qed.

(** C7, on an input where the code fails it: a 111-byte text with a line
    feed at byte 80, chunk size 100 and overlap 90.  The first chunk ends
    after the line feed, at 81, and [81 - 90] is clamped to 0: the same
    chunk is cut again and again, and no chunk list is ever returned, so
    there is nothing that reconstructs the text. *)
Theorem ChunkText_returns_no_chunk_list :
  Zlen Inputs.wide_overlap_text = 111 /\
  chunk_step Inputs.wide_overlap_text 100 90 0
    = Continue (replicate 80 "a"%char ++ [LF]) 0 /\
  forall fuel chunks,
    ChunkText_fuel fuel Inputs.wide_overlap_text 100 90 <> Returned chunks.
Proof.
  split; [reflexivity|]. split; [vm_compute; reflexivity|].
  intros fuel chunks. unfold ChunkText_fuel.
  change (Zlen Inputs.wide_overlap_text =? 0) with false.
  change (Zlen Inputs.wide_overlap_text <=? 100) with false. cbv iota.
  rewrite (chunk_loop_fixed_start _ _ _ (replicate 80 "a"%char ++ [LF]));
    [discriminate | reflexivity | vm_compute; reflexivity].
Qed.

(** A chunk size under the floor of the search range makes the first
    window start before the text: the slice expression panics. *)
Lemma ChunkText_small_chunk_size_panics :
  ChunkText (txt "aaaaaaaaaaa") 10 0 = Panicked.
Proof. vm_compute. reflexivity. Qed.

(** The loop emits one chunk per iteration. *)
Lemma chunk_loop_length fuel :
  forall t L O start chunks chunks',
    chunk_loop fuel t L O start chunks = Returned chunks' ->
    (length chunks' <= length chunks + fuel)%nat.
Proof.
  induction fuel as [|fuel IH]; intros t L O start chunks chunks'; simpl;
    [discriminate|].
  destruct (start <? Zlen t); [|intros [= <-]; lia].
  destruct (chunk_step t L O start) as [c | c start' |]; [| |discriminate].
  - intros [= <-]. rewrite length_app. simpl. lia.
  - intros H. apply IH in H. rewrite length_app in H. simpl in H. lia.
Qed.

Lemma ChunkText_length t L O chunks :
  ChunkText t L O = Returned chunks -> Zlen chunks <= Zlen t + 1.
Proof.
  unfold ChunkText, ChunkText_fuel.
  destruct (Zlen t =? 0); [intros [= <-]; unfold Zlen; simpl; lia|].
  destruct (Zlen t <=? L); [intros [= <-]; unfold Zlen; simpl; lia|].
  intros H. apply chunk_loop_length in H. unfold Zlen. simpl in H. lia.
Qed.

End ChunkerFacts.

(** ** Invariants through the monad *)

Module MonadFacts.

Section Invariant.

Context {A B : Type} (I : World -> Prop).

Lemma keeps_ret (a : A) : keeps I (ret a).
Proof. intros w H. exact H. Qed.

Lemma keeps_fail (e : string) : keeps I (@fail A e).
Proof. intros w H. exact H. Qed.

Lemma keeps_panic : keeps I (@panic A).
Proof. intros w H. exact H. Qed.

Lemma keeps_diverge : keeps I (@diverge A).
Proof. intros w H. exact H. Qed.

Lemma keeps_lift (r : Res A) : keeps I (lift r).
Proof. intros w H. exact H. Qed.

Lemma keeps_get (f : World -> A) : keeps I (get f).
Proof. intros w H. exact H. Qed.

Lemma keeps_bind (m : M A) (k : A -> M B) :
  keeps I m -> (forall a, keeps I (k a)) -> keeps I (bind m k).
Proof.
  intros Hm Hk w Hw. unfold bind. specialize (Hm w Hw).
  destruct (m w) as [[a|e| |] w1]; simpl in *; auto. apply Hk, Hm.
Qed.

(** What follows a computation that never ends in a value is not run. *)
Lemma keeps_bind_stop (m : M A) (k : A -> M B) :
  keeps I m -> never_ok I m -> keeps I (bind m k).
Proof.
  intros Hm Hn w Hw. unfold bind. specialize (Hm w Hw). specialize (Hn w Hw).
  destruct (m w) as [[a|e| |] w1]; simpl in *; auto.
  exfalso. apply (Hn a). reflexivity.
Qed.

Lemma keeps_wrap_err (prefix : string) (m : M A) :
  keeps I m -> keeps I (wrap_err prefix m).
Proof.
  intros Hm w Hw. unfold wrap_err. specialize (Hm w Hw).
  destruct (m w) as [[a|e| |] w1]; simpl in *; auto.
Qed.

Lemma keeps_modify (f : World -> World) :
  (forall w, I w -> I (f w)) -> keeps I (modify f).
Proof. intros Hf w Hw. simpl. auto. Qed.

Lemma keeps_io (env : Env) (ev : Event) :
  (forall w, I w -> I (log_event ev w)) -> keeps I (io env ev).
Proof.
  intros Hl w Hw. unfold io. destruct (io_error env _); simpl; auto.
Qed.

Lemma never_ok_fail (e : string) : never_ok I (@fail A e).
Proof. intros w _ a. discriminate. Qed.

Lemma never_ok_bind_l (m : M A) (k : A -> M B) :
  never_ok I m -> never_ok I (bind m k).
Proof.
  intros Hn w Hw b. unfold bind. specialize (Hn w Hw).
  destruct (m w) as [[a|e| |] w1]; simpl in *; try discriminate.
  exfalso. apply (Hn a). reflexivity.
Qed.

Lemma never_ok_bind_r (m : M A) (k : A -> M B) :
  keeps I m -> (forall a, never_ok I (k a)) -> never_ok I (bind m k).
Proof.
  intros Hm Hk w Hw b. unfold bind. specialize (Hm w Hw).
  destruct (m w) as [[a|e| |] w1]; simpl in *; try discriminate.
  apply Hk, Hm.
Qed.

Lemma never_ok_wrap_err (prefix : string) (m : M A) :
  never_ok I m -> never_ok I (wrap_err prefix m).
Proof.
  intros Hn w Hw a. unfold wrap_err. specialize (Hn w Hw).
  destruct (m w) as [[a'|e| |] w1]; simpl in *; try discriminate.
  exfalso. apply (Hn a'). reflexivity.
Qed.

Lemma never_ok_panic : never_ok I (@panic A).
Proof. intros w _ a. discriminate. Qed.

Lemma never_ok_diverge : never_ok I (@diverge A).
Proof. intros w _ a. discriminate. Qed.

Lemma stops_fail (e : string) : stops I (@fail A e).
Proof. split; [apply keeps_fail | apply never_ok_fail]. Qed.

Lemma stops_panic : stops I (@panic A).
Proof. split; [apply keeps_panic | apply never_ok_panic]. Qed.

Lemma stops_diverge : stops I (@diverge A).
Proof. split; [apply keeps_diverge | apply never_ok_diverge]. Qed.

Lemma stops_wrap_err (prefix : string) (m : M A) :
  stops I m -> stops I (wrap_err prefix m).
Proof.
  intros [H1 H2]. split; [apply keeps_wrap_err | apply never_ok_wrap_err]; auto.
Qed.

Lemma stops_bind_l (m : M A) (k : A -> M B) : stops I m -> stops I (bind m k).
Proof.
  intros [H1 H2]. split; [apply keeps_bind_stop | apply never_ok_bind_l]; auto.
Qed.

Lemma stops_bind_r (m : M A) (k : A -> M B) :
  keeps I m -> (forall a, stops I (k a)) -> stops I (bind m k).
Proof.
  intros H1 H2. split; [apply keeps_bind | apply never_ok_bind_r]; auto;
    intros a; apply H2.
Qed.

End Invariant.

Lemma bind_ok {A B} (m : M A) (k : A -> M B) w a w1 :
  m w = (Ok a, w1) -> bind m k w = k a w1.
Proof. intros H. unfold bind. rewrite H. reflexivity. Qed.

Lemma bind_err {A B} (m : M A) (k : A -> M B) w e w1 :
  m w = (Err e, w1) -> bind m k w = (Err e, w1).
Proof. intros H. unfold bind. rewrite H. reflexivity. Qed.

Lemma wrap_err_ok {A} prefix (m : M A) w a w1 :
  m w = (Ok a, w1) -> wrap_err prefix m w = (Ok a, w1).
Proof. intros H. unfold wrap_err. rewrite H. reflexivity. Qed.

Lemma wrap_err_err {A} prefix (m : M A) w e w1 :
  m w = (Err e, w1) -> wrap_err prefix m w = (Err (prefix +:+ ": " +:+ e), w1).
Proof. intros H. unfold wrap_err. rewrite H. reflexivity. Qed.

Lemma io_ok env ev w :
  io_error env (length (trace w)) = None ->
  io env ev w = (Ok (length (trace w)), log_event ev w).
Proof. intros H. unfold io. rewrite H. reflexivity. Qed.

End MonadFacts.

(** ** Properties of the embedding client *)

Module EmbeddingFacts.
Import EmbeddingService ChunkerFacts.

Lemma length_foldl_put data acc : length (foldl put acc data) = length acc.
Proof.
  revert acc. induction data as [|d data IH]; intros acc; simpl; [reflexivity|].
  rewrite IH. unfold put. apply length_insert.
Qed.

Lemma extract_in_range data acc :
  Forall (fun d => 0 <= Index d < Zlen acc) data ->
  extract data acc = Ok (foldl put acc data).
Proof.
  revert acc. induction data as [|d data IH]; intros acc H; simpl; [reflexivity|].
  inversion H as [|? ? Hd Hrest]; subst.
  destruct (Index d >=? Zlen acc) eqn:E1; [lia|].
  destruct (Index d <? 0) eqn:E2; [lia|].
  apply IH. eapply Forall_impl; [exact Hrest|]. simpl. intros x Hx.
  unfold put, Zlen in *. rewrite length_insert. exact Hx.
Qed.

Lemma lookup_foldl_put_other data acc (i : nat) :
  Forall (fun d => 0 <= Index d) data ->
  Z.of_nat i ∉ map Index data ->
  foldl put acc data !! i = acc !! i.
Proof.
  revert acc. induction data as [|d data IH]; intros acc Hpos Hi; simpl;
    [reflexivity|].
  inversion Hpos as [|? ? Hd Hrest]; subst.
  simpl in Hi. apply not_elem_of_cons in Hi as [Hne Hi].
  rewrite IH by assumption. unfold put.
  apply list_lookup_insert_ne. lia.
Qed.

Lemma lookup_foldl_put data acc d :
  Forall (fun d => 0 <= Index d < Zlen acc) data ->
  NoDup (map Index data) ->
  d ∈ data ->
  foldl put acc data !! Z.to_nat (Index d) = Some (Embedding d).
Proof.
  revert acc. induction data as [|d0 data IH]; intros acc Hr Hnd Hin.
  { inversion Hin. }
  inversion Hr as [|? ? Hd Hrest]; subst.
  simpl in Hnd. apply NoDup_cons in Hnd as [Hfresh Hnd].
  simpl. apply elem_of_cons in Hin as [-> | Hin].
  - rewrite lookup_foldl_put_other.
    + unfold put. apply list_lookup_insert_eq. unfold Zlen in *. lia.
    + eapply Forall_impl; [exact Hrest|]. simpl. intros; lia.
    + rewrite Z2Nat.id by lia. exact Hfresh.
  - apply IH; [|assumption|assumption].
    eapply Forall_impl; [exact Hrest|]. simpl. intros x Hx.
    unfold put, Zlen in *. rewrite length_insert. exact Hx.
Qed.

Lemma elem_of_indexed vs (i : nat) v :
  vs !! i = Some v -> mkEmbeddingData v (Z.of_nat i) ∈ indexed vs.
Proof.
  intros H. unfold indexed. apply elem_of_lookup_imap. exists i, v. auto.
Qed.

Lemma indexed_inv vs d :
  d ∈ indexed vs ->
  exists i : nat, Index d = Z.of_nat i /\ vs !! i = Some (Embedding d).
Proof.
  unfold indexed. intros H. apply elem_of_lookup_imap in H as (i & v & -> & Hv).
  exists i. split; [reflexivity | exact Hv].
Qed.

Lemma map_Index_indexed vs :
  map Index (indexed vs) = map Z.of_nat (seq 0 (length vs)).
Proof.
  unfold indexed. apply list_eq. intros i.
  rewrite !list_lookup_fmap, list_lookup_imap.
  destruct (vs !! i) as [v|] eqn:E; simpl.
  - rewrite lookup_seq_lt by (eapply lookup_lt_Some; eauto). reflexivity.
  - rewrite lookup_seq_ge by (apply lookup_ge_None; auto). reflexivity.
Qed.

(** Entries that arrive in any order are put back in input order. *)
Lemma extract_permutation data vs :
  data ≡ₚ indexed vs ->
  extract data (replicate (length data) []) = Ok vs.
Proof.
  intros Hp.
  assert (Hlen : length data = length vs).
  { rewrite Hp. unfold indexed. apply length_imap. }
  assert (Hr : Forall (fun d => 0 <= Index d < Zlen (replicate (length data) ([] : vector))) data).
  { apply Forall_forall. intros d Hd. rewrite Hp in Hd.
    apply indexed_inv in Hd as (i & -> & Hv).
    apply lookup_lt_Some in Hv. unfold Zlen. rewrite length_replicate. lia. }
  assert (Hnd : NoDup (map Index data)).
  { rewrite Hp, map_Index_indexed.
    apply NoDup_fmap_2; [intros ? ? ?; lia | apply NoDup_seq]. }
  rewrite extract_in_range by exact Hr. f_equal.
  apply list_eq. intros i.
  destruct (vs !! i) as [v|] eqn:E.
  - assert (Hin : mkEmbeddingData v (Z.of_nat i) ∈ data)
      by (rewrite Hp; apply elem_of_indexed; exact E).
    pose proof (lookup_foldl_put data _ _ Hr Hnd Hin) as H.
    simpl in H. rewrite Nat2Z.id in H. exact H.
  - apply lookup_ge_None. rewrite length_foldl_put, length_replicate, Hlen.
    apply lookup_ge_None. exact E.
Qed.

Lemma generateBatch_successful env embed batch w :
  successful_reply embed batch (embeddings_api env (length (trace w)) batch) ->
  generateBatch env batch w
  = (Ok (map embed batch), log_event (EvHttpEmbeddings batch) w).
Proof.
  intros (raw & data & Hr & Hp).
  unfold generateBatch, attempt_numbers, bind. simpl.
  unfold bind, do_request. rewrite Hr. simpl.
  unfold lift. rewrite (extract_permutation _ _ Hp). reflexivity.
Qed.

Section SuccessfulAPI.

Variables (env : Env) (embed : text -> vector) (texts : list text).
Hypothesis Hlen : Zlen texts < 2 ^ 62.
Hypothesis Hapi :
  forall k batch, successful_reply embed batch (embeddings_api env k batch).

Lemma batch_loop_successful fuel :
  forall i allEmbeddings w,
    0 <= i ->
    (Z.to_nat (Zlen texts - i) < fuel)%nat ->
    exists evs,
      batch_loop env fuel texts i allEmbeddings w
      = (Ok (allEmbeddings ++ map embed (drop (Z.to_nat i) texts)),
         log_events evs w) /\
      Forall is_embeddings_request evs /\
      (i < Zlen texts -> evs <> []).
Proof.
  induction fuel as [|fuel IH]; intros i acc w Hi Hf; [lia|].
  simpl. destruct (i <? Zlen texts) eqn:E.
  - rewrite Int64Facts.add_small by (unfold batchSize; int64).
    set (end_ := if i + batchSize >? Zlen texts then Zlen texts else i + batchSize).
    assert (Hend : end_ = Z.min (i + 100) (Zlen texts) /\ i < Zlen texts).
    { unfold end_, batchSize. destruct (i + 100 >? Zlen texts) eqn:E2; lia. }
    clearbody end_.
    rewrite slice_Some by lia.
    unfold bind, wrap_err.
    rewrite (generateBatch_successful env embed) by apply Hapi.
    set (batch := take (Z.to_nat (end_ - i)) (drop (Z.to_nat i) texts)).
    destruct (IH (i + batchSize) (acc ++ map embed batch)
                 (log_event (EvHttpEmbeddings batch) w))
      as (evs & -> & Hevs & _); [unfold batchSize; lia | unfold batchSize; lia |].
    exists (EvHttpEmbeddings batch :: evs). split; [|split].
    + f_equal.
      * f_equal. rewrite <- app_assoc. f_equal. rewrite <- map_app. f_equal.
        rewrite <- (take_drop (Z.to_nat (end_ - i)) (drop (Z.to_nat i) texts)).
        fold batch. f_equal. rewrite drop_drop.
        unfold batchSize.
        destruct (Z_le_gt_dec (i + 100) (Zlen texts)) as [Hle | Hgt].
        -- f_equal. lia.
        -- rewrite !drop_ge;
             [reflexivity | unfold Zlen in *; lia | unfold Zlen in *; lia].
      * unfold log_events, log_event. simpl. rewrite <- app_assoc. reflexivity.
    + constructor; [exact I | exact Hevs].
    + discriminate.
  - exists []. split; [|split; [constructor | lia]].
    rewrite drop_ge by (unfold Zlen in *; lia).
    simpl. rewrite app_nil_r. unfold log_events. rewrite app_nil_r.
    destruct w; reflexivity.
Qed.

Lemma GenerateEmbeddings_successful w :
  texts <> [] ->
  exists evs,
    GenerateEmbeddings env texts w = (Ok (map embed texts), log_events evs w) /\
    Forall is_embeddings_request evs /\ evs <> [].
Proof.
  intros Hne. unfold GenerateEmbeddings.
  assert (Hpos : 0 < Zlen texts).
  { destruct texts as [|t0 rest]; [congruence|]. rewrite Zlen_cons.
    pose proof (Zlen_nonneg rest). lia. }
  destruct (Zlen texts =? 0) eqn:E; [lia|].
  destruct (batch_loop_successful (S (length texts)) 0 [] w)
    as (evs & H & Hevs & Hne'); [lia | unfold Zlen; lia |].
  exists evs. split; [exact H|]. split; [exact Hevs | apply Hne'; lia].
Qed.

End SuccessfulAPI.

(** C4: for every non-empty list of texts, whatever its length (a Go slice
    has fewer than [2^62] elements), when every request is answered with
    status 200 and the entries of its batch in any order,
    [GenerateEmbeddings] returns exactly one vector per text, in input
    order: the vector whose declared index is the position of the text in
    its batch. *)
Theorem GenerateEmbeddings_in_input_order
    (env : Env) (embed : text -> vector) (texts : list text) (w : World) :
  texts <> [] ->
  Zlen texts < 2 ^ 62 ->
  (forall k batch, successful_reply embed batch (embeddings_api env k batch)) ->
  exists w',
    GenerateEmbeddings env texts w = (Ok (map embed texts), w') /\
    length (map embed texts) = length texts.
Proof.
  intros Hne Hlen Hapi.
  destruct (GenerateEmbeddings_successful env embed texts Hlen Hapi w Hne)
    as (evs & H & _).
  exists (log_events evs w). split; [exact H | apply length_map].
Qed.

Lemma reversing_api_successful k batch :
  successful_reply Inputs.toy_embed batch (Inputs.reversing_api k batch).
Proof.
  eexists _, _. split; [reflexivity|]. symmetry. apply Permutation_rev.
Qed.

Lemma GenerateEmbeddings_in_input_order_witness :
  exists w',
    GenerateEmbeddings (Inputs.env_with Inputs.reversing_api)
                       (replicate 100 (txt "a") ++ [txt "bc"; txt "def"])
                       Inputs.empty_world
    = (Ok (replicate 100 [1] ++ [[2]; [3]]), w') /\
    length (replicate 100 ([1] : vector) ++ [[2]; [3]]) = 102%nat.
Proof.
  apply (GenerateEmbeddings_in_input_order
           (Inputs.env_with Inputs.reversing_api) Inputs.toy_embed
           (replicate 100 (txt "a") ++ [txt "bc"; txt "def"])).
  - discriminate.
  - vm_compute. reflexivity.
  - apply reversing_api_successful.
Defined.

(** *** The client touches nothing but the log *)

Section OnlyTheLog.
Import MonadFacts.

Variables (I : World -> Prop) (env : Env).
Hypothesis I_log : forall ev w, I w -> I (log_event ev w).

Lemma keeps_do_request texts : keeps I (do_request env texts).
Proof. intros w Hw. simpl. apply I_log, Hw. Qed.

Lemma keeps_sleep attempt : keeps I (sleep attempt).
Proof. apply keeps_modify. intros w. apply I_log. Qed.

Lemma keeps_retry_loop texts attempts :
  forall resp, keeps I (retry_loop env texts attempts resp).
Proof.
  induction attempts as [|attempt rest IH]; intros resp; simpl.
  - apply keeps_ret.
  - apply keeps_bind; [apply keeps_do_request|].
    intros [e | status raw decoded]; [apply keeps_fail|].
    destruct (status =? 200); [apply keeps_ret|].
    destruct (status =? 429); [|apply keeps_fail].
    apply keeps_bind; [apply keeps_sleep | intros _; apply IH].
Qed.

Lemma keeps_generateBatch texts : keeps I (generateBatch env texts).
Proof.
  unfold generateBatch. apply keeps_bind; [apply keeps_retry_loop|].
  intros [[[status raw] [data|]]|];
    [apply keeps_lift | apply keeps_fail | apply keeps_fail].
Qed.

Lemma keeps_batch_loop fuel texts :
  forall i allEmbeddings, keeps I (batch_loop env fuel texts i allEmbeddings).
Proof.
  induction fuel as [|fuel IH]; intros i acc; simpl; [apply keeps_diverge|].
  destruct (i <? Zlen texts); [|apply keeps_ret].
  destruct (slice texts i _); [|apply keeps_panic].
  apply keeps_bind; [apply keeps_wrap_err, keeps_generateBatch|].
  intros embeddings. apply IH.
Qed.

Lemma keeps_GenerateEmbeddings texts : keeps I (GenerateEmbeddings env texts).
Proof.
  unfold GenerateEmbeddings.
  destruct (Zlen texts =? 0); [apply keeps_fail | apply keeps_batch_loop].
Qed.

Lemma keeps_GenerateEmbedding t : keeps I (GenerateEmbedding env t).
Proof.
  unfold GenerateEmbedding. apply keeps_bind; [apply keeps_GenerateEmbeddings|].
  intros [|e ?]; [apply keeps_fail | apply keeps_ret].
Qed.

End OnlyTheLog.

(** *** Failures that are reported *)

Lemma GenerateEmbeddings_empty env w :
  GenerateEmbeddings env [] w = (Err "no texts provided", w).
Proof. reflexivity. Qed.

(** A transport failure ends the batch at once: one request, no wait. *)
Lemma generateBatch_transport_failure env texts w e :
  embeddings_api env (length (trace w)) texts = TransportError e ->
  generateBatch env texts w
  = (Err ("request failed: " +:+ e), log_event (EvHttpEmbeddings texts) w).
Proof.
  intros H. unfold generateBatch, attempt_numbers, bind. simpl.
  unfold bind, do_request. rewrite H. reflexivity.
Qed.

(** So does a status that is neither 200 nor 429. *)
Lemma generateBatch_other_status env texts w status raw decoded :
  embeddings_api env (length (trace w)) texts = Response status raw decoded ->
  status <> 200 -> status <> 429 ->
  generateBatch env texts w
  = (Err ("API error (status " +:+ show_int status +:+ "): " +:+ raw),
     log_event (EvHttpEmbeddings texts) w).
Proof.
  intros H H200 H429. unfold generateBatch, attempt_numbers, bind. simpl.
  unfold bind, do_request. rewrite H.
  destruct (status =? 200) eqn:E1; [lia|].
  destruct (status =? 429) eqn:E2; [lia|]. reflexivity.
Qed.

(** An index at or above the number of entries is reported. *)
Lemma extract_index_too_large d data embeddings :
  Zlen embeddings <= Index d ->
  extract (d :: data) embeddings
  = Err ("invalid embedding index: " +:+ show_int (Index d)).
Proof.
  intros H. simpl. destruct (Index d >=? Zlen embeddings) eqn:E; [reflexivity | lia].
Qed.

(** *** Failures that are not *)

(** A 429 reply is followed by a wait of [2^attempt] seconds and by the
    next attempt, with the reply kept in [resp]. *)
Lemma retry_loop_rate_limited env texts attempt rest resp w raw decoded :
  embeddings_api env (length (trace w)) texts = Response 429 raw decoded ->
  retry_loop env texts (attempt :: rest) resp w
  = retry_loop env texts rest (Some (429, raw, decoded))
      (log_event (EvSleep (Z.shiftl 1 attempt))
                 (log_event (EvHttpEmbeddings texts) w)).
Proof.
  intros H. simpl. unfold bind at 1. unfold do_request. rewrite H. simpl.
  reflexivity.
Qed.

(** Three 429 replies in a row end the retry loop with the last of them in
    [resp]; when its body decodes to a response without entries, the batch
    comes back empty and without error. *)
Lemma generateBatch_rate_limited env texts w raw :
  (forall k, embeddings_api env k texts = Response 429 raw (Some [])) ->
  generateBatch env texts w
  = (Ok [],
     log_events
       [EvHttpEmbeddings texts; EvSleep 1; EvHttpEmbeddings texts; EvSleep 2;
        EvHttpEmbeddings texts; EvSleep 4] w).
Proof.
  intros H. unfold generateBatch, attempt_numbers.
  change (seqZ 0 maxRetries) with [0; 1; 2].
  erewrite MonadFacts.bind_ok.
  2:{ rewrite !(retry_loop_rate_limited _ _ _ _ _ _ raw (Some [])) by apply H.
      reflexivity. }
  unfold lift, log_events, log_event. simpl. rewrite <- !app_assoc. reflexivity.
Qed.

(** C5, on inputs where the code fails it: two texts, sent to an API whose
    replies are not what the contract asks for.
    - Every reply has status 429.  After the third attempt the retries are
      exhausted; [resp] holds the last 429 response, the check
      [resp == nil] passes it on, its body (a JSON error object) decodes to
      a response without entries, and the call returns an empty list of
      vectors and no error.  The waits were 1, 2 and 4 seconds.
    - The reply has status 200 and two entries that both claim index 0.
      The call returns the second vector at position 0 and an empty vector
      at position 1, and no error: neither the duplicate nor the missing
      index is noticed. *)
Theorem malformed_and_rate_limited_replies_return_success :
  GenerateEmbeddings (Inputs.env_with Inputs.rate_limited_api)
                     [txt "a"; txt "b"] Inputs.empty_world
  = (Ok [],
     log_events
       [EvHttpEmbeddings [txt "a"; txt "b"]; EvSleep 1;
        EvHttpEmbeddings [txt "a"; txt "b"]; EvSleep 2;
        EvHttpEmbeddings [txt "a"; txt "b"]; EvSleep 4]
       Inputs.empty_world) /\
  GenerateEmbeddings (Inputs.env_with Inputs.duplicating_api)
                     [txt "a"; txt "b"] Inputs.empty_world
  = (Ok [[2]; []],
     log_events [EvHttpEmbeddings [txt "a"; txt "b"]] Inputs.empty_world).
Proof. split; vm_compute; reflexivity. Qed.

(** A negative index is not reported either: the store panics. *)
Lemma extract_negative_index_panics :
  extract [mkEmbeddingData [1] (-1)] [[]] = Panic.
Proof. reflexivity. Qed.

End EmbeddingFacts.

(** ** Properties of the services *)

Module ServiceFacts.
Import MonadFacts ChunkerFacts EmbeddingFacts.
Import DocumentRepository VectorRepository DocumentService.

(** *** Validation *)

(** The values the Go documentation gives for [filepath.Ext], and a path
    whose last element has no dot. *)
Example Ext_values :
  Ext "index" = "" /\ Ext "index.js" = ".js" /\ Ext "main.test.js" = ".js" /\
  Ext "a.b/c" = "" /\ ToLower (Ext "Report.PDF") = ".pdf".
Proof. repeat split; reflexivity. Qed.

Lemma allowed_iff (ext : string) :
  allowed ext = true <-> ext ∈ [".pdf"; ".txt"; ".md"; ".json"; ".csv"].
Proof.
  unfold allowed, allowedTypes. split.
  - destruct (_ !! ext) as [b|] eqn:E; simpl; [intros -> | discriminate].
    repeat (apply lookup_insert_Some in E as [[<- _] | [_ E]];
            [set_solver|]).
    apply lookup_singleton_Some in E as [<- _]. set_solver.
  - intros H. repeat (apply elem_of_cons in H as [-> | H]; [reflexivity|]).
    inversion H.
Qed.

(** C9: for every upload whose extension, lower-cased, is not one of
    [.pdf], [.txt], [.md], [.json], [.csv], or whose size exceeds 10 MB,
    [UploadDocument] returns a validation error and leaves the world as it
    was, the log of I/O included: no file is opened, nothing is sent to the
    embedding API, the object store, the metadata store or the vector
    index. *)
Theorem UploadDocument_rejects_before_io
    (env : Env) (userID : string) (file : FileHeader) (w : World) :
  ToLower (Ext (fh_Filename file)) ∉ [".pdf"; ".txt"; ".md"; ".json"; ".csv"]
  \/ fh_Size file > 10 * 1024 * 1024 ->
  exists e,
    UploadDocument env userID file w = (Err e, w) /\
    (e = "unsupported file type: " +:+ ToLower (Ext (fh_Filename file)) \/
     e = "file too large (max 10MB)").
Proof.
  intros H. unfold UploadDocument.
  destruct (allowed (ToLower (Ext (fh_Filename file)))) eqn:Ea; simpl.
  - destruct H as [H | H]; [exfalso; apply H, allowed_iff, Ea|].
    destruct (fh_Size file >? maxSize) eqn:Es; [|unfold maxSize in Es; lia].
    eexists. split; [reflexivity | right; reflexivity].
  - eexists. split; [reflexivity | left; reflexivity].
Qed.

Lemma UploadDocument_rejects_before_io_witness :
  exists e,
    UploadDocument (Inputs.env_with Inputs.reversing_api) "u1"
                   Inputs.program_file Inputs.empty_world
    = (Err e, Inputs.empty_world) /\
    (e = "unsupported file type: " +:+ ToLower (Ext "setup.exe") \/
     e = "file too large (max 10MB)").
Proof.
  apply (UploadDocument_rejects_before_io
           (Inputs.env_with Inputs.reversing_api) "u1" Inputs.program_file).
  left. intros H. apply allowed_iff in H. vm_compute in H. discriminate.
Defined.

(** The two rejections, on their own. *)
Lemma UploadDocument_rejections :
  UploadDocument (Inputs.env_with Inputs.reversing_api) "u1"
                 Inputs.program_file Inputs.empty_world
  = (Err "unsupported file type: .exe", Inputs.empty_world) /\
  UploadDocument (Inputs.env_with Inputs.reversing_api) "u1"
                 Inputs.oversized_file Inputs.empty_world
  = (Err "file too large (max 10MB)", Inputs.empty_world).
Proof. split; vm_compute; reflexivity. Qed.

(** *** Ownership *)

Lemma GetByID_found env id d w :
  find (has_id id) (documents w) = Some d ->
  (exists e, GetByID env id w = (Err e, log_event (EvDbSelectDocument id) w)) \/
  GetByID env id w = (Ok d, log_event (EvDbSelectDocument id) w).
Proof.
  intros H. unfold GetByID, io.
  destruct (io_error env _) as [e|]; simpl.
  - left. eexists. reflexivity.
  - right. rewrite H. reflexivity.
Qed.

(** C10: for every caller and every document whose stored owner is someone
    else, [GetDocument] returns an error and not the document, and
    [DeleteDocument] returns an error having done nothing but the lookup:
    no row, no stored object and no collection is changed. *)
Theorem other_owners_documents_are_out_of_reach
    (env : Env) (userID documentID : string) (d : Document) (w : World) :
  find (has_id documentID) (documents w) = Some d ->
  UserID d <> userID ->
  (exists e, (GetDocument env userID documentID w).1 = Err e) /\
  (exists e, (DeleteDocument env userID documentID w).1 = Err e) /\
  (io_error env (length (trace w)) = None ->
   (GetDocument env userID documentID w).1 = Err "unauthorized" /\
   (DeleteDocument env userID documentID w).1 = Err "unauthorized") /\
  documents (DeleteDocument env userID documentID w).2 = documents w /\
  objects (DeleteDocument env userID documentID w).2 = objects w /\
  collections (DeleteDocument env userID documentID w).2 = collections w /\
  trace (DeleteDocument env userID documentID w).2
    = trace w ++ [EvDbSelectDocument documentID].
Proof.
  intros Hfind Hown.
  assert (Hneq : String.eqb (UserID d) userID = false)
    by (apply String.eqb_neq; exact Hown).
  unfold DeleteDocument, DeleteDocument_with, GetDocument, bind, GetByID, io.
  simpl.
  destruct (io_error env (length (trace w))) as [e|]; simpl.
  - repeat split; eauto; discriminate.
  - rewrite Hfind, Hneq. simpl. repeat split; eauto.
Qed.

Lemma other_owners_documents_are_out_of_reach_witness :
  (exists e, (GetDocument (Inputs.env_with Inputs.reversing_api)
                          "u2" "doc-1" Inputs.notes_world).1 = Err e) /\
  (DeleteDocument (Inputs.env_with Inputs.reversing_api)
                  "u2" "doc-1" Inputs.notes_world).1 = Err "unauthorized" /\
  documents (DeleteDocument (Inputs.env_with Inputs.reversing_api)
                            "u2" "doc-1" Inputs.notes_world).2
  = [Inputs.notes_doc].
Proof.
  destruct (other_owners_documents_are_out_of_reach
              (Inputs.env_with Inputs.reversing_api) "u2" "doc-1"
              Inputs.notes_doc Inputs.notes_world)
    as (H1 & _ & H3 & H4 & _); [reflexivity | discriminate |].
  split; [exact H1|]. split; [apply H3; reflexivity | exact H4].
Defined.

(** A document that [GetDocument] returns belongs to the caller. *)
Lemma GetDocument_returns_own env userID documentID w d :
  (GetDocument env userID documentID w).1 = Ok d -> UserID d = userID.
Proof.
  unfold GetDocument, bind, GetByID, io.
  destruct (io_error env _); simpl; [discriminate|].
  destruct (find _ _) as [d'|]; simpl; [|discriminate].
  destruct (String.eqb (UserID d') userID) eqn:E; simpl; [|discriminate].
  intros [= <-]. apply String.eqb_eq. exact E.
Qed.

(** *** Deletion *)



(** With a deletion of the vector records that returns no error, the row
    goes last and the call succeeds. *)
Example DeleteDocument_with_vectors_deleted :
  DeleteDocument_with (ret tt) (Inputs.env_with Inputs.reversing_api)
                      "u1" "doc-1" Inputs.notes_world
  = (Ok tt,
     mkWorld [] [] ∅ ∅
             [EvDbSelectDocument "doc-1"; EvStorageDelete Inputs.notes_path;
              EvDbDeleteDocument "doc-1"]).
Proof. vm_compute. reflexivity. Qed.


(** Whatever the outside answers, [DeleteDocument] does not succeed, and it
    removes no metadata row and no collection. *)
Lemma DeleteDocument_never_completes env userID documentID :
  never_ok (fun _ => True) (DeleteDocument env userID documentID) /\
  forall D C,
    keeps (fun w => documents w = D /\ collections w = C)
          (DeleteDocument env userID documentID).
Proof.
  split.
  - unfold DeleteDocument, DeleteDocument_with.
    apply never_ok_bind_r; [intros ? ?; exact I|]. intros doc.
    apply never_ok_bind_r; [intros ? ?; exact I|]. intros _.
    apply never_ok_bind_l, never_ok_wrap_err, never_ok_fail.
  - intros D C. unfold DeleteDocument, DeleteDocument_with.
    apply keeps_bind.
    { unfold GetDocument. apply keeps_bind.
      - intros w Hw. unfold GetByID, io.
        destruct (io_error env _); simpl; [exact Hw|].
        destruct (find _ _); exact Hw.
      - intros doc. destruct (negb _); [apply keeps_fail | apply keeps_ret]. }
    intros doc. apply keeps_bind.
    { apply keeps_wrap_err. unfold StorageDriver.DeleteFile.
      apply keeps_bind.
      - apply keeps_wrap_err, keeps_io. intros w Hw. exact Hw.
      - intros _. apply keeps_modify. intros w Hw. exact Hw. }
    intros _. apply keeps_bind_stop.
    + apply keeps_wrap_err, keeps_fail.
    + apply never_ok_wrap_err, never_ok_fail.
Qed.

(** *** Search and query *)

Lemma Search_fails env userID v limit w :
  Search env userID v limit w = (Err "search not fully implemented yet", w).
Proof. reflexivity. Qed.

(** The search is left unwritten ([// TODO: Implement search]): it returns
    its error for every owner, whether the owner has a collection or not,
    and the RAG query, which is written to go on with the results of the
    search, returns no answer for any owner: once the question is embedded
    it fails with the error of the search. *)
Lemma Search_and_Query_fail_for_every_owner
    (env : Env) (userID question : string) (v : vector) (limit : Z) (w : World) :
  Search env userID v limit w = (Err "search not fully implemented yet", w) /\
  (forall answer, (RAGService.Query env userID question w).1 <> Ok answer) /\
  (forall q w',
     EmbeddingService.GenerateEmbedding env (txt question) w = (Ok q, w') ->
     RAGService.Query env userID question w
     = (Err "failed to search vectors: search not fully implemented yet", w')).
Proof.
  split; [reflexivity|]. split.
  - assert (H : never_ok (fun _ => True) (RAGService.Query env userID question)).
    { unfold RAGService.Query.
      apply never_ok_bind_r; [intros ? ?; exact I|]. intros q.
      apply never_ok_bind_l, never_ok_wrap_err, never_ok_fail. }
    apply H. exact I.
  - intros q w' H. unfold RAGService.Query.
    erewrite bind_ok by (apply wrap_err_ok; exact H).
    reflexivity.
Qed.

Example Query_fails_once_the_question_is_embedded :
  RAGService.Query (Inputs.env_with Inputs.reversing_api) "u1"
                   "What is the return policy?" Inputs.empty_world
  = (Err "failed to search vectors: search not fully implemented yet",
     log_event (EvHttpEmbeddings [txt "What is the return policy?"])
               Inputs.empty_world).
Proof.
  destruct (Search_and_Query_fail_for_every_owner
              (Inputs.env_with Inputs.reversing_api) "u1"
              "What is the return policy?" [] 5 Inputs.empty_world)
    as (_ & _ & H).
  eapply H. vm_compute. reflexivity.
Defined.

(** C1 at its failing input: owner [u1] has no collection and the embedding
    API answers.  The claim asks for an empty result of the search and for
    an answer of the query; the search returns the error
    "search not fully implemented yet", and the query fails with it. *)
Theorem Search_and_Query_error_without_collection :
  collections Inputs.empty_world !! GetCollectionName "u1" = None /\
  (Search (Inputs.env_with Inputs.reversing_api) "u1" [5] 5
          Inputs.empty_world).1
  = Err "search not fully implemented yet" /\
  (RAGService.Query (Inputs.env_with Inputs.reversing_api) "u1"
                    "What is the return policy?" Inputs.empty_world).1
  = Err "failed to search vectors: search not fully implemented yet".
Proof. repeat split; vm_compute; reflexivity. Qed.

(** *** Uploading the same bytes twice *)

Lemma extract_text_allowed ext content :
  allowed ext = true -> extract_text ext content = ret content.
Proof.
  intros H. apply allowed_iff in H.
  repeat (apply elem_of_cons in H as [-> | H]; [reflexivity|]).
  inversion H.
Qed.

Lemma existsb_same_user_hash userID hash rows :
  (exists d, d ∈ rows /\ UserID d = userID /\ FileHash d = hash) ->
  existsb (same_user_hash userID hash) rows = true.
Proof.
  intros (d & Hin & Hu & Hh). apply existsb_exists. exists d. split.
  - apply list_elem_of_In. exact Hin.
  - unfold same_user_hash. rewrite Hu, Hh, !String.eqb_refl. reflexivity.
Qed.

Section Duplicate.

Variables (env : Env) (userID hash : string) (D : list Document)
          (C : gmap string Collection).
Hypothesis Hdup : exists d, d ∈ D /\ UserID d = userID /\ FileHash d = hash.

Lemma tables_are_log ev w :
  tables_are D C w -> tables_are D C (log_event ev w).
Proof. intros H. exact H. Qed.

Lemma Create_duplicate_stops doc :
  UserID doc = userID -> FileHash doc = hash ->
  stops (tables_are D C) (Create env doc).
Proof.
  intros Hu Hh. unfold Create. apply stops_wrap_err.
  apply stops_bind_r; [apply keeps_io, tables_are_log|]. intros k.
  split.
  - intros w Hw. unfold bind, get. simpl. destruct Hw as [Hd Hc].
    rewrite Hu, Hh, Hd, (existsb_same_user_hash _ _ _ Hdup). simpl.
    split; assumption.
  - intros w Hw a. unfold bind, get. simpl. destruct Hw as [Hd Hc].
    rewrite Hu, Hh, Hd, (existsb_same_user_hash _ _ _ Hdup). discriminate.
Qed.

Lemma UploadDocument_duplicate_stops file :
  sha256_hex env (fh_content file) = hash ->
  stops (tables_are D C) (UploadDocument env userID file).
Proof.
  intros Hh. unfold UploadDocument.
  destruct (negb _); [apply stops_fail|].
  destruct (_ >? _); [apply stops_fail|].
  apply stops_bind_r;
    [apply keeps_wrap_err, keeps_io, tables_are_log|]. intros _.
  apply stops_bind_r;
    [apply keeps_wrap_err, keeps_io, tables_are_log|]. intros _.
  apply stops_bind_r.
  { unfold extract_text.
    repeat (destruct (_ || _); [apply keeps_ret|]).
    destruct (String.eqb _ _); [apply keeps_ret | apply keeps_fail]. }
  intros text_.
  destruct (Chunker.ChunkText text_ 500 50) as [chunks| |];
    [|apply stops_panic | apply stops_diverge].
  destruct (Zlen chunks =? 0); [apply stops_fail|].
  apply stops_bind_r.
  { apply keeps_wrap_err, keeps_GenerateEmbeddings, tables_are_log. }
  intros embeddings.
  apply stops_bind_r.
  { apply keeps_wrap_err. unfold StorageDriver.UploadFile.
    apply keeps_bind; [apply keeps_wrap_err, keeps_io, tables_are_log|].
    intros _. apply keeps_modify. intros w Hw. exact Hw. }
  intros _.
  apply stops_bind_l, stops_wrap_err, Create_duplicate_stops; [reflexivity|].
  exact Hh.
Qed.

End Duplicate.

(** C2, as amended: for every owner and every content already recorded for
    that owner, uploading the identical bytes again creates no second
    Document record and no vector record, and does not succeed.  The bytes
    are processed again: when the extension and size pass, every I/O call
    goes through and the embedding API answers, the file is read, chunked
    and embedded, the object is written to storage once more, and the
    metadata insert is then refused by the unique (owner, hash) constraint;
    that error is what the caller gets. *)
Theorem duplicate_upload_adds_nothing_and_fails
    (env : Env) (userID : string) (file : FileHeader) (w : World) :
  (exists d, d ∈ documents w /\ UserID d = userID /\
             FileHash d = sha256_hex env (fh_content file)) ->
  ((forall doc, (UploadDocument env userID file w).1 <> Ok doc) /\
   documents (UploadDocument env userID file w).2 = documents w /\
   collections (UploadDocument env userID file w).2 = collections w) /\
  (forall embed,
     allowed (ToLower (Ext (fh_Filename file))) = true ->
     Zlen (fh_content file) = fh_Size file ->
     0 < fh_Size file <= maxSize ->
     (forall k, io_error env k = None) ->
     (forall k batch,
        EmbeddingService.successful_reply embed batch (embeddings_api env k batch)) ->
     exists evs,
       (UploadDocument env userID file w).1
       = Err "failed to create document record: failed to create document: pq: duplicate key value violates unique constraint unique_user_file_hash" /\
       trace (UploadDocument env userID file w).2
       = trace w
           ++ [EvFileOpen (fh_Filename file); EvFileRead (fh_Filename file)]
           ++ evs
           ++ [EvStorageUpload
                 (userID +:+ "/" +:+ sha256_hex env (fh_content file) +:+ "/"
                         +:+ fh_Filename file);
               EvDbInsertDocument userID (sha256_hex env (fh_content file))] /\
       Forall is_embeddings_request evs /\ evs <> [] /\
       objects (UploadDocument env userID file w).2
       = <[userID +:+ "/" +:+ sha256_hex env (fh_content file) +:+ "/"
                  +:+ fh_Filename file := fh_content file]> (objects w)).
Proof.
  intros Hdup. split.
  - destruct (UploadDocument_duplicate_stops env userID _ (documents w)
                (collections w) Hdup file eq_refl) as [Hk Hn].
    split; [apply Hn; split; reflexivity|]. apply Hk. split; reflexivity.
  - intros embed Hal Hsz Hpos Hio Hapi.
    assert (Hlen : Zlen (fh_content file) < 2 ^ 62)
      by (unfold maxSize in Hpos; lia).
    destruct (ChunkText_500_50 _ Hlen) as (chunks & Hchunks & Hrec).
    assert (Hne : chunks <> []).
    { intros ->. unfold Chunker.reconstruct in Hrec. simpl in Hrec.
      rewrite <- Hrec in Hsz. unfold Zlen in Hsz. simpl in Hsz. lia. }
    assert (Hcl : Zlen chunks < 2 ^ 62).
    { apply ChunkText_length in Hchunks. unfold maxSize in Hpos. lia. }
    set (w2 := log_event (EvFileRead (fh_Filename file))
                 (log_event (EvFileOpen (fh_Filename file)) w)).
    destruct (GenerateEmbeddings_successful env embed chunks Hcl Hapi w2 Hne)
      as (evs & Hgen & Hevs & Hevs').
    exists evs.
    unfold UploadDocument. rewrite Hal. change (negb true) with false.
    cbv iota.
    destruct (fh_Size file >? maxSize) eqn:Es; [lia|].
    erewrite bind_ok by (apply wrap_err_ok, io_ok, Hio).
    erewrite bind_ok by (apply wrap_err_ok, io_ok, Hio).
    rewrite (extract_text_allowed _ _ Hal).
    erewrite bind_ok by reflexivity.
    rewrite Hchunks.
    destruct (Zlen chunks =? 0) eqn:Ez.
    { destruct chunks; [congruence|]. rewrite Zlen_cons in Ez.
      pose proof (Zlen_nonneg chunks). lia. }
    fold w2.
    erewrite bind_ok by (apply wrap_err_ok; exact Hgen).
    unfold StorageDriver.UploadFile.
    erewrite bind_ok;
      [|apply wrap_err_ok; erewrite bind_ok by (apply wrap_err_ok, io_ok, Hio);
        reflexivity].
    erewrite bind_err.
    2:{ apply wrap_err_err. unfold Create. apply wrap_err_err.
        erewrite bind_ok by (apply io_ok, Hio).
        unfold bind, get. simpl.
        rewrite (existsb_same_user_hash _ _ _ Hdup). reflexivity. }
    simpl. repeat split; try assumption.
    rewrite <- !app_assoc. reflexivity.
Qed.

Lemma notes_world_has_the_document :
  exists d, d ∈ documents Inputs.notes_world /\ UserID d = "u1" /\
            FileHash d = sha256_hex (Inputs.env_with Inputs.reversing_api)
                                    (fh_content Inputs.notes_file).
Proof.
  exists Inputs.notes_doc. split; [apply list_elem_of_here|].
  split; reflexivity.
Qed.

Lemma duplicate_upload_adds_nothing_and_fails_witness :
  ((forall doc,
      (UploadDocument (Inputs.env_with Inputs.reversing_api) "u1"
                      Inputs.notes_file Inputs.notes_world).1 <> Ok doc) /\
   documents (UploadDocument (Inputs.env_with Inputs.reversing_api) "u1"
                             Inputs.notes_file Inputs.notes_world).2
   = [Inputs.notes_doc] /\
   collections (UploadDocument (Inputs.env_with Inputs.reversing_api) "u1"
                               Inputs.notes_file Inputs.notes_world).2 = ∅) /\
  exists evs,
    (UploadDocument (Inputs.env_with Inputs.reversing_api) "u1"
                    Inputs.notes_file Inputs.notes_world).1
    = Err "failed to create document record: failed to create document: pq: duplicate key value violates unique constraint unique_user_file_hash" /\
    trace (UploadDocument (Inputs.env_with Inputs.reversing_api) "u1"
                          Inputs.notes_file Inputs.notes_world).2
    = [] ++ [EvFileOpen "notes.txt"; EvFileRead "notes.txt"] ++ evs
         ++ [EvStorageUpload Inputs.notes_path;
             EvDbInsertDocument "u1" (Inputs.toy_hash Inputs.notes_content)] /\
    Forall is_embeddings_request evs /\ evs <> [] /\
    objects (UploadDocument (Inputs.env_with Inputs.reversing_api) "u1"
                            Inputs.notes_file Inputs.notes_world).2
    = <[Inputs.notes_path := Inputs.notes_content]>
        {[ Inputs.notes_path := Inputs.notes_content ]}.
Proof.
  destruct (duplicate_upload_adds_nothing_and_fails
              (Inputs.env_with Inputs.reversing_api) "u1"
              Inputs.notes_file Inputs.notes_world
              notes_world_has_the_document) as [Hsafe Hpath].
  split; [exact Hsafe|].
  apply (Hpath Inputs.toy_embed).
  - vm_compute. reflexivity.
  - reflexivity.
  - unfold maxSize. simpl. lia.
  - intros k. reflexivity.
  - intros k batch. apply reversing_api_successful.
Defined.

(** C2, as stated, fails on a second upload of a recorded file: the caller
    gets an error, and before it the file was read, its text sent to the
    embedding API and its bytes written to storage again. *)
Lemma duplicate_upload_is_processed_again :
  (UploadDocument (Inputs.env_with Inputs.reversing_api) "u1"
                  Inputs.notes_file Inputs.notes_world).1
  = Err "failed to create document record: failed to create document: pq: duplicate key value violates unique constraint unique_user_file_hash" /\
  trace (UploadDocument (Inputs.env_with Inputs.reversing_api) "u1"
                        Inputs.notes_file Inputs.notes_world).2
  = [EvFileOpen "notes.txt"; EvFileRead "notes.txt";
     EvHttpEmbeddings [Inputs.notes_content];
     EvStorageUpload Inputs.notes_path;
     EvDbInsertDocument "u1" (Inputs.toy_hash Inputs.notes_content)].
Proof. split; vm_compute; reflexivity. Qed.

End ServiceFacts.

(** ** More on the chunker: sizes, overlaps, and chunk sizes below the floor *)

Module ChunkerBounds.
Import Chunker ChunkerFacts ChunkerSpec.

Lemma search_range_max L :
  20 <= L -> L < 2 ^ 62 -> search_range L = Z.max 20 (L / 5).
Proof. intros H1 H2. apply search_range_bounds; assumption. Qed.

Lemma regime_overlap L O :
  20 <= L -> L < 2 ^ 62 -> 0 <= O <= L - Z.max 20 (L / 5) ->
  0 <= O <= L - search_range L.
Proof. intros H1 H2 H3. rewrite search_range_max by assumption. exact H3. Qed.

(** X1: For a chunk size of at least 20 and an overlap that leaves the search
    range of a chunk out, the chunker returns, and its chunks give the text
    back, byte for byte, once the overlaps are removed. *)
Theorem ChunkText_total_and_lossless (t : text) (L O : Z) :
  20 <= L -> 0 <= O <= L - Z.max 20 (L / 5) -> Zlen t < 2 ^ 62 ->
  exists chunks,
    ChunkText t L O = Returned chunks /\ reconstruct O chunks = t.
Proof.
  intros HL HO Hlen.
  destruct (Z_lt_ge_dec L (2 ^ 62)) as [Hlt | Hge].
  - apply ChunkText_reconstructs; [exact HL | | exact Hlen].
    apply regime_overlap; assumption.
  - unfold ChunkText, ChunkText_fuel.
    destruct (Zlen t =? 0) eqn:E0.
    + exists []. split; [reflexivity|].
      destruct t as [|c t']; [reflexivity|]. rewrite Zlen_cons in E0.
      pose proof (Zlen_nonneg t'). lia.
    + destruct (Zlen t <=? L) eqn:E1; [|lia].
      exists [t]. split; [reflexivity|]. unfold reconstruct. simpl.
      replace (Z.min O (Zlen (@nil ascii))) with 0
        by (change (Zlen (@nil ascii)) with 0; lia).
      reflexivity.
Qed.

Lemma ChunkText_total_and_lossless_witness :
  exists chunks,
    ChunkText (txt "hello world. this is a test of the chunker") 30 5
    = Returned chunks /\
    reconstruct 5 chunks = txt "hello world. this is a test of the chunker".
Proof.
  apply ChunkText_total_and_lossless.
  - lia.
  - vm_compute. split; discriminate.
  - vm_compute. reflexivity.
Defined.

Section Regime.

Variables (t : text) (L O : Z).
Hypothesis HL : 20 <= L.
Hypothesis HO : 0 <= O <= L - search_range L.
Hypothesis Hlen : Zlen t < 2 ^ 62.
Hypothesis HLt : L < Zlen t.

Lemma Zlen_take_drop (start k : Z) :
  0 <= start -> 0 <= k -> start + k <= Zlen t ->
  Zlen (take (Z.to_nat k) (drop (Z.to_nat start) t)) = k.
Proof.
  intros H1 H2 H3. unfold Zlen in *. rewrite length_take, length_drop. lia.
Qed.

Lemma Zlen_drop (start : Z) :
  0 <= start <= Zlen t -> Zlen (drop (Z.to_nat start) t) = Zlen t - start.
Proof. intros H. unfold Zlen in *. rewrite length_drop. lia. Qed.

Lemma chunk_loop_sizes fuel :
  forall start chunks chunks',
    0 <= start < Zlen t ->
    chunk_loop fuel t L O start chunks = Returned chunks' ->
    Forall (fun c => 1 <= Zlen c <= L) chunks ->
    Forall (fun c => 1 <= Zlen c <= L) chunks'.
Proof.
  induction fuel as [|fuel IH]; intros start chunks chunks' Hs; simpl;
    [discriminate|].
  destruct (start <? Zlen t) eqn:E; [|lia].
  destruct (Z_lt_ge_dec (start + L) (Zlen t)) as [Hlt | Hge].
  - destruct (chunk_step_next t L O HL HO Hlen start) as (bp & Hbp & ->);
      [lia | lia |].
    intros Hloop Hall. apply (IH (bp - O) _ _) in Hloop; [exact Hloop | lia |].
    apply Forall_app. split; [exact Hall|]. constructor; [|constructor].
    rewrite Zlen_take_drop by lia. lia.
  - rewrite (chunk_step_last t L O HL Hlen start HLt) by lia.
    intros [= <-] Hall. apply Forall_app. split; [exact Hall|].
    constructor; [|constructor]. rewrite Zlen_drop by lia. lia.
Qed.

Lemma overlapping_snoc start chunks c :
  overlapping O chunks -> tail_at t O start chunks ->
  O <= Zlen c ->
  take (Z.to_nat O) c = take (Z.to_nat O) (drop (Z.to_nat start) t) ->
  overlapping O (chunks ++ [c]).
Proof.
  intros Hov Htail Hc Hhead i c1 c2 H1 H2. unfold text in *.
  destruct (decide (S i < length chunks)%nat) as [Hlt | Hge].
  - rewrite lookup_app_l in H1 by lia. rewrite lookup_app_l in H2 by lia.
    eapply Hov; eauto.
  - assert (Hi : S i = length chunks).
    { apply lookup_lt_Some in H2. rewrite length_app in H2. simpl in H2. lia. }
    rewrite lookup_app_l in H1 by lia.
    rewrite lookup_app_r in H2 by lia.
    replace (S i - length chunks)%nat with 0%nat in H2 by lia.
    simpl in H2. injection H2 as <-.
    destruct Htail as [-> | (c' & Hlast & Hc' & _ & Htl)]; [discriminate|].
    unfold text in *. rewrite last_lookup in Hlast.
    replace (pred (length chunks)) with i in Hlast by lia.
    rewrite H1 in Hlast. injection Hlast as <-.
    split; [exact Hc'|]. split; [exact Hc|]. rewrite Htl, Hhead. reflexivity.
Qed.

Lemma chunk_loop_overlaps fuel :
  forall start chunks chunks',
    0 <= start < Zlen t ->
    chunk_loop fuel t L O start chunks = Returned chunks' ->
    overlapping O chunks -> tail_at t O start chunks ->
    overlapping O chunks'.
Proof.
  induction fuel as [|fuel IH]; intros start chunks chunks' Hs; simpl;
    [discriminate|].
  destruct (start <? Zlen t) eqn:E; [|lia].
  destruct (Z_lt_ge_dec (start + L) (Zlen t)) as [Hlt | Hge].
  - destruct (chunk_step_next t L O HL HO Hlen start) as (bp & Hbp & ->);
      [lia | lia |].
    set (c := take (Z.to_nat (bp - start)) (drop (Z.to_nat start) t)).
    assert (Hc : Zlen c = bp - start)
      by (unfold c; apply Zlen_take_drop; lia).
    intros Hloop Hov Htail.
    apply (IH (bp - O) _ _) in Hloop; [exact Hloop | lia | |].
    + apply (overlapping_snoc start); [exact Hov | exact Htail | lia |].
      unfold c. rewrite take_take. f_equal. lia.
    + right. exists c. split; [apply last_snoc|].
      split; [lia|]. split; [lia|].
      rewrite Hc. unfold c.
      replace (drop (Z.to_nat (bp - O)) t)
        with (drop (Z.to_nat (bp - start - O)) (drop (Z.to_nat start) t))
        by (rewrite drop_drop; f_equal; lia).
      rewrite (take_drop_commute (drop (Z.to_nat start) t)).
      do 2 f_equal. lia.
  - rewrite (chunk_step_last t L O HL Hlen start HLt) by lia.
    intros [= <-] Hov Htail.
    destruct Htail as [-> | Htail].
    + intros i c1 c2 H1 H2. destruct i; discriminate.
    + apply (overlapping_snoc start); [exact Hov | right; exact Htail | |
                                       reflexivity].
      destruct Htail as (c' & _ & _ & Hso & _). rewrite Zlen_drop by lia. lia.
Qed.

End Regime.

Lemma ChunkText_single_chunk t L O :
  0 <= O -> Zlen t <= L ->
  exists chunks,
    ChunkText t L O = Returned chunks /\
    Forall (fun c => 1 <= Zlen c <= L) chunks /\ overlapping O chunks.
Proof.
  intros HO Hle. unfold ChunkText, ChunkText_fuel.
  destruct (Zlen t =? 0) eqn:E0.
  - exists []. split; [reflexivity|]. split; [constructor|].
    intros i c1 c2 H. destruct i; discriminate.
  - destruct (Zlen t <=? L) eqn:E1; [|lia].
    exists [t]. split; [reflexivity|]. split.
    + constructor; [|constructor]. pose proof (Zlen_nonneg t). lia.
    + intros [|i] c1 c2 H1 H2; [discriminate H2|]. destruct i; discriminate.
Qed.

Lemma ChunkText_sizes_and_overlaps t L O :
  20 <= L -> 0 <= O <= L - Z.max 20 (L / 5) -> Zlen t < 2 ^ 62 ->
  exists chunks,
    ChunkText t L O = Returned chunks /\
    Forall (fun c => 1 <= Zlen c <= L) chunks /\ overlapping O chunks.
Proof.
  intros HL HO Hlen.
  destruct (Z_le_gt_dec (Zlen t) L) as [Hle | Hgt].
  { apply ChunkText_single_chunk; lia. }
  assert (HO' : 0 <= O <= L - search_range L)
    by (apply regime_overlap; [assumption | lia | assumption]).
  destruct (ChunkText_reconstructs t L O HL HO' Hlen) as (chunks & Hret & _).
  exists chunks. split; [exact Hret|].
  unfold ChunkText, ChunkText_fuel in Hret.
  destruct (Zlen t =? 0) eqn:E0; [lia|].
  destruct (Zlen t <=? L) eqn:E1; [lia|].
  split.
  - eapply (chunk_loop_sizes t L O HL HO' Hlen); [lia | | exact Hret | constructor].
    pose proof (Zlen_nonneg t). lia.
  - eapply (chunk_loop_overlaps t L O HL HO' Hlen);
      [lia | | exact Hret | | left; reflexivity].
    + pose proof (Zlen_nonneg t). lia.
    + intros i c1 c2 H. destruct i; discriminate.
Qed.

(** X2: Within the same range of parameters no chunk is empty and none is
    longer than the chunk size. *)
Theorem ChunkText_chunk_sizes (t : text) (L O : Z) :
  20 <= L -> 0 <= O <= L - Z.max 20 (L / 5) -> Zlen t < 2 ^ 62 ->
  exists chunks,
    ChunkText t L O = Returned chunks /\
    Forall (fun c => 1 <= Zlen c <= L) chunks.
Proof.
  intros HL HO Hlen.
  destruct (ChunkText_sizes_and_overlaps t L O HL HO Hlen) as (chunks & H1 & H2 & _).
  exists chunks. split; assumption.
Qed.

Lemma ChunkText_chunk_sizes_witness :
  exists chunks,
    ChunkText (txt "hello world. this is a test of the chunker") 30 5
    = Returned chunks /\
    Forall (fun c => 1 <= Zlen c <= 30) chunks.
Proof.
  apply ChunkText_chunk_sizes.
  - lia.
  - vm_compute. split; discriminate.
  - vm_compute. reflexivity.
Defined.

(** X3: Within the same range of parameters every chunk but the first starts
    with the last [O] bytes of the chunk before it. *)
Theorem ChunkText_consecutive_chunks_overlap (t : text) (L O : Z) :
  20 <= L -> 0 <= O <= L - Z.max 20 (L / 5) -> Zlen t < 2 ^ 62 ->
  exists chunks,
    ChunkText t L O = Returned chunks /\ overlapping O chunks.
Proof.
  intros HL HO Hlen.
  destruct (ChunkText_sizes_and_overlaps t L O HL HO Hlen) as (chunks & H1 & _ & H2).
  exists chunks. split; assumption.
Qed.

Lemma ChunkText_consecutive_chunks_overlap_witness :
  exists chunks,
    ChunkText (txt "hello world. this is a test of the chunker") 30 5
    = Returned chunks /\ overlapping 5 chunks.
Proof.
  apply ChunkText_consecutive_chunks_overlap.
  - lia.
  - vm_compute. split; discriminate.
  - vm_compute. reflexivity.
Defined.

Lemma wrap_below_floor L :
  Int64.in_range L -> L < 20 ->
  ~ (0 <= Int64.sub L 20 <= L).
Proof.
  unfold Int64.in_range, Int64.min_int, Int64.max_int, Int64.sub, Int64.wrap.
  intros HL H20.
  destruct (Z_le_gt_dec (- 2 ^ 63) (L - 20)) as [Hok | Hwrap].
  - rewrite Z.mod_small by lia. lia.
  - replace (L - 20 + 2 ^ 63) with (L - 20 + 2 ^ 63 + 2 ^ 64 + (-1) * 2 ^ 64)
      by lia.
    rewrite Z_mod_plus_full. rewrite Z.mod_small by lia. lia.
Qed.

(** X4: A chunk size below 20, the floor of the search range, makes every text
    longer than the chunk size panic: the first search window starts before
    the text. *)
Theorem ChunkText_panics_below_the_floor (t : text) (L O : Z) :
  Int64.in_range L -> L < 20 -> 0 < Zlen t -> L < Zlen t ->
  ChunkText t L O = Panicked.
Proof.
  intros HL H20 Hpos Hlt. unfold ChunkText, ChunkText_fuel.
  destruct (Zlen t =? 0) eqn:E0; [lia|].
  destruct (Zlen t <=? L) eqn:E1; [lia|].
  simpl. destruct (0 <? Zlen t) eqn:E2; [|lia].
  assert (E3 : (L >=? Zlen t) = false) by lia.
  assert (Hq : L - 4 <= 5 * Z.quot L 5 <= L + 4).
  { pose proof (Z.quot_rem' L 5).
    destruct (Z_lt_ge_dec L 0).
    - pose proof (Z.rem_bound_pos_neg L 5). lia.
    - pose proof (Z.rem_bound_pos L 5). lia. }
  assert (Hsr : search_range L = 20).
  { unfold search_range. rewrite Int64Facts.div_small.
    - destruct (Z.quot L 5 <? 20) eqn:E4; [reflexivity | lia].
    - unfold Int64.in_range, Int64.min_int, Int64.max_int in *. lia. }
  assert (Hslice : slice t (Int64.sub L 20) L = None).
  { pose proof (wrap_below_floor L HL H20) as Hn. unfold slice.
    destruct (0 <=? Int64.sub L 20) eqn:F1; [|reflexivity].
    destruct (Int64.sub L 20 <=? L) eqn:F2; [|reflexivity].
    exfalso. apply Hn. lia. }
  unfold chunk_step, separators. cbn [find_break].
  rewrite Hsr, (Int64Facts.add_small 0 L) by (simpl; exact HL).
  rewrite !Z.add_0_l, E3, Hslice. reflexivity.
Qed.

Lemma ChunkText_panics_below_the_floor_witness :
  ChunkText (txt "aaaaaaaaaaa") 10 0 = Panicked.
Proof.
  apply ChunkText_panics_below_the_floor.
  - unfold Int64.in_range, Int64.min_int, Int64.max_int. lia.
  - lia.
  - vm_compute. reflexivity.
  - vm_compute. reflexivity.
Defined.

End ChunkerBounds.

(** ** More on the embedding client: retries, batches and replies *)

Module EmbeddingMore.
Import EmbeddingService ChunkerFacts EmbeddingFacts EmbeddingSpec MonadFacts.

Lemma log_events_nil w : log_events [] w = w.
Proof. unfold log_events. rewrite app_nil_r. destruct w; reflexivity. Qed.

Lemma log_events_log_event ev evs w :
  log_events evs (log_event ev w) = log_events (ev :: evs) w.
Proof. unfold log_events, log_event. simpl. rewrite <- app_assoc. reflexivity. Qed.

Lemma log_events_app evs1 evs2 w :
  log_events evs2 (log_events evs1 w) = log_events (evs1 ++ evs2) w.
Proof. unfold log_events. simpl. rewrite <- app_assoc. reflexivity. Qed.

Lemma log_event_log_events ev evs w :
  log_event ev (log_events evs w) = log_events (evs ++ [ev]) w.
Proof. unfold log_events, log_event. simpl. rewrite <- app_assoc. reflexivity. Qed.

(** *** Retries *)

Lemma retry_loop_200 env texts attempt rest resp w raw decoded :
  embeddings_api env (length (trace w)) texts = Response 200 raw decoded ->
  retry_loop env texts (attempt :: rest) resp w
  = (Ok (Some (200, raw, decoded)), log_event (EvHttpEmbeddings texts) w).
Proof.
  intros H. simpl. unfold bind at 1. unfold do_request. rewrite H. reflexivity.
Qed.

(** *** What a batch does to the outside *)






(** *** What the client does to the outside *)

Section RequestsAndWaits.

Variables (env : Env) (w0 : World).



Lemma only_requests_and_waits_log ev w :
  is_request_or_wait ev ->
  gains_requests_and_waits w0 w -> gains_requests_and_waits w0 (log_event ev w).
Proof.
  intros Hev (evs & -> & Hevs). exists (evs ++ [ev]). split.
  - apply log_event_log_events.
  - apply Forall_app. split; [exact Hevs | constructor; [exact Hev | constructor]].
Qed.

Lemma requests_retry_loop texts attempts :
  forall resp, keeps (gains_requests_and_waits w0) (retry_loop env texts attempts resp).
Proof.
  induction attempts as [|attempt rest IH]; intros resp; simpl.
  - apply keeps_ret.
  - apply keeps_bind.
    { intros w Hw. simpl. apply only_requests_and_waits_log; [exact I | exact Hw]. }
    intros [e | status raw decoded]; [apply keeps_fail|].
    destruct (status =? 200); [apply keeps_ret|].
    destruct (status =? 429); [|apply keeps_fail].
    apply keeps_bind; [|intros _; apply IH].
    apply keeps_modify. intros w Hw.
    apply only_requests_and_waits_log; [exact I | exact Hw].
Qed.

Lemma requests_generateBatch texts :
  keeps (gains_requests_and_waits w0) (generateBatch env texts).
Proof.
  unfold generateBatch. apply keeps_bind; [apply requests_retry_loop|].
  intros [[[status raw] [data|]]|];
    [apply keeps_lift | apply keeps_fail | apply keeps_fail].
Qed.

Lemma requests_batch_loop fuel texts :
  forall i allEmbeddings,
    keeps (gains_requests_and_waits w0) (batch_loop env fuel texts i allEmbeddings).
Proof.
  induction fuel as [|fuel IH]; intros i acc; simpl; [apply keeps_diverge|].
  destruct (i <? Zlen texts); [|apply keeps_ret].
  destruct (slice texts i _); [|apply keeps_panic].
  apply keeps_bind; [apply keeps_wrap_err, requests_generateBatch|].
  intros embeddings. apply IH.
Qed.

Lemma requests_GenerateEmbeddings texts :
  keeps (gains_requests_and_waits w0) (GenerateEmbeddings env texts).
Proof.
  unfold GenerateEmbeddings.
  destruct (Zlen texts =? 0); [apply keeps_fail | apply requests_batch_loop].
Qed.

Lemma requests_GenerateEmbedding t :
  keeps (gains_requests_and_waits w0) (GenerateEmbedding env t).
Proof.
  unfold GenerateEmbedding. apply keeps_bind; [apply requests_GenerateEmbeddings|].
  intros [|e ?]; [apply keeps_fail | apply keeps_ret].
Qed.

Lemma only_requests_and_waits_start : gains_requests_and_waits w0 w0.
Proof. exists []. split; [symmetry; apply log_events_nil | constructor]. Qed.

End RequestsAndWaits.

(** X7: Whatever the API answers and however the call ends, [GenerateEmbeddings]
    changes nothing but the log of I/O, and what it adds to the log are
    requests to the embeddings endpoint and waits: no table, stored object
    or collection is touched. *)
Theorem GenerateEmbeddings_only_requests_and_waits
    (env : Env) (texts : list text) (w : World) :
  exists evs,
    (GenerateEmbeddings env texts w).2 = log_events evs w /\
    Forall is_request_or_wait evs.
Proof.
  apply (requests_GenerateEmbeddings env w texts w).
  apply only_requests_and_waits_start.
Qed.

(** *** Batches *)

Lemma batch_count_spec texts (j : nat) :
  (j < batch_count texts)%nat <-> (100 * j < length texts)%nat.
Proof.
  unfold batch_count. split; intros H.
  - assert (H1 : (S j <= (length texts + 99) / 100)%nat) by lia.
    pose proof (Nat.div_mod_eq (length texts + 99) 100).
    pose proof (Nat.mod_upper_bound (length texts + 99) 100). lia.
  - pose proof (Nat.div_mod_eq (length texts + 99) 100).
    pose proof (Nat.mod_upper_bound (length texts + 99) 100). lia.
Qed.

Lemma batch_at_slice texts (j : nat) :
  Zlen texts < 2 ^ 62 ->
  (100 * j < length texts)%nat ->
  let i := Z.of_nat (100 * j) in
  slice texts i
        (if Int64.add i batchSize >? Zlen texts then Zlen texts
         else Int64.add i batchSize)
  = Some (batch_at texts j).
Proof.
  intros Hlen Hj i. unfold batchSize.
  assert (Hi : 0 <= i < Zlen texts) by (unfold i, Zlen; lia).
  rewrite Int64Facts.add_small by int64.
  unfold batch_at. fold (Z.to_nat i).
  destruct (i + 100 >? Zlen texts) eqn:E.
  - rewrite slice_Some by lia. f_equal.
    replace (Z.to_nat i) with (100 * j)%nat by (unfold i; lia).
    rewrite !take_ge; [reflexivity | |];
      rewrite length_drop; unfold Zlen in *; lia.
  - rewrite slice_Some by lia. f_equal.
    replace (Z.to_nat i) with (100 * j)%nat by (unfold i; lia).
    f_equal. lia.
Qed.

(** The loop over the batches, as long as the batches are answered
    successfully: [m] turns from batch [j] on. *)
Lemma batch_loop_prefix env embed texts :
  Zlen texts < 2 ^ 62 ->
  forall (m fuel j : nat) acc w,
    (j + m <= batch_count texts)%nat ->
    (forall k, (k < m)%nat ->
       successful_reply embed (batch_at texts (j + k))
         (embeddings_api env (length (trace w) + k) (batch_at texts (j + k)))) ->
    batch_loop env (m + fuel) texts (Z.of_nat (100 * j)) acc w
    = batch_loop env fuel texts (Z.of_nat (100 * (j + m)))
        (acc ++ map embed (take (100 * m) (drop (100 * j) texts)))
        (log_events (batch_requests texts j m) w).
Proof.
  intros Hlen. induction m as [|m IH]; intros fuel j acc w Hjm Hapi.
  - change (0 + fuel)%nat with fuel.
    rewrite Nat.add_0_r, Nat.mul_0_r, take_0.
    unfold batch_requests. cbn [seq map]. rewrite app_nil_r, log_events_nil.
    reflexivity.
  - assert (Hj : (100 * j < length texts)%nat)
      by (apply batch_count_spec; lia).
    change (S m + fuel)%nat with (S (m + fuel)). cbn [batch_loop].
    destruct (Z.of_nat (100 * j) <? Zlen texts) eqn:E.
    2:{ exfalso. apply Z.ltb_ge in E. unfold Zlen in E. lia. }
    rewrite (batch_at_slice texts j Hlen Hj).
    erewrite bind_ok.
    2:{ apply wrap_err_ok. apply (generateBatch_successful env embed).
        specialize (Hapi 0%nat). rewrite !Nat.add_0_r in Hapi.
        apply Hapi. lia. }
    rewrite Int64Facts.add_small by (unfold batchSize, Zlen in *; int64).
    replace (Z.of_nat (100 * j) + batchSize) with (Z.of_nat (100 * S j))
      by (unfold batchSize; lia).
    rewrite IH.
    + rewrite log_events_log_event. f_equal.
      * f_equal. f_equal. lia.
      * rewrite <- app_assoc. f_equal. rewrite <- map_app. f_equal.
        unfold batch_at.
        replace (100 * S m)%nat with (100 + 100 * m)%nat by lia.
        rewrite <- take_take_drop. f_equal. rewrite drop_drop. f_equal.
        f_equal. lia.
    + lia.
    + intros k Hk. specialize (Hapi (S k)).
      replace (j + S k)%nat with (S j + k)%nat in Hapi by lia.
      cbn [log_event trace]. rewrite length_app. cbn [length].
      replace (length (trace w) + 1 + k)%nat with (length (trace w) + S k)%nat
        by lia.
      apply Hapi. lia.
Qed.

Lemma batch_count_le texts : (batch_count texts <= length texts)%nat.
Proof.
  unfold batch_count.
  pose proof (Nat.div_mod_eq (length texts + 99) 100).
  pose proof (Nat.mod_upper_bound (length texts + 99) 100). lia.
Qed.

Lemma concat_batches texts (m : nat) :
  forall j : nat,
    concat (map (batch_at texts) (seq j m))
    = take (100 * m) (drop (100 * j) texts).
Proof.
  induction m as [|m IH]; intros j.
  - rewrite Nat.mul_0_r, take_0. reflexivity.
  - cbn [seq map concat]. rewrite IH. unfold batch_at.
    replace (100 * S m)%nat with (100 + 100 * m)%nat by lia.
    rewrite <- take_take_drop. f_equal. rewrite drop_drop. f_equal.
    f_equal. lia.
Qed.

Lemma batch_loop_done env fuel texts (i : Z) acc w :
  Zlen texts <= i ->
  batch_loop env (S fuel) texts i acc w = (Ok acc, w).
Proof.
  intros H. cbn [batch_loop].
  destruct (i <? Zlen texts) eqn:E; [exfalso; lia | reflexivity].
Qed.

(** X8: When every request is answered successfully, the texts are sent in
    batches of a hundred, in order, one request per batch: the batches are
    not empty, none has more than a hundred texts, and put one after the
    other they are the texts. *)
Theorem GenerateEmbeddings_sends_batches_of_a_hundred
    (env : Env) (embed : text -> vector) (texts : list text) (w : World) :
  texts <> [] ->
  Zlen texts < 2 ^ 62 ->
  (forall k batch, successful_reply embed batch (embeddings_api env k batch)) ->
  GenerateEmbeddings env texts w
  = (Ok (map embed texts),
     log_events (batch_requests texts 0 (batch_count texts)) w) /\
  concat (map (batch_at texts) (seq 0 (batch_count texts))) = texts /\
  Forall (fun j => (1 <= length (batch_at texts j) <= 100)%nat)
         (seq 0 (batch_count texts)).
Proof.
  intros Hne Hlen Hapi.
  assert (Hall : take (100 * batch_count texts) (drop (100 * 0) texts) = texts).
  { rewrite Nat.mul_0_r, drop_0. apply take_ge.
    destruct (Nat.le_gt_cases (length texts) (100 * batch_count texts))
      as [H | H]; [exact H|].
    apply batch_count_spec in H. lia. }
  split; [|split].
  - unfold GenerateEmbeddings.
    destruct (Zlen texts =? 0) eqn:E.
    { destruct texts; [congruence|]. rewrite Zlen_cons in E.
      pose proof (Zlen_nonneg texts). exfalso. lia. }
    pose proof (batch_count_le texts) as Hle.
    replace (S (length texts))
      with (batch_count texts + S (length texts - batch_count texts))%nat by lia.
    change 0 with (Z.of_nat (100 * 0)).
    rewrite (batch_loop_prefix env embed texts Hlen).
    + rewrite batch_loop_done.
      * rewrite Hall. reflexivity.
      * unfold Zlen.
        destruct (Nat.le_gt_cases (length texts) (100 * batch_count texts))
          as [H | H]; [lia|].
        apply batch_count_spec in H. lia.
    + lia.
    + intros k _. apply Hapi.
  - rewrite concat_batches. exact Hall.
  - apply Forall_forall. intros j Hj. apply elem_of_seq in Hj.
    assert (Hj' : (100 * j < length texts)%nat)
      by (apply batch_count_spec; lia).
    unfold batch_at. rewrite length_take, length_drop. lia.
Qed.

Lemma GenerateEmbeddings_sends_batches_of_a_hundred_witness :
  GenerateEmbeddings (Inputs.env_with Inputs.reversing_api)
                     MoreInputs.two_hundred_and_one_texts Inputs.empty_world
  = (Ok (map Inputs.toy_embed MoreInputs.two_hundred_and_one_texts),
     log_events
       (batch_requests MoreInputs.two_hundred_and_one_texts 0
          (batch_count MoreInputs.two_hundred_and_one_texts))
       Inputs.empty_world) /\
  batch_count MoreInputs.two_hundred_and_one_texts = 3%nat.
Proof.
  split; [|reflexivity].
  apply (GenerateEmbeddings_sends_batches_of_a_hundred
           (Inputs.env_with Inputs.reversing_api) Inputs.toy_embed
           MoreInputs.two_hundred_and_one_texts Inputs.empty_world).
  - discriminate.
  - vm_compute. reflexivity.
  - apply reversing_api_successful.
Defined.

(** X9: When the connection breaks at the request for batch [j], the batches
    before it having been answered successfully, the call fails with an
    error that names batch [j]; the vectors of the batches before are not
    returned, and no later batch is sent. *)
Theorem GenerateEmbeddings_fails_with_the_batch_number
    (env : Env) (embed : text -> vector) (texts : list text) (w : World)
    (j : nat) (e : string) :
  Zlen texts < 2 ^ 62 ->
  (j < batch_count texts)%nat ->
  (forall k, (k < j)%nat ->
     successful_reply embed (batch_at texts k)
       (embeddings_api env (length (trace w) + k) (batch_at texts k))) ->
  embeddings_api env (length (trace w) + j) (batch_at texts j)
  = TransportError e ->
  GenerateEmbeddings env texts w
  = (Err ("failed to generate batch " +:+ show_int (Z.of_nat j)
            +:+ ": request failed: " +:+ e),
     log_events (batch_requests texts 0 (S j)) w).
Proof.
  intros Hlen Hj Hok Hbreak.
  assert (Hj' : (100 * j < length texts)%nat) by (apply batch_count_spec; lia).
  unfold GenerateEmbeddings.
  destruct (Zlen texts =? 0) eqn:E; [unfold Zlen in E; exfalso; lia|].
  pose proof (batch_count_le texts) as Hle.
  replace (S (length texts))
    with (j + S (length texts - j))%nat by lia.
  change 0 with (Z.of_nat (100 * 0)).
  rewrite (batch_loop_prefix env embed texts Hlen); [|lia|exact Hok].
  rewrite Nat.add_0_l. cbn [batch_loop].
  destruct (Z.of_nat (100 * j) <? Zlen texts) eqn:E1.
  2:{ exfalso. apply Z.ltb_ge in E1. unfold Zlen in E1. lia. }
  rewrite (batch_at_slice texts j Hlen Hj').
  erewrite bind_err.
  2:{ apply wrap_err_err. apply generateBatch_transport_failure.
      unfold log_events, batch_requests. cbn [trace].
      rewrite length_app, length_map, length_seq. exact Hbreak. }
  rewrite log_event_log_events. f_equal.
  - rewrite Int64Facts.div_small.
    + unfold batchSize.
      replace (Z.of_nat (100 * j)) with (Z.of_nat j * 100) by lia.
      rewrite Z.quot_mul by lia. reflexivity.
    + unfold batchSize.
      replace (Z.of_nat (100 * j)) with (Z.of_nat j * 100) by lia.
      rewrite Z.quot_mul by lia. unfold Zlen in *. int64.
  - f_equal. unfold batch_requests. rewrite seq_S, map_app. reflexivity.
Qed.

Lemma GenerateEmbeddings_fails_with_the_batch_number_witness :
  GenerateEmbeddings (Inputs.env_with MoreInputs.breaking_api)
                     MoreInputs.two_hundred_and_one_texts Inputs.empty_world
  = (Err "failed to generate batch 1: request failed: connection reset",
     log_events
       (batch_requests MoreInputs.two_hundred_and_one_texts 0 2)
       Inputs.empty_world).
Proof.
  apply (GenerateEmbeddings_fails_with_the_batch_number
           (Inputs.env_with MoreInputs.breaking_api) Inputs.toy_embed
           MoreInputs.two_hundred_and_one_texts Inputs.empty_world 1
           "connection reset").
  - vm_compute. reflexivity.
  - vm_compute. lia.
  - intros k Hk. assert (k = 0%nat) as -> by lia.
    apply reversing_api_successful.
  - reflexivity.
Defined.

(** *** Replies that are not what the contract asks for *)

Lemma lookup_foldl_put_last data :
  forall acc (i : nat),
    Forall (fun d => 0 <= Index d) data ->
    (i < length acc)%nat ->
    foldl put acc data !! i
    = match last (filter (fun d => Index d = Z.of_nat i) data) with
      | Some d => Some (Embedding d)
      | None => acc !! i
      end.
Proof.
  induction data as [|d data IH]; intros acc i Hpos Hi; [reflexivity|].
  inversion Hpos as [|? ? Hd Hrest]; subst.
  cbn [foldl]. rewrite IH by (try assumption; unfold put; rewrite length_insert; exact Hi).
  rewrite filter_cons.
  destruct (decide (Index d = Z.of_nat i)) as [Heq | Hne].
  - rewrite last_cons.
    destruct (last (filter _ data)) as [d'|]; [reflexivity|].
    unfold put. rewrite Heq, Nat2Z.id. apply list_lookup_insert_eq. exact Hi.
  - destruct (last (filter _ data)) as [d'|]; [reflexivity|].
    unfold put. apply list_lookup_insert_ne. lia.
Qed.

(** X10: A reply with status 200 whose indices are all in range is accepted as
    it is: the batch returns as many vectors as the reply has entries,
    however many texts were sent; at each position stands the vector of the
    last entry that names the position, and the empty vector when no entry
    names it. *)
Theorem generateBatch_takes_the_reply_as_it_is
    (env : Env) (texts : list text) (w : World) (raw : string)
    (data : list EmbeddingData) :
  embeddings_api env (length (trace w)) texts = Response 200 raw (Some data) ->
  Forall (fun d => 0 <= Index d < Zlen data) data ->
  exists vs,
    generateBatch env texts w = (Ok vs, log_event (EvHttpEmbeddings texts) w) /\
    length vs = length data /\
    forall i : nat, (i < length data)%nat -> vs !! i = Some (entry_for i data).
Proof.
  intros Hr Hrange.
  exists (foldl put (replicate (length data) []) data).
  split; [|split].
  - unfold generateBatch, attempt_numbers.
    change (seqZ 0 maxRetries) with [0; 1; 2].
    erewrite bind_ok by (apply retry_loop_200; exact Hr).
    unfold lift. rewrite extract_in_range; [reflexivity|].
    eapply Forall_impl; [exact Hrange|]. cbn beta. intros d Hd.
    unfold Zlen in *. rewrite length_replicate. exact Hd.
  - rewrite length_foldl_put. apply length_replicate.
  - intros i Hi. rewrite lookup_foldl_put_last.
    + unfold entry_for.
      destruct (last (filter _ data)) as [d'|]; [reflexivity|].
      cbn. apply lookup_replicate_2. exact Hi.
    + eapply Forall_impl; [exact Hrange|]. cbn beta. intros d Hd. lia.
    + rewrite length_replicate. exact Hi.
Qed.

Lemma generateBatch_takes_the_reply_as_it_is_witness :
  exists vs,
    generateBatch (Inputs.env_with MoreInputs.careless_api)
                  [txt "a"; txt "b"; txt "c"; txt "d"] Inputs.empty_world
    = (Ok vs,
       log_event (EvHttpEmbeddings [txt "a"; txt "b"; txt "c"; txt "d"])
                 Inputs.empty_world) /\
    length vs = 3%nat /\
    vs !! 0%nat = Some [] /\ vs !! 1%nat = Some [9] /\ vs !! 2%nat = Some [8].
Proof.
  destruct (generateBatch_takes_the_reply_as_it_is
              (Inputs.env_with MoreInputs.careless_api)
              [txt "a"; txt "b"; txt "c"; txt "d"] Inputs.empty_world "ok"
              [mkEmbeddingData [7] 1; mkEmbeddingData [8] 2;
               mkEmbeddingData [9] 1])
    as (vs & H1 & H2 & H3).
  - reflexivity.
  - repeat constructor; vm_compute; congruence.
  - exists vs. split; [exact H1|]. split; [exact H2|].
    split; [|split].
    + apply (H3 0%nat). simpl. lia.
    + apply (H3 1%nat). simpl. lia.
    + apply (H3 2%nat). simpl. lia.
Defined.

Lemma extract_stops_at_index_too_large pre d post :
  forall acc,
    Forall (fun d' => 0 <= Index d' < Zlen acc) pre ->
    Zlen acc <= Index d ->
    extract (pre ++ d :: post) acc
    = Err ("invalid embedding index: " +:+ show_int (Index d)).
Proof.
  induction pre as [|d0 pre IH]; intros acc Hpre Hd.
  - apply extract_index_too_large. exact Hd.
  - inversion Hpre as [|? ? Hd0 Hrest]; subst.
    cbn [app extract].
    destruct (Index d0 >=? Zlen acc) eqn:E1; [exfalso; lia|].
    destruct (Index d0 <? 0) eqn:E2; [exfalso; lia|].
    apply IH.
    + eapply Forall_impl; [exact Hrest|]. cbn beta. intros x Hx.
      unfold put, Zlen in *. rewrite length_insert. exact Hx.
    + unfold put, Zlen in *. rewrite length_insert. exact Hd.
Qed.

(** X11: A reply with status 200 in which an entry names a position at or beyond
    the number of entries, the entries before it being in range, makes the
    batch fail with an error that names the index; no vector is returned. *)
Theorem generateBatch_reports_an_index_too_large
    (env : Env) (texts : list text) (w : World) (raw : string)
    (pre post : list EmbeddingData) (d : EmbeddingData) :
  embeddings_api env (length (trace w)) texts
  = Response 200 raw (Some (pre ++ d :: post)) ->
  Forall (fun d' => 0 <= Index d' < Zlen (pre ++ d :: post)) pre ->
  Zlen (pre ++ d :: post) <= Index d ->
  generateBatch env texts w
  = (Err ("invalid embedding index: " +:+ show_int (Index d)),
     log_event (EvHttpEmbeddings texts) w).
Proof.
  intros Hr Hpre Hd.
  unfold generateBatch, attempt_numbers.
  change (seqZ 0 maxRetries) with [0; 1; 2].
  erewrite bind_ok by (apply retry_loop_200; exact Hr).
  unfold lift. rewrite extract_stops_at_index_too_large; [reflexivity| |].
  - eapply Forall_impl; [exact Hpre|]. cbn beta. intros x Hx.
    unfold Zlen in *. rewrite length_replicate. exact Hx.
  - unfold Zlen in *. rewrite length_replicate. exact Hd.
Qed.

Lemma generateBatch_reports_an_index_too_large_witness :
  generateBatch (Inputs.env_with MoreInputs.overshooting_api)
                [txt "a"; txt "b"] Inputs.empty_world
  = (Err "invalid embedding index: 2",
     log_event (EvHttpEmbeddings [txt "a"; txt "b"]) Inputs.empty_world).
Proof.
  apply (generateBatch_reports_an_index_too_large
           (Inputs.env_with MoreInputs.overshooting_api)
           [txt "a"; txt "b"] Inputs.empty_world "ok"
           [mkEmbeddingData [7] 0] [] (mkEmbeddingData [8] 2)).
  - reflexivity.
  - repeat constructor; vm_compute; congruence.
  - vm_compute. congruence.
Defined.

(** X12: A reply with status 200 and no entries makes [GenerateEmbedding] fail
    with "no embeddings returned", after the one request. *)
Theorem GenerateEmbedding_reports_an_empty_reply
    (env : Env) (t : text) (w : World) (raw : string) :
  embeddings_api env (length (trace w)) [t] = Response 200 raw (Some []) ->
  GenerateEmbedding env t w
  = (Err "no embeddings returned", log_event (EvHttpEmbeddings [t]) w).
Proof.
  intros Hr.
  assert (Hbatch : generateBatch env [t] w
                   = (Ok [], log_event (EvHttpEmbeddings [t]) w)).
  { unfold generateBatch, attempt_numbers.
    change (seqZ 0 maxRetries) with [0; 1; 2].
    erewrite bind_ok by (apply retry_loop_200; exact Hr). reflexivity. }
  assert (Hall : GenerateEmbeddings env [t] w
                 = (Ok [], log_event (EvHttpEmbeddings [t]) w)).
  { unfold GenerateEmbeddings.
    change (Zlen [t] =? 0) with false. cbv iota.
    change (length [t]) with 1%nat. cbn [batch_loop].
    change (0 <? Zlen [t]) with true. cbv iota.
    change (slice [t] 0 _) with (Some [t]). cbv iota.
    erewrite bind_ok by (apply wrap_err_ok; exact Hbatch). reflexivity. }
  unfold GenerateEmbedding. erewrite bind_ok by exact Hall. reflexivity.
Qed.

Lemma GenerateEmbedding_reports_an_empty_reply_witness :
  GenerateEmbedding (Inputs.env_with MoreInputs.silent_api) (txt "a")
                    Inputs.empty_world
  = (Err "no embeddings returned",
     log_event (EvHttpEmbeddings [txt "a"]) Inputs.empty_world).
Proof.
  apply (GenerateEmbedding_reports_an_empty_reply
           (Inputs.env_with MoreInputs.silent_api) (txt "a")
           Inputs.empty_world "ok").
  reflexivity.
Defined.

End EmbeddingMore.

(** ** Properties of the repositories *)

Module RepositoryFacts.
Import MonadFacts DocumentRepository QdrantClient VectorRepository RepositorySpec.

Lemma existsb_has_id_false id rows :
  existsb (has_id id) rows = false -> id ∉ map ID rows.
Proof.
  intros H Hin. apply list_elem_of_fmap in Hin as (d & -> & Hd).
  assert (existsb (has_id (ID d)) rows = true); [|congruence].
  apply existsb_exists. exists d. split; [apply list_elem_of_In; exact Hd|].
  unfold has_id. apply String.eqb_refl.
Qed.


Lemma find_has_id_fresh id rows d :
  existsb (has_id id) rows = false -> ID d = id ->
  find (has_id id) (rows ++ [d]) = Some d.
Proof.
  intros H Hd. induction rows as [|r rows IH]; simpl in *.
  - unfold has_id. rewrite Hd, String.eqb_refl. reflexivity.
  - apply orb_false_iff in H as [H1 H2]. rewrite H1. apply IH, H2.
Qed.

(** What [Create] does, by cases on what the database answers. *)
Lemma Create_cases env doc w :
  let k := length (trace w) in
  let w1 := log_event (EvDbInsertDocument (UserID doc) (FileHash doc)) w in
  (exists e, Create env doc w = (Err e, w1)) \/
  (io_error env k = None /\
   existsb (same_user_hash (UserID doc) (FileHash doc)) (documents w) = false /\
   existsb (has_id (new_uuid env k)) (documents w) = false /\
   Create env doc w
   = (Ok (stored_as doc (new_uuid env k) (db_now env k)),
      set_documents
        (documents w ++ [stored_as doc (new_uuid env k) (db_now env k)]) w1)).
Proof.
  intros k w1. unfold Create, wrap_err, bind, io, get. fold k.
  destruct (io_error env k) as [e|]; [left; eexists; reflexivity|].
  cbn [documents log_event].
  destruct (existsb (same_user_hash _ _) (documents w)) eqn:E1;
    [left; eexists; reflexivity|].
  destruct (existsb (has_id _) (documents w)) eqn:E2;
    [left; eexists; reflexivity|].
  right. repeat split; reflexivity.
Qed.

Lemma Create_fresh env doc w :
  io_error env (length (trace w)) = None ->
  (forall d, d ∈ documents w ->
     ~ (UserID d = UserID doc /\ FileHash d = FileHash doc)) ->
  new_uuid env (length (trace w)) ∉ map ID (documents w) ->
  Create env doc w
  = (Ok (stored_as doc (new_uuid env (length (trace w)))
                   (db_now env (length (trace w)))),
     set_documents
       (documents w ++ [stored_as doc (new_uuid env (length (trace w)))
                                  (db_now env (length (trace w)))])
       (log_event (EvDbInsertDocument (UserID doc) (FileHash doc)) w)).
Proof.
  intros Hio Hfresh Hid.
  destruct (Create_cases env doc w) as [[e H] | (_ & _ & _ & H)]; [|exact H].
  exfalso. revert H. unfold Create, wrap_err, bind, io, get. rewrite Hio.
  cbn [documents log_event].
  destruct (existsb (same_user_hash _ _) (documents w)) eqn:E1.
  { apply existsb_exists in E1 as (d & Hd & Hs). exfalso.
    apply (Hfresh d); [apply list_elem_of_In; exact Hd|].
    unfold same_user_hash in Hs. apply andb_true_iff in Hs as [H1 H2].
    split; apply String.eqb_eq; assumption. }
  destruct (existsb (has_id _) (documents w)) eqn:E2.
  { apply existsb_exists in E2 as (d & Hd & Hs). exfalso. apply Hid.
    apply list_elem_of_fmap. exists d. split.
    - unfold has_id in Hs. apply String.eqb_eq in Hs. auto.
    - apply list_elem_of_In. exact Hd. }
  discriminate.
Qed.

(** X13: A document that [Create] has stored is what [GetByID] returns for the
    identifier [Create] gave it: the fields of the document as they were
    passed, with the identifier and the date the database chose. *)
Theorem Create_then_GetByID
    (env : Env) (doc doc' : Document) (w w1 : World) :
  Create env doc w = (Ok doc', w1) ->
  io_error env (length (trace w1)) = None ->
  GetByID env (ID doc') w1
  = (Ok doc', log_event (EvDbSelectDocument (ID doc')) w1) /\
  doc' = stored_as doc (ID doc') (UploadDate doc').
Proof.
  intros Hc Hio.
  destruct (Create_cases env doc w) as [[e H] | (_ & _ & Hid & H)];
    rewrite H in Hc; [discriminate|].
  injection Hc as <- <-. split; [|reflexivity].
  unfold GetByID. rewrite (io_ok _ _ _ Hio).
  cbn [documents log_event set_documents].
  rewrite find_has_id_fresh; [reflexivity | exact Hid | reflexivity].
Qed.

Lemma Create_then_GetByID_witness :
  GetByID (Inputs.env_with Inputs.reversing_api) "doc-0"
    (Create (Inputs.env_with Inputs.reversing_api)
            (mkDocument "" "u2" "b.txt" ".txt" 3 "h2" "u2/h2/b.txt" 1 0)
            Inputs.notes_world).2
  = (Ok (mkDocument "doc-0" "u2" "b.txt" ".txt" 3 "h2" "u2/h2/b.txt" 1 0),
     log_event (EvDbSelectDocument "doc-0")
       (Create (Inputs.env_with Inputs.reversing_api)
               (mkDocument "" "u2" "b.txt" ".txt" 3 "h2" "u2/h2/b.txt" 1 0)
               Inputs.notes_world).2).
Proof.
  apply (Create_then_GetByID
           (Inputs.env_with Inputs.reversing_api)
           (mkDocument "" "u2" "b.txt" ".txt" 3 "h2" "u2/h2/b.txt" 1 0)
           (mkDocument "doc-0" "u2" "b.txt" ".txt" 3 "h2" "u2/h2/b.txt" 1 0)
           Inputs.notes_world).
  - vm_compute. reflexivity.
  - reflexivity.
Defined.



Lemma find_has_id_none id rows :
  existsb (has_id id) rows = false -> find (has_id id) rows = None.
Proof.
  induction rows as [|r rows IH]; simpl; [reflexivity|].
  intros H. apply orb_false_iff in H as [H1 H2]. rewrite H1. apply IH, H2.
Qed.

Lemma existsb_has_id_filter id rows :
  existsb (has_id id) (filter (fun d => has_id id d = false) rows) = false.
Proof.
  induction rows as [|r rows IH]; [reflexivity|].
  rewrite filter_cons. destruct (decide (has_id id r = false)) as [H | H].
  - simpl. rewrite H. exact IH.
  - exact IH.
Qed.

Lemma find_has_id_filter_other id id' rows :
  id' <> id ->
  find (has_id id') (filter (fun d => has_id id d = false) rows)
  = find (has_id id') rows.
Proof.
  intros Hne. induction rows as [|r rows IH]; [reflexivity|].
  rewrite filter_cons. destruct (decide (has_id id r = false)) as [H | H].
  - simpl. rewrite IH. reflexivity.
  - simpl. rewrite IH.
    destruct (has_id id' r) eqn:E; [|reflexivity].
    exfalso. apply Hne. unfold has_id in *.
    apply String.eqb_eq in E. subst id'.
    destruct (String.eqb (ID r) id) eqn:E2; [|congruence].
    apply String.eqb_eq in E2. exact E2.
Qed.

(** X15: When the database answers, [Delete] succeeds exactly on an identifier
    that a row has.  After it has succeeded no row has the identifier, so
    [GetByID] answers "document not found", and the rows with another
    identifier are found as before.  On an identifier that no row has it
    returns "document not found" and leaves the table as it is. *)
Theorem Delete_removes_the_row_and_only_it
    (env : Env) (id : string) (w : World) :
  io_error env (length (trace w)) = None ->
  io_error env (S (length (trace w))) = None ->
  let w' := (Delete env id w).2 in
  (id ∈ map ID (documents w) ->
   (Delete env id w).1 = Ok tt /\
   (GetByID env id w').1 = Err "document not found" /\
   forall id', id' <> id ->
     find (has_id id') (documents w') = find (has_id id') (documents w)) /\
  (id ∉ map ID (documents w) ->
   (Delete env id w).1 = Err "document not found" /\
   documents w' = documents w).
Proof.
  intros Hio1 Hio2 w'. subst w'. unfold Delete.
  erewrite bind_ok by (apply wrap_err_ok, io_ok, Hio1).
  unfold bind, get. cbn [documents log_event].
  destruct (existsb (has_id id) (documents w)) eqn:E; split; intros Hin.
  - cbn [modify fst snd]. split; [reflexivity|]. split.
    + unfold GetByID. rewrite io_ok.
      * cbn [documents log_event set_documents].
        rewrite find_has_id_none by apply existsb_has_id_filter. reflexivity.
      * cbn [trace set_documents log_event]. rewrite length_app, Nat.add_1_r.
        exact Hio2.
    + intros id' Hne. cbn [documents set_documents].
      apply find_has_id_filter_other. exact Hne.
  - exfalso. apply Hin. apply existsb_exists in E as (d & Hd & Hid).
    apply list_elem_of_fmap. exists d. split.
    + unfold has_id in Hid. apply String.eqb_eq in Hid. auto.
    + apply list_elem_of_In. exact Hd.
  - exfalso. apply existsb_has_id_false in E. contradiction.
  - split; reflexivity.
Qed.

Lemma Delete_removes_the_row_and_only_it_witness :
  (Delete (Inputs.env_with Inputs.reversing_api) "doc-1" Inputs.notes_world).1
  = Ok tt /\
  (GetByID (Inputs.env_with Inputs.reversing_api) "doc-1"
     (Delete (Inputs.env_with Inputs.reversing_api) "doc-1"
             Inputs.notes_world).2).1
  = Err "document not found".
Proof.
  destruct (Delete_removes_the_row_and_only_it
              (Inputs.env_with Inputs.reversing_api) "doc-1"
              Inputs.notes_world eq_refl eq_refl) as [H _].
  destruct H as (H1 & H2 & _).
  - apply list_elem_of_here.
  - split; [exact H1 | exact H2].
Defined.

(** *** Collections *)

Lemma string_app_inj_l (p a b : string) : p +:+ a = p +:+ b -> a = b.
Proof.
  induction p as [|c p IH]; simpl; [auto|]. intros [= H]. apply IH, H.
Qed.

Lemma string_app_length (a b : string) :
  String.length (a +:+ b) = (String.length a + String.length b)%nat.
Proof. induction a as [|c a IH]; simpl; [reflexivity | rewrite IH; reflexivity]. Qed.

Lemma string_app_inj_r (a b s : string) : a +:+ s = b +:+ s -> a = b.
Proof.
  revert b. induction a as [|c a IH]; intros [|c' b] H.
  - reflexivity.
  - exfalso. apply (f_equal String.length) in H.
    rewrite !string_app_length in H. simpl in H. lia.
  - exfalso. apply (f_equal String.length) in H.
    rewrite !string_app_length in H. simpl in H. lia.
  - simpl in H. injection H as -> H. f_equal. apply IH, H.
Qed.

Lemma GetCollectionName_injective (u1 u2 : string) :
  GetCollectionName u1 = GetCollectionName u2 -> u1 = u2.
Proof.
  unfold GetCollectionName. intros H.
  apply string_app_inj_l in H. apply string_app_inj_r in H. exact H.
Qed.

(** X16: Two owners never share a collection: different owners have different
    collection names. *)
Theorem owners_have_collections_of_their_own (u1 u2 : string) :
  u1 <> u2 -> GetCollectionName u1 <> GetCollectionName u2.
Proof. intros Hne Heq. apply Hne, GetCollectionName_injective, Heq. Qed.

Lemma owners_have_collections_of_their_own_witness :
  GetCollectionName "u1" <> GetCollectionName "u1_docs".
Proof. apply owners_have_collections_of_their_own. discriminate. Defined.

Lemma CollectionExists_world env name w :
  collections (CollectionExists env name w).2 = collections w.
Proof.
  unfold CollectionExists, bind, wrap_err, io, get.
  destruct (io_error env _); reflexivity.
Qed.

Lemma CreateCollection_keeps env name size w name' c :
  collections w !! name' = Some c ->
  collections (CreateCollection env name size w).2 !! name' = Some c.
Proof.
  intros H. unfold CreateCollection, wrap_err, bind, io, get.
  destruct (io_error env _); [exact H|].
  cbn [collections log_event].
  destruct (collections w !! name) as [c0|] eqn:E; [exact H|].
  cbn [modify snd collections set_collections].
  rewrite lookup_insert_ne; [exact H|]. intros ->. congruence.
Qed.

(** X17: Whatever the vector store answers, [EnsureCollection] never replaces or
    removes a collection that exists, the owner's own included: its vector
    size and its points stay. *)
Theorem EnsureCollection_keeps_what_exists
    (env : Env) (userID : string) (vectorSize : Z) (w : World)
    (name : string) (c : Collection) :
  collections w !! name = Some c ->
  collections (EnsureCollection env userID vectorSize w).2 !! name = Some c.
Proof.
  intros H. unfold EnsureCollection, bind.
  pose proof (CollectionExists_world env (GetCollectionName userID) w) as Hw.
  destruct (CollectionExists env (GetCollectionName userID) w)
    as [[b|e| |] w1]; cbn [snd] in *; try (rewrite Hw; exact H).
  destruct (negb b).
  - apply CreateCollection_keeps. rewrite Hw. exact H.
  - cbn. rewrite Hw. exact H.
Qed.

Lemma EnsureCollection_keeps_what_exists_witness :
  collections
    (EnsureCollection (Inputs.env_with Inputs.reversing_api) "u1" 1536
       (set_collections {[ "user_u1_docs" := mkCollection 3 [] ]}
                        Inputs.empty_world)).2
  !! "user_u1_docs" = Some (mkCollection 3 []).
Proof.
  apply (EnsureCollection_keeps_what_exists
           (Inputs.env_with Inputs.reversing_api) "u1" 1536
           (set_collections {[ "user_u1_docs" := mkCollection 3 [] ]}
                            Inputs.empty_world)
           "user_u1_docs" (mkCollection 3 [])).
  reflexivity.
Defined.

Lemma EnsureCollection_run env userID vectorSize w :
  io_error env (length (trace w)) = None ->
  io_error env (S (length (trace w))) = None ->
  EnsureCollection env userID vectorSize w
  = (Ok tt,
     match collections w !! GetCollectionName userID with
     | Some _ => log_event EvQdrantList w
     | None =>
         set_collections
           (<[GetCollectionName userID := mkCollection vectorSize []]>
              (collections w))
           (log_event (EvQdrantCreate (GetCollectionName userID))
                      (log_event EvQdrantList w))
     end).
Proof.
  intros Hio1 Hio2. unfold EnsureCollection, CollectionExists.
  erewrite bind_ok.
  2:{ erewrite bind_ok by (apply wrap_err_ok, io_ok, Hio1). reflexivity. }
  cbn [collections log_event].
  destruct (collections w !! GetCollectionName userID) as [c|] eqn:E.
  - rewrite bool_decide_eq_true_2 by eauto. reflexivity.
  - rewrite bool_decide_eq_false_2 by (intros [c Hc]; discriminate).
    cbn [negb]. unfold CreateCollection, wrap_err.
    erewrite bind_ok.
    2:{ apply io_ok. cbn [trace log_event].
        rewrite length_app, Nat.add_1_r. exact Hio2. }
    unfold bind, get. cbn [collections log_event]. rewrite E. reflexivity.
Qed.

(** X18: When the vector store answers, [EnsureCollection] succeeds and the
    owner has a collection afterwards: the one that was there, or else a
    new one without points and with the given vector size.  The collections
    of the other owners are as they were. *)
Theorem EnsureCollection_makes_the_owners_collection
    (env : Env) (userID : string) (vectorSize : Z) (w : World) :
  io_error env (length (trace w)) = None ->
  io_error env (S (length (trace w))) = None ->
  let w' := (EnsureCollection env userID vectorSize w).2 in
  (EnsureCollection env userID vectorSize w).1 = Ok tt /\
  collections w' !! GetCollectionName userID
  = Some (default (mkCollection vectorSize [])
                  (collections w !! GetCollectionName userID)) /\
  forall other, other <> userID ->
    collections w' !! GetCollectionName other
    = collections w !! GetCollectionName other.
Proof.
  intros Hio1 Hio2 w'. subst w'.
  rewrite (EnsureCollection_run env userID vectorSize w Hio1 Hio2).
  cbn [fst snd]. split; [reflexivity|].
  destruct (collections w !! GetCollectionName userID) as [c|] eqn:E.
  - cbn [collections log_event default]. split; [exact E | reflexivity].
  - cbn [collections set_collections default]. split.
    + apply lookup_insert_eq.
    + intros other Hne. apply lookup_insert_ne. intros Heq.
      apply Hne. symmetry. apply GetCollectionName_injective. exact Heq.
Qed.

Lemma EnsureCollection_makes_the_owners_collection_witness :
  (EnsureCollection (Inputs.env_with Inputs.reversing_api) "u1" 1536
                    Inputs.empty_world).1 = Ok tt /\
  collections
    (EnsureCollection (Inputs.env_with Inputs.reversing_api) "u1" 1536
                      Inputs.empty_world).2
  !! GetCollectionName "u1" = Some (mkCollection 1536 []).
Proof.
  destruct (EnsureCollection_makes_the_owners_collection
              (Inputs.env_with Inputs.reversing_api) "u1" 1536
              Inputs.empty_world eq_refl eq_refl) as (H1 & H2 & _).
  split; [exact H1 | exact H2].
Defined.

End RepositoryFacts.

(** ** More on the services: what an upload and a query leave behind *)

Module ServiceMore.
Import MonadFacts ChunkerFacts EmbeddingFacts EmbeddingSpec EmbeddingMore.
Import RepositoryFacts RepositorySpec.
Import DocumentRepository VectorRepository DocumentService.

Lemma keeps_True {A} (m : M A) : keeps (fun _ => True) m.
Proof. intros w _. exact I. Qed.

(** *** Building the points *)

Lemma build_points_ok docID userID filename ext chunks embeddings :
  forall i0 : nat,
    (i0 + length embeddings <= length chunks)%nat ->
    exists points,
      build_points docID userID filename ext chunks i0 embeddings = Ok points /\
      length points = length embeddings /\
      forall (j : nat) p,
        points !! j = Some p ->
        exists chunk,
          chunks !! (i0 + j)%nat = Some chunk /\
          embeddings !! j = Some (Vector p) /\
          PointID p = docID +:+ "_chunk_" +:+ show_int (Z.of_nat (i0 + j)) /\
          Payload p = point_payload docID userID filename ext
                                    (Z.of_nat (i0 + j)) chunk.
Proof.
  induction embeddings as [|e rest IH]; intros i0 Hlen.
  - exists []. split; [reflexivity|]. split; [reflexivity|].
    intros j p H. destruct j; discriminate.
  - cbn [build_points]. cbn [length] in Hlen.
    destruct (chunks !! i0) as [chunk|] eqn:E.
    2:{ apply lookup_ge_None in E. lia. }
    destruct (IH (S i0)) as (points & -> & Hl & Hp); [lia|].
    eexists. split; [reflexivity|]. split; [cbn [length]; lia|].
    intros [|j] p H.
    + injection H as <-. exists chunk. rewrite Nat.add_0_r.
      repeat split; try reflexivity. exact E.
    + destruct (Hp j p H) as (c & H1 & H2 & H3 & H4).
      exists c. replace (i0 + S j)%nat with (S i0 + j)%nat by lia.
      repeat split; assumption.
Qed.

Lemma convertToQdrantPayload_point_payload docID userID filename ext i chunk :
  convertToQdrantPayload (point_payload docID userID filename ext i chunk)
  = point_payload docID userID filename ext i chunk.
Proof.
  unfold convertToQdrantPayload. apply map_eq. intros k.
  rewrite lookup_omap.
  destruct (point_payload docID userID filename ext i chunk !! k) as [v|] eqn:E;
    [|reflexivity].
  unfold point_payload in E.
  repeat (apply lookup_insert_Some in E as [[_ <-] | [_ E]]; [reflexivity|]).
  apply lookup_singleton_Some in E as [_ <-]. reflexivity.
Qed.

(** X19: With no more vectors than chunks, the upload builds one point per
    vector, in order: point [j] carries vector [j], the text of chunk [j]
    and the number [j], under the identifier [<document>_chunk_<j>]; the
    conversion to a vector-store payload keeps all six fields of its
    payload. *)
Theorem build_points_one_point_per_vector
    (docID userID filename ext : string) (chunks : list text)
    (embeddings : list vector) :
  (length embeddings <= length chunks)%nat ->
  exists points,
    build_points docID userID filename ext chunks 0 embeddings = Ok points /\
    length points = length embeddings /\
    forall (j : nat) p,
      points !! j = Some p ->
      exists chunk,
        chunks !! j = Some chunk /\
        embeddings !! j = Some (Vector p) /\
        PointID p = docID +:+ "_chunk_" +:+ show_int (Z.of_nat j) /\
        Payload p !! "content" = Some (VString (string_of_list_ascii chunk)) /\
        Payload p !! "chunk_index" = Some (VInt (Z.of_nat j)) /\
        Payload p !! "document_id" = Some (VString docID) /\
        Payload p !! "user_id" = Some (VString userID) /\
        convertToQdrantPayload (Payload p) = Payload p.
Proof.
  intros Hlen.
  destruct (build_points_ok docID userID filename ext chunks embeddings 0%nat)
    as (points & H1 & H2 & H3); [lia|].
  exists points. split; [exact H1|]. split; [exact H2|].
  intros j p Hp. destruct (H3 j p Hp) as (chunk & Hc & He & Hid & Hpay).
  rewrite Nat.add_0_l in *.
  exists chunk. rewrite Hpay.
  repeat split; try assumption;
    try apply convertToQdrantPayload_point_payload; reflexivity.
Qed.

Lemma build_points_one_point_per_vector_witness :
  exists points,
    build_points "doc-1" "u1" "notes.txt" ".txt" [txt "ab"; txt "cd"] 0
                 [[1]; [2]] = Ok points /\
    length points = 2%nat.
Proof.
  destruct (build_points_one_point_per_vector
              "doc-1" "u1" "notes.txt" ".txt" [txt "ab"; txt "cd"] [[1]; [2]])
    as (points & H1 & H2 & _).
  - simpl. lia.
  - exists points. split; [exact H1 | exact H2].
Defined.

Lemma build_points_too_many docID userID filename ext chunks embeddings :
  forall i0 : nat,
    (i0 <= length chunks < i0 + length embeddings)%nat ->
    build_points docID userID filename ext chunks i0 embeddings = Panic.
Proof.
  induction embeddings as [|e rest IH]; intros i0 Hlen; cbn [length] in Hlen;
    [lia|].
  cbn [build_points].
  destruct (chunks !! i0) as [chunk|] eqn:E; [|reflexivity].
  apply lookup_lt_Some in E. rewrite IH by lia. reflexivity.
Qed.

(** X20: With more vectors than chunks, building the points panics: the loop
    runs over the vectors and reads the chunk of the same number. *)
Theorem build_points_panics_on_a_vector_too_many
    (docID userID filename ext : string) (chunks : list text)
    (embeddings : list vector) :
  (length chunks < length embeddings)%nat ->
  build_points docID userID filename ext chunks 0 embeddings = Panic.
Proof. intros H. apply build_points_too_many. lia. Qed.

Lemma build_points_panics_on_a_vector_too_many_witness :
  build_points "doc-1" "u1" "notes.txt" ".txt" [txt "ab"] 0 [[1]; [2]] = Panic.
Proof.
  apply build_points_panics_on_a_vector_too_many. simpl. lia.
Defined.

(** *** Uploads *)

Lemma never_ok_UploadDocument env userID file :
  never_ok (fun _ => True) (UploadDocument env userID file).
Proof.
  unfold UploadDocument.
  destruct (negb _); [apply never_ok_fail|].
  destruct (_ >? _); [apply never_ok_fail|].
  apply never_ok_bind_r; [apply keeps_True|]. intros _.
  apply never_ok_bind_r; [apply keeps_True|]. intros _.
  apply never_ok_bind_r; [apply keeps_True|]. intros text_.
  destruct (Chunker.ChunkText text_ 500 50) as [chunks| |];
    [|apply never_ok_panic | apply never_ok_diverge].
  destruct (Zlen chunks =? 0); [apply never_ok_fail|].
  apply never_ok_bind_r; [apply keeps_True|]. intros embeddings.
  apply never_ok_bind_r; [apply keeps_True|]. intros _.
  apply never_ok_bind_r; [apply keeps_True|]. intros doc.
  apply never_ok_bind_r; [apply keeps_True|]. intros _.
  apply never_ok_bind_r; [apply keeps_True|]. intros points.
  apply never_ok_bind_l, never_ok_wrap_err. unfold InsertVectors.
  apply never_ok_fail.
Qed.

(** X21: No upload succeeds, whatever the file and whatever the outside
    answers: the last step, inserting the vectors, always returns an
    error. *)
Theorem UploadDocument_never_succeeds
    (env : Env) (userID : string) (file : FileHeader) (w : World)
    (doc : Document) :
  (UploadDocument env userID file w).1 <> Ok doc.
Proof. apply (never_ok_UploadDocument env userID file w I). Qed.

(** X22: The first upload of a file: the extension and the size pass, the file
    is not empty, every I/O call goes through, the embedding API answers,
    and neither the (owner, hash) pair nor the new identifier is taken.
    The call still fails, at the insertion of the vectors; by then the
    bytes are in the object store, the metadata row is written with the
    number of chunks, and the owner has a collection.  Nothing of this is
    taken back. *)
Theorem first_upload_fails_and_leaves_its_traces
    (env : Env) (embed : text -> vector) (userID : string)
    (file : FileHeader) (w : World) :
  allowed (ToLower (Ext (fh_Filename file))) = true ->
  Zlen (fh_content file) = fh_Size file ->
  0 < fh_Size file <= maxSize ->
  (forall k, io_error env k = None) ->
  (forall k batch,
     EmbeddingService.successful_reply embed batch (embeddings_api env k batch)) ->
  (forall d, d ∈ documents w ->
     ~ (UserID d = userID /\ FileHash d = sha256_hex env (fh_content file))) ->
  (forall k, new_uuid env k ∉ map ID (documents w)) ->
  let w' := (UploadDocument env userID file w).2 in
  let path :=
    userID +:+ "/" +:+ sha256_hex env (fh_content file) +:+ "/"
           +:+ fh_Filename file in
  (UploadDocument env userID file w).1
  = Err "failed to insert vectors: insert vectors not fully implemented yet" /\
  (exists doc chunks,
     documents w' = documents w ++ [doc] /\
     UserID doc = userID /\
     FileHash doc = sha256_hex env (fh_content file) /\
     StoragePath doc = path /\
     Chunker.ChunkText (fh_content file) 500 50 = Chunker.Returned chunks /\
     TotalChunks doc = Zlen chunks) /\
  objects w' = <[path := fh_content file]> (objects w) /\
  is_Some (collections w' !! GetCollectionName userID).
Proof.
  intros Hal Hsz Hcontent Hio Hapi Hfresh Huuid w' path. subst w'.
  unfold maxSize in Hcontent.
  assert (Hlen : Zlen (fh_content file) < 2 ^ 62) by lia.
  destruct (ChunkText_500_50 _ Hlen) as (chunks & Hchunks & Hrec).
  assert (Hne : chunks <> []).
  { intros ->. unfold Chunker.reconstruct in Hrec. simpl in Hrec.
    rewrite <- Hrec in Hsz. unfold Zlen in Hsz. simpl in Hsz. lia. }
  assert (Hcl : Zlen chunks < 2 ^ 62).
  { pose proof (ChunkText_length _ _ _ _ Hchunks). lia. }
  set (w2 := log_event (EvFileRead (fh_Filename file))
               (log_event (EvFileOpen (fh_Filename file)) w)).
  destruct (GenerateEmbeddings_successful env embed chunks Hcl Hapi w2 Hne)
    as (evs & Hgen & _ & _).
  destruct (build_points_ok
              (new_uuid env (length (trace w2) + length evs + 1))
              userID (fh_Filename file) (ToLower (Ext (fh_Filename file)))
              chunks (map embed chunks) 0%nat)
    as (points & Hpoints & _); [rewrite length_map; lia|].
  unfold UploadDocument. rewrite Hal. change (negb true) with false.
  cbv iota.
  destruct (fh_Size file >? maxSize) eqn:Es;
    [exfalso; unfold maxSize in Es; lia|].
  erewrite bind_ok by (apply wrap_err_ok, io_ok, Hio).
  erewrite bind_ok by (apply wrap_err_ok, io_ok, Hio).
  rewrite (ServiceFacts.extract_text_allowed _ _ Hal).
  erewrite bind_ok by reflexivity.
  rewrite Hchunks.
  destruct (Zlen chunks =? 0) eqn:Ez.
  { destruct chunks; [congruence|]. rewrite Zlen_cons in Ez.
    pose proof (Zlen_nonneg chunks). exfalso. lia. }
  fold w2.
  erewrite bind_ok by (apply wrap_err_ok; exact Hgen).
  unfold StorageDriver.UploadFile.
  erewrite bind_ok;
    [|apply wrap_err_ok; erewrite bind_ok by (apply wrap_err_ok, io_ok, Hio);
      reflexivity].
  erewrite bind_ok.
  2:{ apply wrap_err_ok. apply Create_fresh.
      - apply Hio.
      - exact Hfresh.
      - apply Huuid. }
  match goal with |- context [bind _ _ ?W] => set (w4 := W) end.
  erewrite bind_ok.
  2:{ apply wrap_err_ok. apply EnsureCollection_run; apply Hio. }
  erewrite bind_ok.
  2:{ unfold lift. cbn [ID stored_as trace modify snd set_objects log_event
                        log_events].
      rewrite !length_app. cbn [length]. rewrite Hpoints. reflexivity. }
  erewrite bind_err by (apply wrap_err_err; reflexivity).
  cbn [fst snd].
  destruct (collections w4 !! GetCollectionName userID) as [c|] eqn:E.
  - split; [reflexivity|]. split; [|split].
    + eexists _, chunks. split; [reflexivity|].
      split; [reflexivity|]. split; [reflexivity|]. split; [reflexivity|].
      split; reflexivity.
    + reflexivity.
    + exists c. exact E.
  - split; [reflexivity|]. split; [|split].
    + eexists _, chunks. split; [reflexivity|].
      split; [reflexivity|]. split; [reflexivity|]. split; [reflexivity|].
      split; reflexivity.
    + reflexivity.
    + eexists. cbn [collections set_collections]. apply lookup_insert_eq.
Qed.

Lemma first_upload_fails_and_leaves_its_traces_witness :
  (UploadDocument (Inputs.env_with Inputs.reversing_api) "u1"
                  Inputs.notes_file Inputs.empty_world).1
  = Err "failed to insert vectors: insert vectors not fully implemented yet" /\
  objects (UploadDocument (Inputs.env_with Inputs.reversing_api) "u1"
                          Inputs.notes_file Inputs.empty_world).2
  = <[Inputs.notes_path := Inputs.notes_content]> ∅.
Proof.
  destruct (first_upload_fails_and_leaves_its_traces
              (Inputs.env_with Inputs.reversing_api) Inputs.toy_embed "u1"
              Inputs.notes_file Inputs.empty_world)
    as (H1 & _ & H3 & _).
  - vm_compute. reflexivity.
  - reflexivity.
  - unfold maxSize. simpl. lia.
  - intros k. reflexivity.
  - intros k batch. apply reversing_api_successful.
  - intros d Hd. inversion Hd.
  - intros k Hk. inversion Hk.
  - split; [exact H1 | exact H3].
Defined.

(** X23: A file without bytes is opened and read and then rejected, before
    anything is sent to the embedding API or stored. *)
Theorem UploadDocument_rejects_an_empty_file
    (env : Env) (userID : string) (file : FileHeader) (w : World) :
  allowed (ToLower (Ext (fh_Filename file))) = true ->
  fh_Size file <= maxSize ->
  fh_content file = [] ->
  io_error env (length (trace w)) = None ->
  io_error env (S (length (trace w))) = None ->
  UploadDocument env userID file w
  = (Err "no text content found in document",
     log_events [EvFileOpen (fh_Filename file); EvFileRead (fh_Filename file)] w).
Proof.
  intros Hal Hsz Hempty Hio1 Hio2.
  unfold UploadDocument. rewrite Hal. change (negb true) with false.
  cbv iota.
  destruct (fh_Size file >? maxSize) eqn:Es; [exfalso; lia|].
  erewrite bind_ok by (apply wrap_err_ok, io_ok, Hio1).
  erewrite bind_ok.
  2:{ apply wrap_err_ok, io_ok. cbn [trace log_event].
      rewrite length_app, Nat.add_1_r. exact Hio2. }
  rewrite (ServiceFacts.extract_text_allowed _ _ Hal).
  erewrite bind_ok by reflexivity.
  rewrite Hempty. cbn. unfold fail, log_events, log_event. cbn.
  rewrite <- app_assoc. reflexivity.
Qed.

Lemma UploadDocument_rejects_an_empty_file_witness :
  UploadDocument (Inputs.env_with Inputs.reversing_api) "u1"
                 (mkFileHeader "empty.txt" 0 []) Inputs.empty_world
  = (Err "no text content found in document",
     log_events [EvFileOpen "empty.txt"; EvFileRead "empty.txt"]
                Inputs.empty_world).
Proof.
  apply (UploadDocument_rejects_an_empty_file
           (Inputs.env_with Inputs.reversing_api) "u1"
           (mkFileHeader "empty.txt" 0 []) Inputs.empty_world).
  - vm_compute. reflexivity.
  - vm_compute. discriminate.
  - reflexivity.
  - reflexivity.
  - reflexivity.
Defined.

(** *** Queries *)

Lemma Query_world env userID question w :
  (RAGService.Query env userID question w).2
  = (EmbeddingService.GenerateEmbedding env (txt question) w).2.
Proof.
  unfold RAGService.Query, bind, wrap_err.
  destruct (EmbeddingService.GenerateEmbedding env (txt question) w)
    as [[q|e| |] w1]; reflexivity.
Qed.

Lemma never_ok_Query env userID question :
  never_ok (fun _ => True) (RAGService.Query env userID question).
Proof.
  unfold RAGService.Query.
  apply never_ok_bind_r; [apply keeps_True|]. intros q.
  apply never_ok_bind_l, never_ok_wrap_err. unfold Search.
  apply never_ok_fail.
Qed.

(** X24: Whatever the outside answers, a query does nothing but ask for the
    embedding of the question: the chat API is never called and no row of
    query history is written. *)
Theorem Query_stops_before_the_chat
    (env : Env) (userID question : string) (w : World) :
  exists evs,
    (RAGService.Query env userID question w).2 = log_events evs w /\
    Forall is_request_or_wait evs.
Proof.
  rewrite Query_world.
  apply (requests_GenerateEmbedding env w (txt question) w).
  apply only_requests_and_waits_start.
Qed.

End ServiceMore.

(** ** Properties of the HTTP layer *)

Module HandlerFacts.
Import MonadFacts Middleware ServiceMore EmbeddingSpec.
Import DocumentRepository DocumentService.

(** *** The middleware *)

Lemma Split_space_nonempty s : Split_space s <> [].
Proof.
  induction s as [|c s IH]; simpl; [discriminate|].
  destruct (Ascii.eqb c " "); [discriminate|].
  destruct (Split_space s); [contradiction | discriminate].
Qed.

Lemma Split_space_one s b :
  Split_space s = [b] <-> s = b /\ (" "%char) ∉ b.
Proof.
  revert b. induction s as [|c s IH]; intros b; simpl.
  - split.
    + intros [= <-]. split; [reflexivity | apply not_elem_of_nil].
    + intros [<- _]. reflexivity.
  - destruct (Ascii.eqb c " ") eqn:E.
    + apply Ascii.eqb_eq in E. subst c. split.
      * intros [= _ H]. exfalso. exact (Split_space_nonempty s H).
      * intros [<- H]. exfalso. apply H. apply list_elem_of_here.
    + apply Ascii.eqb_neq in E.
      destruct (Split_space s) as [|p ps] eqn:Es;
        [exfalso; exact (Split_space_nonempty s Es)|].
      split.
      * intros [= <- ->]. destruct (proj1 (IH p) eq_refl) as [-> Hp].
        split; [reflexivity|]. apply not_elem_of_cons. split; [congruence | exact Hp].
      * intros [<- H]. apply not_elem_of_cons in H as [_ H].
        pose proof (proj2 (IH s) (conj eq_refl H)) as Heq.
        injection Heq as -> ->. reflexivity.
Qed.

Lemma Split_space_two s a b :
  Split_space s = [a; b] <->
  s = a ++ (" "%char) :: b /\ ((" "%char) ∉ a) /\ ((" "%char) ∉ b).
Proof.
  revert a. induction s as [|c s IH]; intros a; simpl.
  - split; [discriminate|]. intros [H _]. destruct a; discriminate.
  - destruct (Ascii.eqb c " ") eqn:E.
    + apply Ascii.eqb_eq in E. subst c. split.
      * intros [= <- H]. apply Split_space_one in H as [-> Hb].
        split; [reflexivity|]. split; [apply not_elem_of_nil | exact Hb].
      * intros (H & Ha & Hb). destruct a as [|c a].
        -- simpl in H. injection H as ->.
           rewrite (proj2 (Split_space_one b b) (conj eq_refl Hb)). reflexivity.
        -- simpl in H. injection H as <- _. exfalso. apply Ha.
           apply list_elem_of_here.
    + apply Ascii.eqb_neq in E.
      destruct (Split_space s) as [|p ps] eqn:Es;
        [exfalso; exact (Split_space_nonempty s Es)|].
      split.
      * intros [= <- ->]. destruct (proj1 (IH p) eq_refl) as (-> & Hp & Hb).
        split; [reflexivity|]. split; [|exact Hb].
        apply not_elem_of_cons. split; [congruence | exact Hp].
      * intros (H & Ha & Hb). destruct a as [|c' a].
        -- simpl in H. injection H as -> _. congruence.
        -- simpl in H. injection H as <- ->.
           apply not_elem_of_cons in Ha as [_ Ha].
           pose proof (proj2 (IH a) (conj eq_refl (conj Ha Hb))) as H.
           injection H as <- <-. reflexivity.
Qed.

Lemma string_of_list_ascii_inj a b :
  string_of_list_ascii a = string_of_list_ascii b -> a = b.
Proof.
  intros H. apply (f_equal list_ascii_of_string) in H.
  rewrite !list_ascii_of_string_of_list_ascii in H. exact H.
Qed.

Lemma list_ascii_of_string_app a b :
  list_ascii_of_string (a +:+ b)
  = list_ascii_of_string a ++ list_ascii_of_string b.
Proof. induction a as [|c a IH]; simpl; [reflexivity | rewrite IH; reflexivity]. Qed.

(** X25: The middleware lets a request through exactly when its
    [Authorization] header is the word [Bearer], one space, and a token
    without a space that parses under the secret; the handlers that follow
    then read the user id of the token's claims.  Every other request is
    answered with status 401. *)
Theorem AuthRequired_passes_exactly_bearer_tokens
    (jwt_parse : string -> string -> option Claims) (jwtSecret : string)
    (c : Ctx) :
  (forall c',
     AuthRequired jwt_parse jwtSecret c = inr c' <->
     exists token claims,
       header_Authorization c = "Bearer " +:+ token /\
       ((" "%char) ∉ list_ascii_of_string token) /\
       jwt_parse jwtSecret token = Some claims /\
       c' = set_locals (claims_UserID claims) (claims_Email claims) c /\
       GetUserID c' = claims_UserID claims) /\
  (forall reply,
     AuthRequired jwt_parse jwtSecret c = inl reply -> reply_status reply = 401).
Proof.
  split.
  - intros c'. unfold AuthRequired. split.
    + destruct (String.eqb (header_Authorization c) ""); [discriminate|].
      destruct (Split_space _) as [|scheme [|tokenString [|? ?]]] eqn:Es;
        try discriminate.
      destruct (String.eqb (string_of_list_ascii scheme) "Bearer") eqn:Eb;
        [|discriminate].
      cbn [negb].
      destruct (jwt_parse jwtSecret (string_of_list_ascii tokenString))
        as [claims|] eqn:Ep; [|discriminate].
      intros [= <-]. exists (string_of_list_ascii tokenString), claims.
      apply Split_space_two in Es as (Hs & _ & Ht).
      apply String.eqb_eq in Eb.
      assert (Hscheme : scheme = list_ascii_of_string "Bearer").
      { apply string_of_list_ascii_inj.
        rewrite string_of_list_ascii_of_string. exact Eb. }
      split; [|split; [|split; [exact Ep | split; reflexivity]]].
      * rewrite <- (string_of_list_ascii_of_string (header_Authorization c)).
        rewrite Hs, Hscheme.
        rewrite <- (string_of_list_ascii_of_string ("Bearer " +:+ _)).
        f_equal. rewrite list_ascii_of_string_app.
        rewrite list_ascii_of_string_of_list_ascii. reflexivity.
      * rewrite list_ascii_of_string_of_list_ascii. exact Ht.
    + intros (token & claims & Hh & Ht & Hp & -> & _).
      rewrite Hh.
      change (String.eqb ("Bearer " +:+ token) "") with false. cbv iota.
      rewrite list_ascii_of_string_app.
      rewrite (proj2 (Split_space_two
                        (list_ascii_of_string "Bearer " ++ list_ascii_of_string token)
                        (list_ascii_of_string "Bearer")
                        (list_ascii_of_string token))).
      * rewrite !string_of_list_ascii_of_string.
        change (negb (String.eqb "Bearer" "Bearer")) with false. cbv iota.
        rewrite Hp. reflexivity.
      * split; [reflexivity|]. split; [|exact Ht].
        intros H. cbn in H.
        repeat (apply elem_of_cons in H as [H | H]; [discriminate|]).
        inversion H.
  - intros reply. unfold AuthRequired.
    destruct (String.eqb (header_Authorization c) ""); [intros [= <-]; reflexivity|].
    destruct (Split_space _) as [|scheme [|tokenString [|? ?]]];
      try (intros [= <-]; reflexivity).
    destruct (negb _); [intros [= <-]; reflexivity|].
    destruct (jwt_parse _ _); [discriminate | intros [= <-]; reflexivity].
Qed.

(** What the middleware makes of four headers: a bearer token that
    parses, the same with two spaces, with a lower-case scheme, and with a
    token that does not parse. *)
Example AuthRequired_values :
  AuthRequired HandlerInputs.toy_parse "secret"
               (HandlerInputs.request "Bearer u1")
  = inr (set_locals "u1" "u1@example.org" (HandlerInputs.request "Bearer u1")) /\
  AuthRequired HandlerInputs.toy_parse "secret"
               (HandlerInputs.request "Bearer  u1")
  = inl (mkReply 401 (ErrorJSON "invalid authorization header format")) /\
  AuthRequired HandlerInputs.toy_parse "secret"
               (HandlerInputs.request "bearer u1")
  = inl (mkReply 401 (ErrorJSON "invalid authorization header format")) /\
  AuthRequired HandlerInputs.toy_parse "secret"
               (HandlerInputs.request "Bearer u2")
  = inl (mkReply 401 (ErrorJSON "invalid or expired token")).
Proof. repeat split; vm_compute; reflexivity. Qed.

(** *** The handlers *)

(** A request without a user id, as the middleware leaves none for a
    request it did not let through, is answered with status 401 and
    "unauthorized" by every handler, before anything is done. *)
Lemma handlers_answer_401_without_a_user (env : Env) (c : Ctx) (w : World) :
  GetUserID c = "" ->
  let unauthorized := (Ok (mkReply 401 (ErrorJSON "unauthorized")), w) in
  DocumentHandler.Upload env c w = unauthorized /\
  DocumentHandler.Get env c w = unauthorized /\
  DocumentHandler.Delete env c w = unauthorized /\
  QueryHandler.Query env c w = unauthorized /\
  QueryHandler.StreamQuery env c w = unauthorized.
Proof.
  intros H. unfold DocumentHandler.Upload, DocumentHandler.Get,
    DocumentHandler.Delete, QueryHandler.Query, QueryHandler.StreamQuery.
  rewrite H. repeat split; reflexivity.
Qed.

Lemma GetDocument_outcome env userID documentID w :
  (exists e, (GetDocument env userID documentID w).1 = Err e) \/
  (exists d, (GetDocument env userID documentID w).1 = Ok d /\
             find (has_id documentID) (documents w) = Some d /\
             UserID d = userID).
Proof.
  unfold GetDocument, bind, GetByID, io.
  destruct (io_error env _); cbn; [left; eauto|].
  destruct (find (has_id documentID) (documents w)) as [d|] eqn:E;
    [|left; eauto].
  destruct (String.eqb (UserID d) userID) eqn:Eu; cbn; [|left; eauto].
  right. exists d. split; [reflexivity|]. split; [reflexivity|].
  apply String.eqb_eq. exact Eu.
Qed.

(** X26: [Get] always answers, and it answers with a document only when the
    document is a row with the requested identifier that belongs to the
    caller; then the status is 200.  For a request with a user id and a
    document identifier, every failure of the lookup is answered with
    status 404 and the error of the lookup: an error of the database, no
    row with the identifier ("document not found"), and a row of another
    owner ("unauthorized").  Nothing is done but the one SELECT. *)
Theorem Get_shows_only_the_callers_documents
    (env : Env) (c : Ctx) (w : World) :
  (exists reply,
     (DocumentHandler.Get env c w).1 = Ok reply /\
     (reply_status reply = 200 \/ reply_status reply = 400 \/
      reply_status reply = 401 \/ reply_status reply = 404) /\
     (forall d, reply_body reply = DocumentJSON d ->
        reply_status reply = 200 /\
        d ∈ documents w /\ ID d = params_id c /\ UserID d = GetUserID c)) /\
  (GetUserID c <> "" -> params_id c <> "" ->
   let w1 := log_event (EvDbSelectDocument (params_id c)) w in
   (forall e,
      io_error env (length (trace w)) = Some e ->
      DocumentHandler.Get env c w
      = (Ok (mkReply 404 (ErrorJSON ("failed to get document: " +:+ e))), w1)) /\
   (io_error env (length (trace w)) = None ->
    (find (has_id (params_id c)) (documents w) = None ->
     DocumentHandler.Get env c w
     = (Ok (mkReply 404 (ErrorJSON "document not found")), w1)) /\
    (forall d,
       find (has_id (params_id c)) (documents w) = Some d ->
       (UserID d <> GetUserID c ->
        DocumentHandler.Get env c w
        = (Ok (mkReply 404 (ErrorJSON "unauthorized")), w1)) /\
       (UserID d = GetUserID c ->
        DocumentHandler.Get env c w
        = (Ok (mkReply 200 (DocumentJSON d)), w1))))).
Proof.
  split.
  - unfold DocumentHandler.Get.
    destruct (String.eqb (GetUserID c) "") eqn:Eu;
      [eexists; split; [reflexivity|]; split; [auto | discriminate]|].
    destruct (String.eqb (params_id c) "") eqn:Ei;
      [eexists; split; [reflexivity|]; split; [auto | discriminate]|].
    unfold bind, attempt.
    destruct (GetDocument_outcome env (GetUserID c) (params_id c) w)
      as [[e H] | (d & H & Hfind & Hown)].
    + destruct (GetDocument env (GetUserID c) (params_id c) w) as [r w1].
      cbn in H. subst r. eexists. split; [reflexivity|].
      split; [auto | discriminate].
    + destruct (GetDocument env (GetUserID c) (params_id c) w) as [r w1].
      cbn in H. subst r. eexists. split; [reflexivity|]. split; [auto|].
      intros d' [= <-]. apply find_some in Hfind as [Hin Hid].
      split; [reflexivity|].
      split; [apply list_elem_of_In; exact Hin|].
      split; [apply String.eqb_eq; exact Hid | exact Hown].
  - intros Hu Hi w1. apply String.eqb_neq in Hu. apply String.eqb_neq in Hi.
    unfold DocumentHandler.Get. rewrite Hu, Hi.
    unfold bind, attempt, GetDocument, bind, GetByID, io. split.
    + intros e He. rewrite He. reflexivity.
    + intros Hio. rewrite Hio. cbn [documents log_event]. split.
      * intros Hnone. rewrite Hnone. reflexivity.
      * intros d Hfind. rewrite Hfind. split.
        -- intros Hother. apply String.eqb_neq in Hother. rewrite Hother.
           reflexivity.
        -- intros Hown. apply String.eqb_eq in Hown. rewrite Hown.
           reflexivity.
Qed.

(** The reply to a request for another owner's document, when the database
    answers: status 404 and the error "unauthorized". *)
Lemma Get_shows_only_the_callers_documents_witness :
  DocumentHandler.Get (Inputs.env_with Inputs.reversing_api)
    (mkCtx "Bearer u2" (Some (VString "u2")) None "doc-1" None None)
    Inputs.notes_world
  = (Ok (mkReply 404 (ErrorJSON "unauthorized")),
     log_event (EvDbSelectDocument "doc-1") Inputs.notes_world).
Proof.
  destruct (Get_shows_only_the_callers_documents
              (Inputs.env_with Inputs.reversing_api)
              (mkCtx "Bearer u2" (Some (VString "u2")) None "doc-1" None None)
              Inputs.notes_world) as [_ H].
  destruct H as [_ H]; [discriminate | discriminate |].
  destruct (H eq_refl) as [_ H'].
  destruct (H' Inputs.notes_doc eq_refl) as [H'' _].
  apply H''. discriminate.
Defined.

Lemma DeleteDocument_errs env userID documentID w :
  exists e, (DeleteDocument env userID documentID w).1 = Err e.
Proof.
  unfold DeleteDocument, DeleteDocument_with, bind.
  destruct (GetDocument_outcome env userID documentID w)
    as [[e H] | (d & H & _)].
  - destruct (GetDocument env userID documentID w) as [r w1].
    cbn in H. subst r. eauto.
  - destruct (GetDocument env userID documentID w) as [r w1].
    cbn in H. subst r.
    unfold StorageDriver.DeleteFile, VectorRepository.DeleteByDocumentID,
      wrap_err, bind, io, fail.
    destruct (io_error env _); cbn; eauto.
Qed.

(** X27: No handler reports success for an upload, a deletion or a query.
    [Delete] always answers, with status 401, 400 or 500 and never with
    "document deleted successfully"; [Upload], when it answers, answers
    with status 401 or 400 and never with 201; [Query], when it answers,
    answers with status 401, 400 or 500 and never with an answer. *)
Theorem no_handler_reports_success (env : Env) (c : Ctx) (w : World) :
  (exists reply e,
     (DocumentHandler.Delete env c w).1 = Ok reply /\
     reply_body reply = ErrorJSON e /\
     (reply_status reply = 401 \/ reply_status reply = 400 \/
      reply_status reply = 500)) /\
  (forall reply,
     (DocumentHandler.Upload env c w).1 = Ok reply ->
     (exists e, reply_body reply = ErrorJSON e) /\
     (reply_status reply = 401 \/ reply_status reply = 400)) /\
  (forall reply,
     (QueryHandler.Query env c w).1 = Ok reply ->
     (exists e, reply_body reply = ErrorJSON e) /\
     (reply_status reply = 401 \/ reply_status reply = 400 \/
      reply_status reply = 500)).
Proof.
  split; [|split].
  - unfold DocumentHandler.Delete.
    destruct (String.eqb (GetUserID c) "");
      [eexists _, _; split; [reflexivity|]; split; [reflexivity | auto]|].
    destruct (String.eqb (params_id c) "");
      [eexists _, _; split; [reflexivity|]; split; [reflexivity | auto]|].
    unfold bind, attempt.
    destruct (DeleteDocument_errs env (GetUserID c) (params_id c) w) as [e H].
    destruct (DeleteDocument env (GetUserID c) (params_id c) w) as [r w1].
    cbn in H. subst r.
    eexists _, _. split; [reflexivity|]. split; [reflexivity | auto].
  - intros reply. unfold DocumentHandler.Upload.
    destruct (String.eqb (GetUserID c) "");
      [intros [= <-]; split; [eexists; reflexivity | auto]|].
    destruct (form_file c) as [file|];
      [|intros [= <-]; split; [eexists; reflexivity | auto]].
    unfold bind, attempt.
    pose proof (never_ok_UploadDocument env (GetUserID c) file w I) as Hn.
    destruct (UploadDocument env (GetUserID c) file w) as [[doc|e| |] w1];
      cbn in *; try discriminate.
    + exfalso. apply (Hn doc). reflexivity.
    + intros [= <-]. split; [eexists; reflexivity | auto].
  - intros reply. unfold QueryHandler.Query.
    destruct (String.eqb (GetUserID c) "");
      [intros [= <-]; split; [eexists; reflexivity | auto]|].
    destruct (body_question c) as [question|];
      [|intros [= <-]; split; [eexists; reflexivity | auto]].
    destruct (String.eqb question "");
      [intros [= <-]; split; [eexists; reflexivity | auto]|].
    unfold bind, attempt.
    pose proof (never_ok_Query env (GetUserID c) question w I) as Hn.
    destruct (RAGService.Query env (GetUserID c) question w)
      as [[a|e| |] w1]; cbn in *; try discriminate.
    + exfalso. apply (Hn a). reflexivity.
    + intros [= <-]. split; [eexists; reflexivity | auto].
Qed.

Lemma no_handler_reports_success_witness :
  exists e,
    (DocumentHandler.Upload (Inputs.env_with Inputs.reversing_api)
       (HandlerInputs.request_of_u1 "" (Some Inputs.notes_file) None)
       Inputs.notes_world).1
    = Ok (mkReply 400 (ErrorJSON e)).
Proof.
  destruct (no_handler_reports_success
              (Inputs.env_with Inputs.reversing_api)
              (HandlerInputs.request_of_u1 "" (Some Inputs.notes_file) None)
              Inputs.notes_world) as (_ & H & _).
  destruct (H (mkReply 400 (ErrorJSON "failed to create document record: failed to create document: pq: duplicate key value violates unique constraint unique_user_file_hash")))
    as [[e He] _].
  - vm_compute. reflexivity.
  - exists e. rewrite <- He. vm_compute. reflexivity.
Defined.

End HandlerFacts.

(** ** Properties of the chunker by words *)

Module WordChunkerFacts.
Import Chunker WordChunker ChunkerFacts.

(** Fields of a text with ASCII blanks, with a no-break space (C2 A0) and
    with a byte that is not UTF-8 (FF), which is no space. *)
Example FieldsFunc_values :
  FieldsFunc (txt "  go is   fun ") IsSpace = [txt "go"; txt "is"; txt "fun"] /\
  FieldsFunc ("a"%char :: ascii_of_nat 194 :: ascii_of_nat 160 :: [ "b"%char ])
             IsSpace = [txt "a"; txt "b"] /\
  FieldsFunc ("a"%char :: ascii_of_nat 255 :: [ "b"%char ]) IsSpace
  = ["a"%char :: ascii_of_nat 255 :: [ "b"%char ]].
Proof. repeat split; vm_compute; reflexivity. Qed.

Example ChunkText_ten_words :
  ChunkText (txt "a b c d e f g h i j") 4 1
  = Returned [txt "a b c d"; txt "d e f g"; txt "g h i j"].
Proof. vm_compute. reflexivity. Qed.

Lemma window_loop_S fuel words chunkSize overlap i chunks :
  window_loop (S fuel) words chunkSize overlap i chunks
  = if i <? Zlen words then
      let end0 := Int64.add i chunkSize in
      let end_ := if end0 >? Zlen words then Zlen words else end0 in
      match slice words i end_ with
      | None => Panicked
      | Some window =>
          let chunks' := chunks ++ [Join window (txt " ")] in
          if end_ =? Zlen words then Returned chunks'
          else
            window_loop fuel words chunkSize overlap
                        (Int64.add i (Int64.sub chunkSize overlap)) chunks'
      end
    else Returned chunks.
Proof. reflexivity. Qed.

Section Windows.

Variables (L O : Z).
Hypothesis HO : 0 <= O < L.

Variables (size step : nat).
Hypothesis Hsize : size = Z.to_nat L.
Hypothesis Hstep : step = Z.to_nat (L - O).

Lemma windows_tail (fuel : nat) :
  forall ws : list text,
    (Z.to_nat O < length ws <= fuel)%nat ->
    concat (map (drop (Z.to_nat O)) (windows fuel ws size step))
    = drop (Z.to_nat O) ws.
Proof.
  induction fuel as [|fuel IH]; intros ws Hlen; [lia|].
  cbn [windows map concat].
  destruct (length ws <=? size)%nat eqn:E.
  - apply Nat.leb_le in E. cbn [map concat]. rewrite app_nil_r.
    rewrite take_ge by lia. reflexivity.
  - apply Nat.leb_gt in E. rewrite IH.
    + rewrite drop_drop.
      replace (step + Z.to_nat O)%nat with size by lia.
      rewrite <- (take_drop size ws) at 3.
      rewrite drop_app_le by (rewrite length_take; lia). reflexivity.
    + rewrite length_drop. lia.
Qed.

Lemma windows_rejoin (fuel : nat) (ws : list text) :
  (1 <= length ws <= fuel)%nat ->
  match windows fuel ws size step with
  | [] => []
  | w0 :: rest => w0 ++ concat (map (drop (Z.to_nat O)) rest)
  end = ws.
Proof.
  intros Hlen. destruct fuel as [|fuel]; [lia|]. cbn [windows].
  destruct (length ws <=? size)%nat eqn:E.
  - apply Nat.leb_le in E. cbn [map concat]. rewrite app_nil_r.
    apply take_ge. lia.
  - apply Nat.leb_gt in E. rewrite windows_tail.
    + rewrite drop_drop.
      replace (step + Z.to_nat O)%nat with size by lia.
      apply take_drop.
    + rewrite length_drop. lia.
Qed.

Lemma windows_sizes (fuel : nat) :
  forall ws : list text,
    (1 <= length ws)%nat ->
    Forall (fun w => (1 <= length w <= size)%nat) (windows fuel ws size step).
Proof.
  induction fuel as [|fuel IH]; intros ws Hlen; [constructor|].
  cbn [windows]. constructor.
  - rewrite length_take. lia.
  - destruct (length ws <=? size)%nat eqn:E; [constructor|].
    apply Nat.leb_gt in E. apply IH. rewrite length_drop.
    lia.
Qed.

Lemma window_loop_windows (words : list text) :
  Int64.in_range L ->
  Zlen words < 2 ^ 62 ->
  forall (fuel : nat) (i : nat) chunks,
    (1 <= length words - i <= fuel)%nat ->
    i = 0%nat \/ L < Zlen words ->
    window_loop (S fuel) words L O (Z.of_nat i) chunks
    = Returned
        (chunks ++ map (fun w => Join w (txt " "))
                       (windows fuel (drop i words) size step)).
Proof.
  intros HL Hn. induction fuel as [|fuel IH]; intros i chunks Hi Hi0; [lia|].
  rewrite window_loop_S. cbv zeta.
  destruct (Z.of_nat i <? Zlen words) eqn:E.
  2:{ exfalso. apply Z.ltb_ge in E. unfold Zlen in E. lia. }
  assert (Hadd : Int64.add (Z.of_nat i) L = Z.of_nat i + L).
  { apply Int64Facts.add_small. destruct Hi0 as [-> | HLn].
    - rewrite Z.add_0_l. exact HL.
    - unfold Zlen in *. int64. }
  rewrite Hadd. cbn [windows map].
  destruct (Z_le_gt_dec (Zlen words) (Z.of_nat i + L)) as [Hlast | Hmore].
  - (* the window reaches the last word *)
    assert (Hend : (if Z.of_nat i + L >? Zlen words
                    then Zlen words else Z.of_nat i + L) = Zlen words).
    { destruct (Z.of_nat i + L >? Zlen words) eqn:E2; [reflexivity | lia]. }
    rewrite Hend, Z.eqb_refl.
    rewrite slice_Some by (unfold Zlen in *; lia).
    replace (length (drop i words) <=? size)%nat with true.
    2:{ symmetry. apply Nat.leb_le. rewrite length_drop.
        unfold Zlen in *. lia. }
    rewrite Nat2Z.id. cbn [map]. do 3 f_equal.
    rewrite !take_ge; [reflexivity | |];
      rewrite length_drop; unfold Zlen in *; lia.
  - assert (Hend : (if Z.of_nat i + L >? Zlen words
                    then Zlen words else Z.of_nat i + L) = Z.of_nat i + L).
    { destruct (Z.of_nat i + L >? Zlen words) eqn:E2; [lia | reflexivity]. }
    rewrite Hend.
    destruct (Z.of_nat i + L =? Zlen words) eqn:E3; [exfalso; lia|].
    rewrite slice_Some by (unfold Zlen in *; lia).
    replace (length (drop i words) <=? size)%nat with false.
    2:{ symmetry. apply Nat.leb_gt. rewrite length_drop.
        unfold Zlen in *. lia. }
    rewrite Int64Facts.sub_small
      by (unfold Int64.in_range, Int64.min_int, Int64.max_int in *; lia).
    rewrite Int64Facts.add_small by (unfold Zlen in *; int64).
    replace (Z.of_nat i + (L - O)) with (Z.of_nat (i + step))
      by lia.
    rewrite IH.
    + rewrite <- app_assoc. cbn [app map]. rewrite Nat2Z.id.
      rewrite drop_drop. do 4 f_equal.
      * f_equal. lia.
    + unfold Zlen in *. lia.
    + right. lia.
Qed.

End Windows.

(** X28: For every chunk size in range and every overlap from 0 to below the
    chunk size, the chunker by words returns for every text that has a
    word: the chunks are the windows of [chunkSize] words, each starting
    [chunkSize - overlap] words after the one before and ending with the
    first that reaches the last word, joined by single spaces.  Every
    window has between one and [chunkSize] words, and the windows, each
    without its first [overlap] words except the first, put one after the
    other are the words of the text. *)
Theorem ChunkText_joins_windows_of_words (t : text) (L O : Z) :
  0 <= O < L ->
  Int64.in_range L ->
  Zlen (FieldsFunc t IsSpace) < 2 ^ 62 ->
  FieldsFunc t IsSpace <> [] ->
  let words := FieldsFunc t IsSpace in
  let ws := windows (length words) words (Z.to_nat L) (Z.to_nat (L - O)) in
  ChunkText t L O = Returned (map (fun w => Join w (txt " ")) ws) /\
  Forall (fun w => 1 <= Zlen w <= L) ws /\
  match ws with
  | [] => []
  | w0 :: rest => w0 ++ concat (map (drop (Z.to_nat O)) rest)
  end = words.
Proof.
  intros HO HL Hn Hne words ws. subst ws. fold words in Hn, Hne.
  assert (Hlen : (1 <= length words)%nat).
  { destruct words; [congruence | simpl; lia]. }
  split; [|split].
  - unfold ChunkText, ChunkText_fuel. fold words.
    destruct (Zlen words =? 0) eqn:E;
      [exfalso; apply Z.eqb_eq in E; unfold Zlen in E; lia|].
    change 0 with (Z.of_nat 0).
    rewrite (window_loop_windows L O HO _ _ eq_refl eq_refl words HL Hn);
      [reflexivity | lia | auto].
  - eapply Forall_impl;
      [apply (windows_sizes L O HO _ _ eq_refl eq_refl); exact Hlen|].
    cbn beta. intros w Hw. unfold Zlen. lia.
  - apply (windows_rejoin L O HO _ _ eq_refl eq_refl). lia.
Qed.

Lemma ChunkText_joins_windows_of_words_witness :
  ChunkText (txt "a b c d e f g h i j") 4 1
  = Returned
      (map (fun w => Join w (txt " "))
           (windows 10 (map (fun c => [c]) (txt "abcdefghij")) 4 3)).
Proof.
  destruct (ChunkText_joins_windows_of_words (txt "a b c d e f g h i j") 4 1)
    as (H & _).
  - lia.
  - unfold Int64.in_range, Int64.min_int, Int64.max_int. lia.
  - vm_compute. reflexivity.
  - vm_compute. discriminate.
  - exact H.
Defined.

Lemma FieldsFunc_loop_blank (t : text) :
  Forall (fun c => ascii_space c = true) t ->
  FieldsFunc_loop IsSpace t 0 None [] = [].
Proof.
  induction 1 as [|c t Hc _ IH]; [reflexivity|].
  cbn [FieldsFunc_loop DecodeRune].
  assert (Hb : (byte c <? 0x80) = true).
  { unfold ascii_space, in_range in Hc. apply Z.ltb_lt.
    apply orb_true_iff in Hc as [Hc | Hc].
    - apply andb_true_iff in Hc as [_ Hc]. apply Z.leb_le in Hc. lia.
    - apply Z.eqb_eq in Hc. lia. }
  rewrite Hb.
  assert (Hs : IsSpace (byte c) = true).
  { unfold IsSpace. unfold ascii_space in Hc.
    apply orb_true_iff in Hc as [Hc | Hc]; rewrite Hc;
      [reflexivity | rewrite orb_true_r; reflexivity]. }
  rewrite Hs. exact IH.
Qed.

(** X29: A text of nothing but ASCII white space, the empty text included, has
    no word, and the chunker by words returns no chunk for it, whatever the
    chunk size and the overlap. *)
Theorem ChunkText_of_blanks_is_no_chunk (t : text) (L O : Z) :
  Forall (fun c => ascii_space c = true) t ->
  ChunkText t L O = Returned [].
Proof.
  intros H. unfold ChunkText, ChunkText_fuel, FieldsFunc.
  rewrite (FieldsFunc_loop_blank t H). reflexivity.
Qed.

Lemma ChunkText_of_blanks_is_no_chunk_witness :
  ChunkText [" "%char; LF; " "%char] 0 7 = Returned [].
Proof.
  apply ChunkText_of_blanks_is_no_chunk.
  repeat constructor.
Defined.

Lemma window_loop_stuck (words : list text) (L : Z) :
  0 < L < Zlen words ->
  Zlen words < 2 ^ 62 ->
  forall fuel chunks, window_loop fuel words L L 0 chunks = OutOfFuel.
Proof.
  intros HL Hn. induction fuel as [|fuel IH]; intros chunks; [reflexivity|].
  rewrite window_loop_S. cbv zeta.
  destruct (0 <? Zlen words) eqn:E; [|exfalso; lia].
  rewrite Int64Facts.add_small by (rewrite Z.add_0_l; int64).
  rewrite Z.add_0_l.
  destruct (L >? Zlen words) eqn:E1; [exfalso; lia|].
  rewrite slice_Some by lia.
  destruct (L =? Zlen words) eqn:E2; [exfalso; lia|].
  rewrite Int64Facts.sub_small by (rewrite Z.sub_diag; int64).
  rewrite Z.sub_diag.
  rewrite Int64Facts.add_small by (rewrite Z.add_0_l; int64).
  apply IH.
Qed.

(** X30: With a positive chunk size and more words than fit in one chunk, an
    overlap as large as the chunk size makes the chunker by words run for
    ever, on the same window, and a larger overlap makes it panic: the
    second window would start before the first word. *)
Theorem ChunkText_by_words_needs_a_smaller_overlap (t : text) (L O : Z) :
  0 < L < Zlen (FieldsFunc t IsSpace) ->
  Zlen (FieldsFunc t IsSpace) < 2 ^ 62 ->
  L <= O ->
  Int64.in_range O ->
  (O = L -> forall fuel, ChunkText_fuel fuel t L O = OutOfFuel) /\
  (L < O -> ChunkText t L O = Panicked).
Proof.
  intros HL Hn HLO HOr. set (words := FieldsFunc t IsSpace) in *. split.
  - intros -> fuel. unfold ChunkText_fuel. fold words.
    destruct (Zlen words =? 0) eqn:E; [exfalso; lia|].
    apply window_loop_stuck; assumption.
  - intros Hlt. unfold ChunkText, ChunkText_fuel. fold words.
    destruct (Zlen words =? 0) eqn:E; [exfalso; lia|].
    destruct (length words) as [|n] eqn:En; [unfold Zlen in HL; exfalso; lia|].
    rewrite window_loop_S. cbv zeta.
    destruct (0 <? Zlen words) eqn:E0; [|exfalso; lia].
    rewrite Int64Facts.add_small by (rewrite Z.add_0_l; int64).
    rewrite Z.add_0_l.
    destruct (L >? Zlen words) eqn:E1; [exfalso; lia|].
    rewrite slice_Some by lia.
    destruct (L =? Zlen words) eqn:E2; [exfalso; lia|].
    unfold Int64.in_range, Int64.min_int, Int64.max_int in HOr.
    rewrite Int64Facts.sub_small by int64.
    rewrite Int64Facts.add_small by (rewrite Z.add_0_l; int64).
    rewrite Z.add_0_l.
    rewrite window_loop_S. cbv zeta.
    destruct (L - O <? Zlen words) eqn:E3; [|exfalso; lia].
    rewrite slice_None_neg by lia. reflexivity.
Qed.

Lemma ChunkText_by_words_needs_a_smaller_overlap_witness :
  (forall fuel, ChunkText_fuel fuel (txt "a b c d e") 2 2 = OutOfFuel) /\
  ChunkText (txt "a b c d e") 2 3 = Panicked.
Proof.
  split.
  - destruct (ChunkText_by_words_needs_a_smaller_overlap (txt "a b c d e") 2 2)
      as [H _].
    + vm_compute. split; reflexivity.
    + vm_compute. reflexivity.
    + lia.
    + unfold Int64.in_range, Int64.min_int, Int64.max_int. lia.
    + apply H. reflexivity.
  - destruct (ChunkText_by_words_needs_a_smaller_overlap (txt "a b c d e") 2 3)
      as [_ H].
    + vm_compute. split; reflexivity.
    + vm_compute. reflexivity.
    + lia.
    + unfold Int64.in_range, Int64.min_int, Int64.max_int. lia.
    + apply H. lia.
Defined.

End WordChunkerFacts.
